(** * Subtitle search server (app.py): a shallow embedding and its properties

    The development follows the layout of [app.py]:
    - Python strings and the [str], [re] and [os.path] operations the program
      calls;
    - [datetime.timedelta] with its range check, [to_timedelta] and
      [find_closest_sub];
    - a state-and-exception monad for the effectful part (socket writes,
      [print], [pysrt.open]);
    - [find_translation_in_other_lang], [format_single_result],
      [stream_subtitle_search] and [handle_client];
    - the properties, one theorem per claim. *)

From Stdlib Require Import String Ascii DecimalString.
From Stdlib Require Import List ZArith NArith Bool Lia Arith.
Import ListNotations.


(* ================================================================= *)
(** ** Python strings *)

(** A Python [str] is a sequence of Unicode code points. *)
Definition pystr := list N.

(** ASCII literals of the program text. *)
Definition py (s : String.string) : pystr :=
  map N_of_ascii (String.list_ascii_of_string s).
Arguments py s%_string.

Definition nl : N := 10%N.
Definition space : N := 32%N.

Definition pystr_eqb (a b : pystr) : bool :=
  if list_eq_dec N.eq_dec a b then true else false.

(** [s.startswith(p)] *)
Fixpoint startswith (p s : pystr) : bool :=
  match p, s with
  | [], _ => true
  | _ :: _, [] => false
  | a :: p', b :: s' => N.eqb a b && startswith p' s'
  end.

(** [s.endswith(p)] *)
Definition endswith (s p : pystr) : bool :=
  startswith (rev p) (rev s).

(** [p in s] for strings: [p] occurs as a contiguous substring of [s]. *)
Fixpoint contains (s p : pystr) : bool :=
  startswith p s ||
  match s with
  | [] => false
  | _ :: s' => contains s' p
  end.

(** [str.isspace] on one code point (the Unicode White_Space characters
    that CPython's [str.strip()] removes). *)
Definition isspace (c : N) : bool :=
  ((9 <=? c) && (c <=? 13) || (28 <=? c) && (c <=? 32)
   || (c =? 133) || (c =? 160) || (c =? 5760)
   || (8192 <=? c) && (c <=? 8202)
   || (c =? 8232) || (c =? 8233) || (c =? 8239) || (c =? 8287)
   || (c =? 12288))%N.

Fixpoint lstrip (s : pystr) : pystr :=
  match s with
  | [] => []
  | c :: s' => if isspace c then lstrip s' else s
  end.

Definition rstrip (s : pystr) : pystr := rev (lstrip (rev s)).

(** [s.strip()] *)
Definition strip (s : pystr) : pystr := lstrip (rstrip s).

(** [s.replace(old, new)]: every occurrence of [old], scanning from the left
    and never overlapping.  [skip] counts the characters of the occurrence
    just replaced that are still to be passed over. *)
Fixpoint replace_from (old new : pystr) (skip : nat) (s : pystr) : pystr :=
  match s with
  | [] => []
  | c :: s' =>
      match skip with
      | S k => replace_from old new k s'
      | O =>
          if startswith old s
          then new ++ replace_from old new (length old - 1) s'
          else c :: replace_from old new 0 s'
      end
  end.

Definition str_replace (old new s : pystr) : pystr :=
  match old with
  | [] => new ++ flat_map (fun c => c :: new) s
  | _ :: _ => replace_from old new 0 s
  end.

(** The character class [[ \n]] of the program's regular expression. *)
Definition is_sp_nl (c : N) : bool := (c =? space)%N || (c =? nl)%N.

(** [re.sub(r"[ \n]+", " ", s)]: every maximal run of spaces and newlines
    becomes one space.  [in_run] tells that the previous character belonged
    to a run whose space has been written already. *)
Fixpoint collapse_from (in_run : bool) (s : pystr) : pystr :=
  match s with
  | [] => []
  | c :: s' =>
      if is_sp_nl c
      then (if in_run then collapse_from true s'
            else space :: collapse_from true s')
      else c :: collapse_from false s'
  end.

Definition re_sub_ws (s : pystr) : pystr := collapse_from false s.

(** [str.upper] on ASCII letters; the program applies it to its own literals
    ["en"] and ["ru"] only. *)
Definition upper (s : pystr) : pystr :=
  map (fun c => if (97 <=? c) && (c <=? 122) then c - 32 else c)%N s.

(** [sep.join(parts)] *)
Fixpoint join (sep : pystr) (parts : list pystr) : pystr :=
  match parts with
  | [] => []
  | [p] => p
  | p :: rest => p ++ sep ++ join sep rest
  end.

(** ["%0<w>d" % z] *)
Definition digits (n : N) : pystr :=
  py (DecimalString.NilZero.string_of_uint (N.to_uint n)).

Definition zero_pad (w : nat) (d : pystr) : pystr :=
  repeat 48%N (w - length d) ++ d.

Definition fmt_0d (w : nat) (z : Z) : pystr :=
  if (z <? 0)%Z
  then py "-" ++ zero_pad (w - 1) (digits (Z.to_N (- z)))
  else zero_pad w (digits (Z.to_N z)).

(* ----------------------------------------------------------------- *)
(** *** [os.path] (posixpath) *)

Definition slash : N := 47%N.

(** The part of [p] after its last slash, and the part up to and including
    it: [p[i:]] and [p[:i]] for [i = p.rfind('/') + 1]. *)
Fixpoint split_last_slash (p : pystr) : pystr * pystr :=
  match p with
  | [] => ([], [])
  | c :: p' =>
      let (head, tail) := split_last_slash p' in
      if (c =? slash)%N then
        (match head with
         | [] => ([c], p')
         | _ :: _ => (c :: head, tail)
         end)
      else
        (match head with
         | [] => ([], c :: tail)
         | _ :: _ => (c :: head, tail)
         end)
  end.

Definition basename (p : pystr) : pystr := snd (split_last_slash p).

Fixpoint drop_slashes (s : pystr) : pystr :=
  match s with
  | [] => []
  | c :: s' => if (c =? slash)%N then drop_slashes s' else s
  end.

(** [os.path.dirname] *)
Definition dirname (p : pystr) : pystr :=
  let head := fst (split_last_slash p) in
  if forallb (N.eqb slash) head then head
  else rev (drop_slashes (rev head)).

(** [os.path.join(a, b)] *)
Definition path_join (a b : pystr) : pystr :=
  if startswith [slash] b then b
  else
    match a with
    | [] => b
    | _ :: _ => if endswith a [slash] then a ++ b else a ++ [slash] ++ b
    end.


(* ================================================================= *)
(** ** Exceptions *)

(** An instance of a subclass of [Exception]; [str(e)] is its message.
    [OverflowError] is the class of the errors of [timedelta]; [Exception]
    stands for the other classes, which the program does not tell apart. *)
Inductive exn : Type :=
| Exception (msg : pystr)
| OverflowError (msg : pystr).

Definition exn_str (e : exn) : pystr :=
  match e with
  | Exception m => m
  | OverflowError m => m
  end.

(** The outcome of a call: a value, or a raised exception. *)
Inductive res (A : Type) : Type :=
| Ok (a : A)
| Raise (e : exn).
Arguments Ok {A} a.
Arguments Raise {A} e.

Definition res_bind {A B} (r : res A) (k : A -> res B) : res B :=
  match r with
  | Ok a => k a
  | Raise e => Raise e
  end.

Notation "'let?' x := r 'in' k" := (res_bind r (fun x => k))
  (at level 10, x name, r at level 100, k at level 200).

(* ================================================================= *)
(** ** [datetime.timedelta] *)

(** A [timedelta] is a whole number of microseconds between
    [timedelta.min] (-999999999 days) and [timedelta.max]
    (999999999 days, 23:59:59.999999); building one outside this range
    raises an [OverflowError]. *)
Definition timedelta := Z.

Definition timedelta_min : Z := (-86399999913600000000)%Z.
Definition timedelta_max : Z := 86399999999999999999%Z.

Definition us_per_day : Z := 86400000000%Z.

(** [str(z)] of an integer. *)
Definition str_int (z : Z) : pystr :=
  if (z <? 0)%Z then py "-" ++ digits (Z.to_N (- z)) else digits (Z.to_N z).

(** The two errors of [timedelta].  The number of days (the floor of the
    microseconds by [us_per_day]) is checked against 999999999; a number
    of days that does not fit a C [int] fails before that, when it is
    converted. *)
Definition days_out_of_range (days : Z) : exn :=
  OverflowError
    (py "days=" ++ str_int days ++ py "; must have magnitude <= 999999999").

Definition int_too_large : exn :=
  OverflowError (py "Python int too large to convert to C int").

Definition in_range (us : Z) : Prop :=
  (timedelta_min <= us <= timedelta_max)%Z.

(** A [timedelta] from days, seconds and microseconds that fit C [int]s:
    the range check. *)
Definition new_delta (us : Z) : res timedelta :=
  if ((timedelta_min <=? us) && (us <=? timedelta_max))%Z
  then Ok us else Raise (days_out_of_range (us / us_per_day)).

(** [timedelta(hours=, minutes=, seconds=, milliseconds=)] on integers
    that add up to [us] microseconds. *)
Definition mk_timedelta (us : Z) : res timedelta :=
  let days := (us / us_per_day)%Z in
  if ((-2147483648 <=? days) && (days <=? 2147483647))%Z
  then new_delta us else Raise int_too_large.

(** [a - b] *)
Definition td_sub (a b : timedelta) : res timedelta := new_delta (a - b).

(** [abs(a)]: [-a] when [a] is negative, [a] itself otherwise. *)
Definition td_abs (a : timedelta) : res timedelta :=
  if (a <? 0)%Z then new_delta (- a) else Ok a.

(** [timedelta(seconds=1)], the default tolerance. *)
Definition one_second : timedelta := 1000000%Z.

(* ================================================================= *)
(** ** Subtitle records *)

(** What the program reads of a subtitle time stamp. *)
Record SubRipTime : Type := {
  hours : Z;
  minutes : Z;
  seconds : Z;
  milliseconds : Z
}.

(** What the program reads of a subtitle record. *)
Record SubRipItem : Type := {
  text : pystr;
  start : SubRipTime;
  end_ : SubRipTime
}.

(** The time stamp in microseconds. *)
Definition micros (t : SubRipTime) : Z :=
  (((hours t * 3600 + minutes t * 60 + seconds t) * 1000
    + milliseconds t) * 1000)%Z.

Definition to_timedelta (srt_time : SubRipTime) : res timedelta :=
  mk_timedelta (micros srt_time).

(** The time stamp as the subtitle library prints it,
    [%02d:%02d:%02d,%03d]; a negative time prints as zero. *)
Definition str_time (t : SubRipTime) : pystr :=
  if (micros t <? 0)%Z then py "00:00:00,000"
  else fmt_0d 2 (hours t) ++ py ":" ++ fmt_0d 2 (minutes t) ++ py ":"
       ++ fmt_0d 2 (seconds t) ++ py "," ++ fmt_0d 3 (milliseconds t).

(* ================================================================= *)
(** ** [find_closest_sub] *)

(** The body of [for sub in subs], with the two loop variables
    [closest_sub] and [min_time_diff]. *)
Fixpoint closest_loop (start_time_td tolerance : timedelta)
    (subs : list SubRipItem)
    (closest_sub : option SubRipItem) (min_time_diff : timedelta)
  : res (option SubRipItem) :=
  match subs with
  | [] => Ok closest_sub
  | sub :: rest =>
      let? sub_start_time_td := to_timedelta (start sub) in
      let? d := td_sub sub_start_time_td start_time_td in
      let? time_diff := td_abs d in
      if ((time_diff <=? tolerance) && (time_diff <? min_time_diff))%Z
      then closest_loop start_time_td tolerance rest (Some sub) time_diff
      else closest_loop start_time_td tolerance rest closest_sub min_time_diff
  end.

Definition find_closest_sub (start_time : SubRipTime)
    (subs : list SubRipItem) (tolerance : timedelta)
  : res (option SubRipItem) :=
  let? start_time_td := to_timedelta start_time in
  closest_loop start_time_td tolerance subs None timedelta_max.

(** [|record.start - T|], in microseconds. *)
Definition time_gap (T : SubRipTime) (s : SubRipItem) : Z :=
  Z.abs (micros (start s) - micros T).

(** The inputs on which no [timedelta] of the computation leaves the
    representable range. *)
Definition representable (T : SubRipTime) (subs : list SubRipItem) : Prop :=
  in_range (micros T) /\
  Forall (fun s => in_range (micros (start s)) /\
                   in_range (micros (start s) - micros T)) subs.

(** What the loop variables record about the part [seen] of the sequence
    scanned so far. *)
Definition scanned (T : SubRipTime) (W : timedelta)
    (seen : list SubRipItem)
    (closest_sub : option SubRipItem) (min_time_diff : Z) : Prop :=
  match closest_sub with
  | None =>
      min_time_diff = timedelta_max /\
      Forall (fun s' => (W < time_gap T s')%Z) seen
  | Some s =>
      min_time_diff = time_gap T s /\ (time_gap T s <= W)%Z /\
      exists before after,
        seen = before ++ s :: after /\
        Forall (fun s' => (time_gap T s < time_gap T s')%Z) before /\
        Forall (fun s' => (time_gap T s <= time_gap T s')%Z) after
  end.

(* ================================================================= *)
(** ** Effects: state and exceptions *)

(** A computation over a state [S] that returns a value or raises; the
    state it leaves is kept in both cases, as Python keeps the effects a
    [try] block had before it raised. *)
Definition M (S A : Type) : Type := S -> res A * S.

Definition ret {S A} (a : A) : M S A := fun s => (Ok a, s).

Definition bind {S A B} (m : M S A) (k : A -> M S B) : M S B :=
  fun s =>
    match m s with
    | (Ok a, s') => k a s'
    | (Raise e, s') => (Raise e, s')
    end.

Notation "x <- m ;; k" := (bind m (fun x => k))
  (at level 61, m at next level, right associativity).
Notation "m ;; k" := (bind m (fun _ => k))
  (at level 61, right associativity).

Definition lift_res {S A} (r : res A) : M S A := fun s => (r, s).

Definition get_state {S} : M S S := fun s => (Ok s, s).

Definition modify {S} (f : S -> S) : M S unit := fun s => (Ok tt, f s).

(** [try: m  except Exception as e: handler e] *)
Definition try_except {S A} (m : M S A) (handler : exn -> M S A) : M S A :=
  fun s =>
    match m s with
    | (Ok a, s') => (Ok a, s')
    | (Raise e, s') => handler e s'
    end.

(** [try: m  finally: cleanup] *)
Definition try_finally {S A} (m : M S A) (cleanup : M S unit) : M S A :=
  fun s =>
    match m s with
    | (r, s') =>
        match cleanup s' with
        | (Ok _, s'') => (r, s'')
        | (Raise e, s'') => (Raise e, s'')
        end
    end.

(** A [for] loop whose body may [return]: the body yields [Some v] for
    [return v] and [None] to go on with the next element. *)
Fixpoint for_ {S X R} (xs : list X) (body : X -> M S (option R))
  : M S (option R) :=
  match xs with
  | [] => ret None
  | x :: rest =>
      r <- body x ;;
      match r with
      | Some v => ret (Some v)
      | None => for_ rest body
      end
  end.

(* ================================================================= *)
(** ** The world of a session *)

(** The connection of a session: the payloads written so far, one per
    successful [sendall]; the outcome of the coming [sendall] calls
    ([Some e]: the call raises [e]; past the end of the script every call
    succeeds); and whether the socket has been closed. *)
Record Conn : Type := {
  sent : list pystr;
  faults : list (option exn);
  closed : bool
}.

(** The connection, what has been printed, and the files opened so far. *)
Record World : Type := {
  conn : Conn;
  stdout : list pystr;
  opened : list pystr
}.

Definition set_conn (w : World) (c : Conn) : World :=
  {| conn := c; stdout := stdout w; opened := opened w |}.

(** [conn.sendall(data.encode())] *)
Definition sendall (data : pystr) : M World unit :=
  fun w =>
    let c := conn w in
    if closed c then (Raise (Exception (py "Bad file descriptor")), w)
    else
      match faults c with
      | Some e :: rest =>
          (Raise e,
           set_conn w {| sent := sent c; faults := rest; closed := false |})
      | None :: rest =>
          (Ok tt,
           set_conn w {| sent := sent c ++ [data]; faults := rest;
                         closed := false |})
      | [] =>
          (Ok tt,
           set_conn w {| sent := sent c ++ [data]; faults := [];
                         closed := false |})
      end.

(** [conn.close()] *)
Definition close : M World unit :=
  modify (fun w =>
    set_conn w {| sent := sent (conn w); faults := faults (conn w);
                  closed := true |}).

(** [print(line)] *)
Definition print (line : pystr) : M World unit :=
  modify (fun w =>
    {| conn := conn w; stdout := stdout w ++ [line]; opened := opened w |}).

(** The file tree as the program observes it: what [os.walk(directory)]
    yields, what [os.path.exists] answers and what [pysrt.open] returns or
    raises. *)
Record FileSystem : Type := {
  os_walk : pystr -> list (pystr * list pystr * list pystr);
  os_path_exists : pystr -> bool;
  pysrt_open : pystr -> res (list SubRipItem)
}.

(** One entry of a result: the dictionaries under ["original"] and
    ["translation"]. *)
Record Entry : Type := {
  language : pystr;
  file : pystr;
  start_time : pystr;
  end_time : pystr;
  text_ : pystr
}.

Record MatchResult : Type := {
  original : Entry;
  translation : option Entry
}.

(** The four values [find_translation_in_other_lang] returns. *)
Definition Translation : Type :=
  (option pystr * option SubRipTime * option SubRipTime * option pystr)%type.

(** The local variables of [stream_subtitle_search], next to the world. *)
Record Search : Type := {
  world : World;
  found_matches : bool;
  count : nat
}.

Definition in_world {A} (m : M World A) : M Search A :=
  fun st =>
    match m (world st) with
    | (r, w) =>
        (r, {| world := w; found_matches := found_matches st;
               count := count st |})
    end.

Definition SEARCH_LIMIT : nat := 12.

Definition is_russian (text : pystr) : bool :=
  existsb (fun c => (127 <? c)%N) text.

(** The name of the sibling file:
    [file_name.replace(f"_{from_lang_suffix}", f"_{to_lang_suffix}")]. *)
Definition other_lang_file_name
    (file_name from_lang_suffix to_lang_suffix : pystr) : pystr :=
  str_replace (py "_" ++ from_lang_suffix) (py "_" ++ to_lang_suffix)
    file_name.

Definition other_lang_file_path
    (file_path from_lang_suffix to_lang_suffix : pystr) : pystr :=
  path_join (dirname file_path)
    (other_lang_file_name (basename file_path)
       from_lang_suffix to_lang_suffix).

(** [str(x)] of a value that may be [None]. *)
Definition str_opt (s : option pystr) : pystr :=
  match s with Some s => s | None => py "None" end.

Definition str_opt_time (t : option SubRipTime) : pystr :=
  match t with Some t => str_time t | None => py "None" end.

(** Truth value of a string that may be [None]. *)
Definition truthy (s : option pystr) : bool :=
  match s with
  | Some (_ :: _) => true
  | _ => false
  end.

(** The text of the matched record as the frame shows it (lines 124-128). *)
Definition normalize (raw : pystr) : pystr :=
  str_replace (py "</i>") []
    (str_replace (py "<i>") [] (re_sub_ws (strip raw))).

(** The text of the translation as the frame shows it (lines 154-159). *)
Definition normalize_translation (translated_text : pystr) : pystr :=
  str_replace (py "</i>") []
    (str_replace (py "<i>") [] (strip (re_sub_ws translated_text))).

Definition entry_header (e : Entry) : pystr :=
  language e ++ py " (" ++ file e ++ py ") " ++ start_time e
  ++ py " -> " ++ end_time e.

Definition no_translation_line : pystr :=
  py "No corresponding translation found." ++ [nl].

Definition format_single_result (result : MatchResult) : pystr :=
  let orig := original result in
  let formatted :=
    [entry_header orig; text_ orig ++ [nl]]
    ++ match translation result with
       | Some trans => [entry_header trans; text_ trans ++ [nl]]
       | None => [no_translation_line]
       end
    ++ [repeat 45%N 80] in
  join [nl] formatted.

Definition no_results_msg : pystr := py "No matching subtitles found.".

Definition END_MARKER : pystr := [nl] ++ py "<END>" ++ [nl].

Section Server.

(** The file tree, and [str.lower]. *)
Variable fs : FileSystem.
Variable lower : pystr -> pystr.

(** [pysrt.open(path)] *)
Definition srt_open (path : pystr) : M World (list SubRipItem) :=
  fun w =>
    (pysrt_open fs path,
     {| conn := conn w; stdout := stdout w; opened := opened w ++ [path] |}).

Definition find_translation_in_other_lang
    (directory : pystr) (start_time : SubRipTime)
    (file_path from_lang_suffix to_lang_suffix : pystr)
    (tolerance : timedelta) : M World Translation :=
  let directory_path := dirname file_path in
  let file_name := basename file_path in
  let other_lang_file_name :=
    str_replace (py "_" ++ from_lang_suffix) (py "_" ++ to_lang_suffix)
      file_name in
  let other_lang_file_path := path_join directory_path other_lang_file_name in
  if os_path_exists fs other_lang_file_path then
    subs <- srt_open other_lang_file_path ;;
    closest_sub <- lift_res (find_closest_sub start_time subs tolerance) ;;
    match closest_sub with
    | Some closest_sub =>
        ret (Some (strip (text closest_sub)),
             Some (start closest_sub),
             Some (end_ closest_sub),
             Some other_lang_file_path)
    | None => ret (None, None, None, None)
    end
  else ret (None, None, None, None).

(** [search_string.lower() in sub.text.lower()] *)
Definition matches (search_string : pystr) (sub : SubRipItem) : bool :=
  contains (lower (text sub)) (lower search_string).

Section Query.

Variables (directory search_string lang_suffix other_lang_suffix : pystr).

(** The result dictionary of a match, from the record and the four values
    of the translation lookup (lines 130-168). *)
Definition build_result (file_path : pystr) (sub : SubRipItem)
    (tr : Translation) : MatchResult :=
  let '(translated_text, translated_start_time, translated_end_time,
        translated_file_path) := tr in
  {| original :=
       {| language := upper lang_suffix;
          file := file_path;
          start_time := str_time (start sub);
          end_time := str_time (end_ sub);
          text_ := normalize (text sub) |};
     translation :=
       if truthy translated_text then
         Some {| language := upper other_lang_suffix;
                 file := str_opt translated_file_path;
                 start_time := str_opt_time translated_start_time;
                 end_time := str_opt_time translated_end_time;
                 text_ := normalize_translation (str_opt translated_text) |}
       else None |}.

(** The body of [if search_string.lower() in sub.text.lower()]
    (lines 121-174). *)
Definition emit_match (file_path : pystr) (sub : SubRipItem)
  : M Search (option bool) :=
  modify (fun st => {| world := world st; found_matches := true;
                       count := count st |}) ;;
  modify (fun st => {| world := world st; found_matches := found_matches st;
                       count := count st + 1 |}) ;;
  tr <- in_world (find_translation_in_other_lang directory (start sub)
                    file_path lang_suffix other_lang_suffix one_second) ;;
  let formatted_result :=
    format_single_result (build_result file_path sub tr) in
  in_world (sendall formatted_result) ;;
  st <- get_state ;;
  if SEARCH_LIMIT <=? count st then ret (Some true) else ret None.

(** [for sub in subs] (lines 117-174) *)
Definition scan_subs (file_path : pystr) (subs : list SubRipItem)
  : M Search (option bool) :=
  for_ subs (fun sub =>
    if matches search_string sub then emit_match file_path sub
    else ret None).

(** The body of [for file in files] (lines 113-176) *)
Definition scan_file (root file : pystr) : M Search (option bool) :=
  if endswith file (py "_" ++ lang_suffix ++ py ".srt") then
    let file_path := path_join root file in
    try_except
      (subs <- in_world (srt_open file_path) ;;
       scan_subs file_path subs)
      (fun e =>
         in_world (print (py "Error processing file " ++ file_path
                          ++ py ": " ++ exn_str e)) ;;
         ret None)
  else ret None.

(** [for file in files] *)
Definition scan_files (root : pystr) (files : list pystr)
  : M Search (option bool) :=
  for_ files (scan_file root).

(** [for root, dirs, files in ...] *)
Definition scan_walk (walk : list (pystr * list pystr * list pystr))
  : M Search (option bool) :=
  for_ walk (fun '(root, _, files) => scan_files root files).

End Query.

Definition lang_suffixes (search_string : pystr) : pystr * pystr :=
  if is_russian search_string then (py "ru", py "en")
  else (py "en", py "ru").

(** The state in which [stream_subtitle_search] leaves its local variables
    and the world, with what its loops returned. *)
Definition run_search (directory search_string : pystr) (w : World)
  : res (option bool) * Search :=
  let (lang_suffix, other_lang_suffix) := lang_suffixes search_string in
  scan_walk directory search_string lang_suffix other_lang_suffix
    (os_walk fs directory)
    {| world := w; found_matches := false; count := 0 |}.

Definition stream_subtitle_search (directory search_string : pystr)
  : M World bool :=
  fun w =>
    match run_search directory search_string w with
    | (Ok (Some v), st) => (Ok v, world st)
    | (Ok None, st) => (Ok (found_matches st), world st)
    | (Raise e, st) => (Raise e, world st)
    end.

(** One round of the session loop, after a non-empty query has been read
    (lines 189-199). *)
Definition serve_query (addr subtitles_directory search_str : pystr)
  : M World unit :=
  print (py "[SEARCH] Client " ++ addr ++ py " searching for: '"
         ++ search_str ++ py "'") ;;
  found_matches <- stream_subtitle_search subtitles_directory search_str ;;
  (if negb found_matches then sendall no_results_msg else ret tt) ;;
  sendall END_MARKER.

(** The [while True] loop over what [conn.recv(1024).decode()] yields, call
    after call; when the script is used up the peer has closed and [recv]
    yields the empty string. *)
Fixpoint serve (inbox : list (res pystr)) (addr subtitles_directory : pystr)
  : M World unit :=
  match inbox with
  | [] => ret tt
  | received :: rest =>
      data <- lift_res received ;;
      let search_str := strip data in
      match search_str with
      | [] => ret tt
      | _ :: _ =>
          serve_query addr subtitles_directory search_str ;;
          serve rest addr subtitles_directory
      end
  end.

Definition handle_client (inbox : list (res pystr))
    (addr subtitles_directory : pystr) : M World unit :=
  print (py "[NEW CONNECTION] " ++ addr ++ py " connected.") ;;
  try_finally
    (try_except (serve inbox addr subtitles_directory)
       (fun e => print (py "[ERROR] " ++ exn_str e)))
    (close ;; print (py "[DISCONNECTED] " ++ addr ++ py " disconnected.")).

End Server.

(* ================================================================= *)
(** ** Predicates used in the statements *)

(** Two adjacent characters of the class [[ \n]]: a run that has not been
    collapsed. *)
Fixpoint has_ws_run (s : pystr) : bool :=
  match s with
  | [] => false
  | c1 :: s' =>
      match s' with
      | [] => false
      | c2 :: _ => (is_sp_nl c1 && is_sp_nl c2) || has_ws_run s'
      end
  end.

(** The string starts or ends with a whitespace character. *)
Definition outer_ws (s : pystr) : bool :=
  match s with
  | [] => false
  | c :: _ => isspace c || isspace (last s c)
  end.

Definition has_italic_tag (s : pystr) : bool :=
  contains s (py "<i>") || contains s (py "</i>").

(** [every_occurrence old new s s']: [s'] is [s] with every occurrence of
    [old] replaced by [new], the occurrences being taken from the left and
    not overlapping; a character at which no occurrence starts is kept. *)
Inductive every_occurrence (old new : pystr) : pystr -> pystr -> Prop :=
| occurrence_none : every_occurrence old new [] []
| occurrence_here (rest rest' : pystr) :
    every_occurrence old new rest rest' ->
    every_occurrence old new (old ++ rest) (new ++ rest')
| occurrence_kept (c : N) (rest rest' : pystr) :
    startswith old (c :: rest) = false ->
    every_occurrence old new rest rest' ->
    every_occurrence old new (c :: rest) (c :: rest').

(** A directory name as [os.path.dirname] gives it: made of slashes only,
    or without a trailing slash. *)
Definition tidy_dir (d : pystr) : Prop :=
  forallb (N.eqb slash) d = true \/
  exists d' c, d = d' ++ [c] /\ c <> slash.

(** The local variables after [found_matches = True; count += 1]. *)
Definition counted (st : Search) : Search :=
  {| world := world st; found_matches := true; count := count st + 1 |}.

Definition with_world (st : Search) (w : World) : Search :=
  {| world := w; found_matches := found_matches st; count := count st |}.

(** The world after a line has been printed and after a file has been
    opened. *)
Definition printed (w : World) (line : pystr) : World :=
  {| conn := conn w; stdout := stdout w ++ [line]; opened := opened w |}.

Definition having_opened (w : World) (path : pystr) : World :=
  {| conn := conn w; stdout := stdout w; opened := opened w ++ [path] |}.

(** The line the handler of a file prints. *)
Definition error_line (file_path : pystr) (e : exn) : pystr :=
  py "Error processing file " ++ file_path ++ py ": " ++ exn_str e.

(** The connection is open and its next write succeeds. *)
Definition accepts (c : Conn) : bool :=
  negb (closed c) &&
  match faults c with
  | Some _ :: _ => false
  | _ => true
  end.

(** The connection is open and no write on it will fail. *)
Definition sound (c : Conn) : Prop := closed c = false /\ faults c = [].




(** No record of a primary-language file of the walk matches the query. *)
Definition no_match (fs : FileSystem) (lower : pystr -> pystr)
    (directory search_string : pystr) : Prop :=
  forall root dirs files file subs sub,
    In (root, dirs, files) (os_walk fs directory) ->
    In file files ->
    endswith file (py "_" ++ fst (lang_suffixes search_string) ++ py ".srt")
    = true ->
    pysrt_open fs (path_join root file) = Ok subs ->
    In sub subs ->
    matches lower search_string sub = false.

(** The state after the handler of a file has caught [e] right after the
    file was opened. *)
Definition logged (st : Search) (file_path : pystr) (e : exn) : Search :=
  with_world st
    (printed (having_opened (world st) file_path) (error_line file_path e)).

(** The frame of a match without translation. *)
Definition frame_without_translation
    (lang_suffix file_path : pystr) (sub : SubRipItem) : pystr :=
  join [nl]
    [upper lang_suffix ++ py " (" ++ file_path ++ py ") "
       ++ str_time (start sub) ++ py " -> " ++ str_time (end_ sub);
     normalize (text sub) ++ [nl];
     py "No corresponding translation found." ++ [nl];
     repeat 45%N 80].

(** During a search on a sound connection: the connection stays sound and
    what it has sent extends [sent0]. *)
Definition streaming (sent0 : list pystr) (st : Search) : Prop :=
  sound (conn (world st)) /\
  exists frames, sent (conn (world st)) = sent0 ++ frames.

(** During a search without a match: the connection is as it was and
    [found_matches] is still [False]. *)
Definition silent (c : Conn) (st : Search) : Prop :=
  conn (world st) = c /\ found_matches st = false.

(** Two states of a search that differ at most in what has been printed and
    in the record of the files opened. *)
Definition same_but_log (st st' : Search) : Prop :=
  conn (world st) = conn (world st') /\
  found_matches st = found_matches st' /\
  count st = count st'.

(** A step of the search that behaves alike on such states. *)
Definition respects_log {A} (m : M Search A) : Prop :=
  forall st1 st2,
    same_but_log st1 st2 ->
    fst (m st1) = fst (m st2) /\ same_but_log (snd (m st1)) (snd (m st2)).

(** What a loop of the search shows to its caller and to the client: what it
    returns, the connection, and the two counters. *)
Definition observable (out : res (option bool) * Search)
  : res (option bool) * Conn * bool * nat :=
  (fst out, conn (world (snd out)), found_matches (snd out), count (snd out)).

(* ================================================================= *)
(** ** The client: reading one response *)

(** [s.split(sep)] for a separator that is not empty (the program splits on
    the newline): the pieces between the occurrences of [sep], found from
    the left and never overlapping.  [skip] counts the characters of the
    occurrence just met that are still to be passed over. *)
Fixpoint split_from (sep : pystr) (skip : nat) (s : pystr) : list pystr :=
  match s with
  | [] => [[]]
  | c :: s' =>
      match skip with
      | S k => split_from sep k s'
      | O =>
          if startswith sep s
          then [] :: split_from sep (length sep - 1) s'
          else
            match split_from sep 0 s' with
            | piece :: pieces => (c :: piece) :: pieces
            | [] => [[c]]
            end
      end
  end.

Definition str_split (sep s : pystr) : list pystr := split_from sep 0 s.

(** The variables of the receiving loop of [start_client] (lines 243-261),
    and what has been printed. *)
Record Client : Type := {
  buffer : pystr;
  receiving : bool;
  console : list pystr
}.

Definition nonempty (s : pystr) : bool :=
  match s with
  | [] => false
  | _ :: _ => true
  end.

Section Receive.

(** [termcolor.colored] *)
Variable colored : pystr -> pystr -> pystr.

(** One turn of [while receiving], for what [recv(1024).decode()] gave
    (lines 247-258). *)
Definition receive_chunk (data : pystr) (c : Client) : Client :=
  if contains data (py "<END>") then
    {| buffer := buffer c ++ str_replace (py "<END>") [] data;
       receiving := false;
       console := console c |}
  else
    let buffer := buffer c ++ data in
    let lines := str_split [nl] buffer in
    if 1 <? length lines then
      {| buffer := last lines [];
         receiving := true;
         console :=
           console c
           ++ map (fun line => colored line (py "cyan"))
                (filter nonempty (removelast lines)) |}
    else
      {| buffer := buffer; receiving := true; console := console c |}.

(** The loop over what the calls of [recv(1024).decode()] give, one after
    the other.  When the script is used up while [receiving] still holds,
    the loop is waiting for more. *)
Fixpoint receive_loop (chunks : list (res pystr)) (c : Client)
  : res Client :=
  match chunks with
  | [] => Ok c
  | received :: rest =>
      if receiving c then
        match received with
        | Ok data => receive_loop rest (receive_chunk data c)
        | Raise e => Raise e
        end
      else Ok c
  end.

(** [if buffer.strip(): print(colored(buffer, "cyan"))] (lines 260-261) *)
Definition flush_buffer (c : Client) : Client :=
  match strip (buffer c) with
  | [] => c
  | _ :: _ =>
      {| buffer := buffer c;
         receiving := receiving c;
         console := console c ++ [colored (buffer c) (py "cyan")] |}
  end.

(** Reading the response to one query (lines 243-261): the loop from an
    empty buffer, then, once it has ended, the rest of the buffer. *)
Definition read_response (chunks : list (res pystr)) : res Client :=
  let? c := receive_loop chunks
              {| buffer := []; receiving := true; console := [] |} in
  if receiving c then Ok c else Ok (flush_buffer c).

End Receive.

(* ================================================================= *)
(** ** More predicates used in the statements *)

(** A loop of the search has met a match: it has returned, or it has set
    [found_matches]. *)
Definition has_found (out : res (option bool) * Search) : Prop :=
  match out with
  | (Ok (Some _), _) => True
  | (_, st') => found_matches st' = true
  end.

(** An error of [timedelta]: an [OverflowError] with one of its two
    messages, that of a number of days that does not fit a C [int], or that
    of a number of days that fits one and is out of range. *)
Definition overflow_error (e : exn) : Prop :=
  e = int_too_large \/
  exists days : Z,
    (999999999 < Z.abs days)%Z /\
    (-2147483648 <= days <= 2147483647)%Z /\
    e = days_out_of_range days.

(** A path the search may open: a primary-language file that the walk
    lists, or the sibling of such a file. *)
Definition may_open (fs : FileSystem)
    (directory lang_suffix other_lang_suffix : pystr) (p : pystr) : Prop :=
  exists root dirs files file,
    In (root, dirs, files) (os_walk fs directory) /\
    In file files /\
    endswith file (py "_" ++ lang_suffix ++ py ".srt") = true /\
    (p = path_join root file \/
     p = other_lang_file_path (path_join root file)
           lang_suffix other_lang_suffix).

(** A line the handler of a file prints. *)
Definition is_error_line (line : pystr) : Prop :=
  exists file_path e, line = error_line file_path e.

(** The world [w'] comes after [w] in a search: the connection is closed in
    both or in none, the files opened since may be opened, and the lines
    printed since are error lines. *)
Definition follows (allowed : pystr -> Prop) (w w' : World) : Prop :=
  closed (conn w') = closed (conn w) /\
  (exists paths,
     opened w' = opened w ++ paths /\ Forall allowed paths) /\
  (exists lines,
     stdout w' = stdout w ++ lines /\ Forall is_error_line lines).

(** Two searches run in step on two sound connections: they have counted
    the same and have written the same frames. *)
Definition in_step (sent1 sent2 : list pystr) (st1 st2 : Search) : Prop :=
  sound (conn (world st1)) /\ sound (conn (world st2)) /\
  found_matches st1 = found_matches st2 /\
  count st1 = count st2 /\
  exists frames,
    sent (conn (world st1)) = sent1 ++ frames /\
    sent (conn (world st2)) = sent2 ++ frames.

(** The world after [conn.close()]. *)
Definition closed_conn (w : World) : World :=
  set_conn w {| sent := sent (conn w); faults := faults (conn w);
                closed := true |}.

(** The lines [handle_client] prints around a session. *)
Definition connected_line (addr : pystr) : pystr :=
  py "[NEW CONNECTION] " ++ addr ++ py " connected.".

Definition disconnected_line (addr : pystr) : pystr :=
  py "[DISCONNECTED] " ++ addr ++ py " disconnected.".

Definition session_error_line (e : exn) : pystr :=
  py "[ERROR] " ++ exn_str e.

(** A received message that starts a round of the session: it has been
    read and is not blank. *)
Definition is_query (received : res pystr) : bool :=
  match received with
  | Ok data => nonempty (strip data)
  | Raise _ => false
  end.

(** What has been printed is never taken back. *)
Definition grows (w w' : World) : Prop :=
  exists lines, stdout w' = stdout w ++ lines.

(** A text without its newlines. *)
Definition without_newlines (s : pystr) : pystr :=
  filter (fun c => negb (c =? nl)%N) s.

(** What the client shows of a line. *)
Definition shown (colored : pystr -> pystr -> pystr) (lines : list pystr)
  : list pystr :=
  map (fun line => colored line (py "cyan")) lines.

Definition has_end_marker (data : pystr) : bool :=
  contains data (py "<END>").

(** The client before the first [recv] of a response. *)
Definition fresh_client : Client :=
  {| buffer := []; receiving := true; console := [] |}.

(** A line the loop of the client prints: not empty, without newline. *)
Definition whole_line (line : pystr) : Prop := line <> [] /\ ~ In nl line.

(* ----------------------------------------------------------------- *)
(** *** The answer to a query *)

(** What the lookup of a translation returns for a match; it does not
    depend on the world in which it is made. *)
Definition translation_of (fs : FileSystem)
    (directory lang_suffix other_lang_suffix : pystr)
    (file_path : pystr) (sub : SubRipItem) : res Translation :=
  fst (find_translation_in_other_lang fs directory (start sub) file_path
         lang_suffix other_lang_suffix one_second
         {| conn := {| sent := []; faults := []; closed := false |};
            stdout := []; opened := [] |}).

(** The frame of a match: the record [snd item] of the file [fst item]. *)
Definition frame_of (fs : FileSystem)
    (directory lang_suffix other_lang_suffix : pystr)
    (item : pystr * SubRipItem) : pystr :=
  match translation_of fs directory lang_suffix other_lang_suffix
          (fst item) (snd item) with
  | Ok tr =>
      format_single_result
        (build_result lang_suffix other_lang_suffix (fst item) (snd item) tr)
  | Raise _ => []
  end.

(** The matches of a query, in the order in which the search meets them:
    the matching records of a file in the order of the file, the files of a
    directory in the order of the listing, the directories in the order of
    the walk; a file that cannot be loaded has none. *)
Definition found_in_file (fs : FileSystem) (lower : pystr -> pystr)
    (search_string file_path : pystr) : list (pystr * SubRipItem) :=
  match pysrt_open fs file_path with
  | Ok subs => map (pair file_path) (filter (matches lower search_string) subs)
  | Raise _ => []
  end.

Definition found_in_files (fs : FileSystem) (lower : pystr -> pystr)
    (search_string lang_suffix root : pystr) (files : list pystr)
  : list (pystr * SubRipItem) :=
  flat_map
    (fun file =>
       if endswith file (py "_" ++ lang_suffix ++ py ".srt")
       then found_in_file fs lower search_string (path_join root file)
       else [])
    files.

Definition found_in_walk (fs : FileSystem) (lower : pystr -> pystr)
    (search_string lang_suffix : pystr)
    (walk : list (pystr * list pystr * list pystr))
  : list (pystr * SubRipItem) :=
  flat_map
    (fun entry : pystr * list pystr * list pystr =>
       let '(root, _, files) := entry in
       found_in_files fs lower search_string lang_suffix root files)
    walk.

(** A step of the search on a sound connection writes the frames of
    [items], as far as the limit allows: it returns [True] when the limit is
    reached, and goes on with the matches counted when not. *)
Definition emits (frame : pystr * SubRipItem -> pystr)
    (m : M Search (option bool)) (items : list (pystr * SubRipItem))
  : Prop :=
  forall st,
    sound (conn (world st)) -> count st < SEARCH_LIMIT ->
    exists st',
      m st
      = (Ok (if SEARCH_LIMIT - count st <=? length items
             then Some true else None), st') /\
      sound (conn (world st')) /\
      sent (conn (world st'))
      = sent (conn (world st))
        ++ map frame (firstn (SEARCH_LIMIT - count st) items) /\
      (length items < SEARCH_LIMIT - count st ->
       count st' = count st + length items /\
       found_matches st'
       = found_matches st || match items with [] => false | _ => true end).

(** A separator between the fields of a frame cannot be part of an
    occurrence of the pattern [m] that reaches into a field: its first
    character is not a later character of [m], and its last character is not
    an earlier one. *)
Definition head_free (m s : pystr) : bool :=
  match s with
  | [] => false
  | c :: _ => negb (existsb (N.eqb c) (tl m))
  end.

Definition last_free (m s : pystr) : bool :=
  match s with
  | [] => false
  | c :: _ => negb (existsb (N.eqb (last s c)) (removelast m))
  end.

(** No field of the entry holds the end marker. *)
Definition entry_without_marker (e : Entry) : Prop :=
  has_end_marker (language e) = false /\
  has_end_marker (file e) = false /\
  has_end_marker (start_time e) = false /\
  has_end_marker (end_time e) = false /\
  has_end_marker (text_ e) = false.

(* ================================================================= *)
(** ** Example data *)

(** The time stamp that is [ms] milliseconds after zero, with its fields
    as the subtitle library splits them, and a record that starts there and
    lasts one second. *)
Definition t_ms (ms : Z) : SubRipTime :=
  {| hours := ms / 3600000;
     minutes := (ms mod 3600000) / 60000;
     seconds := (ms mod 60000) / 1000;
     milliseconds := ms mod 1000 |}.

Definition sub_at (txt : String.string) (ms : Z) : SubRipItem :=
  {| text := py txt; start := t_ms ms; end_ := t_ms (ms + 1000) |}.

(** A time stamp of a thousand million days, one day beyond what a
    [timedelta] holds, and a record that starts there. *)
Definition far_time : SubRipTime :=
  {| hours := 24000000000; minutes := 0; seconds := 0; milliseconds := 0 |}.

Definition far_sub : SubRipItem :=
  {| text := py "far"; start := far_time; end_ := far_time |}.

(** The text of the specification's normalizer example,
    ["Hello<i>\n  world</i>  "]. *)
Definition hello_raw : pystr := py "Hello<i>" ++ [nl] ++ py "  world</i>  ".

(** A text with italic tags next to spaces and inside a broken tag. *)
Definition tagged_raw : pystr := py "<i> a <i> <<i>i> b".

(** A text without tags, with irregular whitespace. *)
Definition spaced_raw : pystr := py "  so   long" ++ [nl; nl] ++ py " now  ".

(** [str.lower] on ASCII text. *)
Definition ascii_lower (s : pystr) : pystr :=
  map (fun c => if (65 <=? c) && (c <=? 90) then c + 32 else c)%N s.

Fixpoint lookup {A} (p : pystr) (tbl : list (pystr * A)) : option A :=
  match tbl with
  | [] => None
  | (k, v) :: rest => if pystr_eqb k p then Some v else lookup p rest
  end.

(** A file tree given by what the walk lists and by the table of its
    subtitle files, each with what loading it gives. *)
Definition tree (listing : list (pystr * list pystr * list pystr))
    (files : list (pystr * res (list SubRipItem))) : FileSystem :=
  {| os_walk := fun _ => listing;
     os_path_exists := fun p =>
       match lookup p files with Some _ => true | None => false end;
     pysrt_open := fun p =>
       match lookup p files with
       | Some r => r
       | None => Raise (Exception (py "No such file or directory"))
       end |}.

(** A fresh connection on which every write succeeds, and the world of a
    session that starts on it. *)
Definition healthy : Conn := {| sent := []; faults := []; closed := false |}.

Definition world_of (c : Conn) : World :=
  {| conn := c; stdout := []; opened := [] |}.

(** One English file, no Russian sibling. *)
Definition fs_lonely : FileSystem :=
  tree [(py ".", [], [py "movie_en.srt"])]
       [(py "./movie_en.srt", Ok [sub_at "Hello world" 1000])].

Definition start_state (w : World) : Search :=
  {| world := w; found_matches := false; count := 0 |}.

(** What loading a file that is not valid UTF-8 raises. *)
Definition corrupt : exn :=
  Exception (py "'utf-8' codec can't decode byte 0xff in position 0").

(** A file that cannot be loaded, next to one that can. *)
Definition fs_bad : FileSystem :=
  tree [(py ".", [], [py "bad_en.srt"; py "good_en.srt"])]
       [(py "./bad_en.srt", Raise corrupt);
        (py "./good_en.srt", Ok [sub_at "Hello there" 1000])].

(** Two matching records in the English file; the Russian sibling exists
    and cannot be loaded. *)
Definition fs_corrupt : FileSystem :=
  tree [(py ".", [], [py "movie_en.srt"; py "movie_ru.srt"])]
       [(py "./movie_en.srt",
         Ok [sub_at "Hello world" 1000; sub_at "Hello again" 5000]);
        (py "./movie_ru.srt", Raise corrupt)].

(** The Russian sibling has a record in time whose text is blank. *)
Definition fs_blank : FileSystem :=
  tree [(py ".", [], [py "movie_en.srt"; py "movie_ru.srt"])]
       [(py "./movie_en.srt", Ok [sub_at "Hello world" 1000]);
        (py "./movie_ru.srt", Ok [sub_at "  " 1200])].

(** [n] records that hold the word [hello], one per second. *)
Definition hello_subs (n : nat) : list SubRipItem :=
  map (fun k => sub_at "hello" (1000 * Z.of_nat k)) (seq 1 n).

(** Thirteen matches in the first file, one more in the second. *)
Definition fs_full : FileSystem :=
  tree [(py ".", [], [py "a_en.srt"; py "b_en.srt"])]
       [(py "./a_en.srt", Ok (hello_subs 13));
        (py "./b_en.srt", Ok (hello_subs 1))].


(** What a write to a connection the peer has dropped raises. *)
Definition broken_pipe : exn := Exception (py "[Errno 32] Broken pipe").

(** A connection whose next write fails, the later ones succeed; and one on
    which every write of the session fails. *)
Definition failing_once : Conn :=
  {| sent := []; faults := [Some broken_pipe]; closed := false |}.

Definition dropped : Conn :=
  {| sent := []; faults := repeat (Some broken_pipe) 8; closed := false |}.

(** A connection on which the third write fails, and what reading from a
    connection that the peer has reset raises. *)
Definition failing_third : Conn :=
  {| sent := []; faults := [None; None; Some broken_pipe]; closed := false |}.

Definition reset_by_peer : exn :=
  Exception (py "[Errno 104] Connection reset by peer").

(** Two English files with one matching record each, no translations. *)
Definition fs_pair : FileSystem :=
  tree [(py ".", [], [py "a_en.srt"; py "b_en.srt"])]
       [(py "./a_en.srt", Ok [sub_at "Hello world" 1000]);
        (py "./b_en.srt", Ok [sub_at "Hello again" 2000])].

(** The scenario of the specification: [movie_en.srt] holds ["Hello world"]
    at 00:00:01,000 and [movie_ru.srt] a record 200 ms later. *)
Definition privet : pystr := [1055; 1088; 1080; 1074; 1077; 1090]%N.

Definition fs_movie : FileSystem :=
  tree [(py ".", [], [py "movie_en.srt"; py "movie_ru.srt"])]
       [(py "./movie_en.srt", Ok [sub_at "Hello world" 1000]);
        (py "./movie_ru.srt",
         Ok [{| text := privet; start := t_ms 1200; end_ := t_ms 2200 |}])].

(** The Russian sibling holds a record whose time stamp is out of the
    range of [timedelta]. *)
Definition fs_far : FileSystem :=
  tree [(py ".", [], [py "movie_en.srt"; py "movie_ru.srt"])]
       [(py "./movie_en.srt", Ok [sub_at "Hello world" 1000]);
        (py "./movie_ru.srt", Ok [sub_at "Privet" 1200; far_sub])].

(** A primary file whose name holds the token [_en] twice, its sibling, and
    a file whose name differs from the primary one in the last token only. *)
Definition fs_dialog : FileSystem :=
  tree [(py ".", [],
         [py "dialog_enhanced_en.srt"; py "dialog_enhanced_ru.srt";
          py "dialog_ruhanced_ru.srt"])]
       [(py "./dialog_enhanced_en.srt", Ok [sub_at "Hello world" 1000]);
        (py "./dialog_enhanced_ru.srt", Ok [sub_at "Net" 1000]);
        (py "./dialog_ruhanced_ru.srt", Ok [sub_at "Privet" 1200])].

(** A stand-in for [termcolor.colored] that marks the text with the name of
    the colour. *)
Definition tagged (text color : pystr) : pystr :=
  py "<" ++ color ++ py ">" ++ text.

(* ================================================================= *)
(** ** Properties of [find_closest_sub] *)

Section Closest.

Variables (T : SubRipTime) (W : timedelta).

Local Open Scope Z_scope.

Lemma new_delta_in_range us : in_range us -> new_delta us = Ok us.
Proof.
  unfold in_range, new_delta. intros [H1 H2].
  apply Z.leb_le in H1. apply Z.leb_le in H2. now rewrite H1, H2.
Qed.

Lemma mk_timedelta_in_range us : in_range us -> mk_timedelta us = Ok us.
Proof.
  intros H. unfold mk_timedelta. rewrite (new_delta_in_range _ H).
  unfold in_range, timedelta_min, timedelta_max in H.
  assert (Hd : -2147483648 <= us / us_per_day <= 2147483647).
  { unfold us_per_day. split.
    - apply Z.div_le_lower_bound; lia.
    - apply Z.lt_succ_r, Z.div_lt_upper_bound; lia. }
  destruct Hd as [H1 H2].
  apply Z.leb_le in H1. apply Z.leb_le in H2. now rewrite H1, H2.
Qed.

(** The time difference computed by one loop iteration. *)
Lemma time_diff_computed s :
  in_range (micros (start s)) ->
  in_range (micros (start s) - micros T) ->
  (let? a := to_timedelta (start s) in
   let? d := td_sub a (micros T) in td_abs d) = Ok (time_gap T s).
Proof.
  intros Hs Hd. unfold to_timedelta, td_sub. cbn.
  rewrite (mk_timedelta_in_range _ Hs). cbn.
  rewrite (new_delta_in_range _ Hd). cbn.
  unfold td_abs, time_gap.
  destruct (Z.ltb_spec (micros (start s) - micros T) 0).
  - rewrite new_delta_in_range.
    + now rewrite Z.abs_neq by lia.
    + unfold in_range, timedelta_min, timedelta_max in *. lia.
  - now rewrite Z.abs_eq by lia.
Qed.

(** A difference of time stamps is a whole number of milliseconds, which
    [timedelta.max] is not: the initial [min_time_diff] is above every
    difference. *)
Lemma time_gap_below_max s :
  in_range (micros (start s) - micros T) -> time_gap T s < timedelta_max.
Proof.
  unfold time_gap, in_range, micros, timedelta_min, timedelta_max.
  intros [H1 H2]. apply Z.abs_lt. lia.
Qed.

Lemma closest_loop_scanned rest :
  forall seen closest_sub min_time_diff,
    scanned T W seen closest_sub min_time_diff ->
    Forall (fun s => in_range (micros (start s)) /\
                     in_range (micros (start s) - micros T)) rest ->
    exists r m,
      closest_loop (micros T) W rest closest_sub min_time_diff = Ok r /\
      scanned T W (seen ++ rest) r m.
Proof.
  induction rest as [|sub rest IH]; intros seen c m Hinv Hok.
  - exists c, m. rewrite app_nil_r. now split.
  - inversion Hok as [|? ? [Hs Hd] Hrest]; subst.
    cbn [closest_loop].
    pose proof (time_diff_computed sub Hs Hd) as Hdiff.
    unfold res_bind in Hdiff |- *.
    destruct (to_timedelta (start sub)) as [a|]; [|discriminate].
    destruct (td_sub a (micros T)) as [d|]; [|discriminate].
    rewrite Hdiff.
    pose proof (time_gap_below_max sub Hd) as Hmax.
    replace (seen ++ sub :: rest) with ((seen ++ [sub]) ++ rest)
      by now rewrite <- app_assoc.
    destruct (Z.leb_spec (time_gap T sub) W) as [Hle|Hgt];
      destruct (Z.ltb_spec (time_gap T sub) m) as [Hlt|Hge]; cbn [andb];
      apply IH; trivial.
    + (* a new strict minimum within tolerance *)
      split; [reflexivity|]. split; [assumption|].
      exists seen, []. split; [reflexivity|]. split; [|constructor].
      destruct c as [s|]; cbn in Hinv.
      * destruct Hinv as (-> & _ & before & after & -> & Hb & Ha).
        apply Forall_app. split.
        -- eapply Forall_impl; [|exact Hb]. cbn. intros; lia.
        -- constructor; [lia|]. eapply Forall_impl; [|exact Ha].
           cbn. intros; lia.
      * destruct Hinv as [_ Hall].
        eapply Forall_impl; [|exact Hall]. cbn. intros; lia.
    + (* within tolerance, but not below the minimum: a tie or worse *)
      destruct c as [s|]; cbn in Hinv |- *.
      * destruct Hinv as (-> & Hw & before & after & -> & Hb & Ha).
        split; [reflexivity|]. split; [assumption|].
        exists before, (after ++ [sub]).
        split; [now rewrite <- app_assoc|]. split; [assumption|].
        apply Forall_app. split; [assumption|]. constructor; [lia|constructor].
      * destruct Hinv as [-> _]. lia.
    + (* out of tolerance *)
      destruct c as [s|]; cbn in Hinv |- *.
      * destruct Hinv as (-> & Hw & before & after & -> & Hb & Ha).
        split; [reflexivity|]. split; [assumption|].
        exists before, (after ++ [sub]).
        split; [now rewrite <- app_assoc|]. split; [assumption|].
        apply Forall_app. split; [assumption|]. constructor; [lia|constructor].
      * destruct Hinv as [-> Hall]. split; [reflexivity|].
        apply Forall_app. split; [assumption|]. constructor; [lia|constructor].
    + destruct c as [s|]; cbn in Hinv |- *.
      * destruct Hinv as (-> & Hw & before & after & -> & Hb & Ha).
        split; [reflexivity|]. split; [assumption|].
        exists before, (after ++ [sub]).
        split; [now rewrite <- app_assoc|]. split; [assumption|].
        apply Forall_app. split; [assumption|]. constructor; [lia|constructor].
      * destruct Hinv as [-> Hall]. split; [reflexivity|].
        apply Forall_app. split; [assumption|]. constructor; [lia|constructor].
Qed.

End Closest.

(** C1.  On every target time stamp [T], tolerance [W] and sequence [subs]
    whose time differences are representable, [find_closest_sub] returns;
    it returns a record exactly when some record has [|start - T| <= W];
    the returned record is within tolerance, no record of the sequence is
    closer, and every record before it is strictly farther (the earliest of
    the closest records wins); it returns [None] when no record is within
    tolerance, in particular on the empty sequence. *)
Theorem find_closest_sub_spec (T : SubRipTime) (W : timedelta)
    (subs : list SubRipItem) :
  representable T subs ->
  exists r,
    find_closest_sub T subs W = Ok r /\
    ((exists s, r = Some s) <->
       Exists (fun s => (time_gap T s <= W)%Z) subs) /\
    (Forall (fun s => (W < time_gap T s)%Z) subs -> r = None) /\
    (subs = [] -> r = None) /\
    (forall s, r = Some s ->
       (time_gap T s <= W)%Z /\
       exists before after,
         subs = before ++ s :: after /\
         Forall (fun s' => (time_gap T s < time_gap T s')%Z) before /\
         Forall (fun s' => (time_gap T s <= time_gap T s')%Z) after).
Proof.
  intros [HT Hsubs].
  unfold find_closest_sub, to_timedelta.
  rewrite (mk_timedelta_in_range _ HT). cbn [res_bind].
  destruct (closest_loop_scanned T W subs [] None timedelta_max)
    as (r & m & Hrun & Hinv); [now split| assumption |].
  cbn [app] in Hinv.
  exists r. split; [exact Hrun|].
  assert (Hnone : Forall (fun s => (W < time_gap T s)%Z) subs -> r = None).
  { intros Hall. destruct r as [s|]; [|reflexivity].
    destruct Hinv as (_ & Hw & before & after & -> & _).
    apply Forall_app in Hall. destruct Hall as [_ Hall].
    inversion Hall; subst. lia. }
  split; [|split; [exact Hnone|split]].
  - split.
    + intros [s ->]. destruct Hinv as (_ & Hw & before & after & -> & _).
      apply Exists_app. right. now constructor.
    + intros Hex. destruct r as [s|]; [now exists s|].
      destruct Hinv as [_ Hall]. exfalso.
      apply Exists_exists in Hex. destruct Hex as (s & Hin & Hs).
      rewrite Forall_forall in Hall. specialize (Hall s Hin). lia.
  - intros ->. apply Hnone. constructor.
  - intros s ->. destruct Hinv as (_ & Hw & Hsplit). now split.
Qed.

(** Two records at the same distance from the target: the first one wins. *)
Example find_closest_sub_tie :
  find_closest_sub (t_ms 1000)
    [sub_at "far" 5000; sub_at "a" 800; sub_at "b" 1200] one_second
  = Ok (Some (sub_at "a" 800)).
Proof. reflexivity. Qed.

Lemma find_closest_sub_spec_witness :
  exists r,
    find_closest_sub (t_ms 1000)
      [sub_at "far" 5000; sub_at "a" 800; sub_at "b" 1200] one_second = Ok r /\
    r = Some (sub_at "a" 800).
Proof.
  destruct (find_closest_sub_spec (t_ms 1000) one_second
              [sub_at "far" 5000; sub_at "a" 800; sub_at "b" 1200])
    as (r & Hrun & _).
  - split; [vm_compute; split; discriminate|].
    repeat constructor; vm_compute; discriminate.
  - exists r. split; [exact Hrun|].
    vm_compute in Hrun. now inversion Hrun.
Defined.

(** C1 as stated fails outside the range of [timedelta]: a record lies
    within the tolerance, yet a later record whose time stamp is out of
    range makes the call raise instead of returning it; and on the empty
    sequence a target out of range makes the call raise instead of returning
    [None]. *)
Lemma closest_sub_lost_to_overflow :
  (time_gap (t_ms 0) (sub_at "near" 500) <= one_second)%Z /\
  find_closest_sub (t_ms 0) [sub_at "near" 500; far_sub] one_second
  = Raise (OverflowError
             (py "days=1000000000; must have magnitude <= 999999999")) /\
  find_closest_sub far_time [] one_second
  = Raise (OverflowError
             (py "days=1000000000; must have magnitude <= 999999999")).
Proof. split; [discriminate|split; reflexivity]. Qed.
(* ================================================================= *)
(** ** Properties of the string operations *)

Lemma startswith_app (p s : pystr) : startswith p (p ++ s) = true.
Proof.
  induction p as [|a p IH]; cbn; [reflexivity|].
  now rewrite N.eqb_refl.
Qed.

Lemma startswith_split (p s : pystr) :
  startswith p s = true -> exists r, s = p ++ r.
Proof.
  revert s. induction p as [|a p IH]; intros s H.
  - now exists s.
  - destruct s as [|b s]; [discriminate|]. cbn in H.
    apply andb_prop in H. destruct H as [Hab Hp].
    apply N.eqb_eq in Hab. subst b.
    destruct (IH _ Hp) as [r ->]. now exists r.
Qed.

Lemma contains_head (s p : pystr) :
  startswith p s = true -> contains s p = true.
Proof. intros H. destruct s; cbn; now rewrite H. Qed.

(** [p in s] holds exactly when [s] splits around an occurrence of [p]. *)
Lemma contains_iff (s p : pystr) :
  contains s p = true <-> exists l r, s = l ++ p ++ r.
Proof.
  split.
  - induction s as [|c s IH]; cbn; intros H.
    + rewrite orb_false_r in H. apply startswith_split in H.
      destruct H as [r ->]. now exists [], r.
    + apply orb_prop in H. destruct H as [H|H].
      * apply startswith_split in H. destruct H as [r ->]. now exists [], r.
      * destruct (IH H) as (l & r & ->). now exists (c :: l), r.
  - intros (l & r & ->). induction l as [|c l IH].
    + cbn [app]. apply contains_head, startswith_app.
    + cbn. rewrite IH. apply orb_true_r.
Qed.

Lemma contains_false_cons (c : N) (s p : pystr) :
  contains (c :: s) p = false ->
  startswith p (c :: s) = false /\ contains s p = false.
Proof. cbn. intros H. now apply orb_false_elim in H. Qed.

(* ----------------------------------------------------------------- *)
(** *** [str.replace] *)

Lemma replace_from_skip (old new p s : pystr) :
  replace_from old new (length p) (p ++ s) = replace_from old new 0 s.
Proof.
  induction p as [|c p IH]; cbn; [|exact IH].
  destruct s; reflexivity.
Qed.

(** An occurrence at the front is replaced, and the scan goes on behind it. *)
Lemma str_replace_occurrence (a : N) (old new s : pystr) :
  str_replace (a :: old) new ((a :: old) ++ s)
  = new ++ str_replace (a :: old) new s.
Proof.
  unfold str_replace. cbn [app replace_from].
  change (startswith (a :: old) (a :: old ++ s))
    with (startswith (a :: old) ((a :: old) ++ s)).
  rewrite startswith_app.
  replace (length (a :: old) - 1) with (length old) by (cbn; lia).
  now rewrite replace_from_skip.
Qed.

(** Where no occurrence starts, the character is kept. *)
Lemma str_replace_other (old new : pystr) (c : N) (s : pystr) :
  startswith old (c :: s) = false ->
  str_replace old new (c :: s) = c :: str_replace old new s.
Proof.
  intros H. destruct old as [|a old]; [discriminate|].
  unfold str_replace. cbn [replace_from]. now rewrite H.
Qed.

Lemma str_replace_absent (old new s : pystr) :
  contains s old = false -> str_replace old new s = s.
Proof.
  induction s as [|c s IH]; intros H.
  - destruct old; [discriminate|reflexivity].
  - apply contains_false_cons in H. destruct H as [H1 H2].
    rewrite str_replace_other by exact H1. now rewrite IH.
Qed.

(* ----------------------------------------------------------------- *)
(** *** [str.strip] *)

Lemma lstrip_split (s : pystr) : exists l, s = l ++ lstrip s.
Proof.
  induction s as [|c s [l IH]]; [now exists []|].
  cbn. destruct (isspace c).
  - exists (c :: l). cbn. now f_equal.
  - now exists [].
Qed.

Lemma lstrip_head (s : pystr) (c : N) (t : pystr) :
  lstrip s = c :: t -> isspace c = false.
Proof.
  induction s as [|a s IH]; cbn; [discriminate|].
  destruct (isspace a) eqn:E; [exact IH|].
  intros H. now inversion H; subst.
Qed.

Lemma strip_split (s : pystr) : exists l r, s = l ++ strip s ++ r.
Proof.
  unfold strip, rstrip.
  destruct (lstrip_split (rev s)) as [r Hr].
  destruct (lstrip_split (rev (lstrip (rev s)))) as [l Hl].
  exists l, (rev r).
  rewrite app_assoc, <- Hl, <- rev_app_distr, <- Hr. now rewrite rev_involutive.
Qed.

Lemma last_suffix (l : pystr) (x : N) (m : pystr) (d : N) :
  last (l ++ x :: m) d = last (x :: m) d.
Proof.
  induction l as [|a l IH]; [reflexivity|].
  cbn [app]. rewrite <- IH. cbn. destruct (l ++ x :: m) eqn:E; [|reflexivity].
  now destruct l.
Qed.

Lemma rstrip_last (s : pystr) (d : N) :
  rstrip s <> [] -> isspace (last (rstrip s) d) = false.
Proof.
  unfold rstrip. destruct (lstrip (rev s)) as [|c t] eqn:E; [easy|].
  intros _. cbn [rev]. rewrite last_last. exact (lstrip_head _ _ _ E).
Qed.

(** A stripped string neither starts nor ends with whitespace. *)
Lemma strip_outer_ws (s : pystr) : outer_ws (strip s) = false.
Proof.
  unfold outer_ws, strip. destruct (lstrip (rstrip s)) as [|c t] eqn:E;
    [reflexivity|].
  rewrite (lstrip_head _ _ _ E). cbn [orb].
  destruct (lstrip_split (rstrip s)) as [l Hl]. rewrite E in Hl.
  rewrite <- (last_suffix l c t c), <- Hl.
  apply rstrip_last. rewrite Hl. now destruct l.
Qed.

(* ----------------------------------------------------------------- *)
(** *** [re.sub(r"[ \n]+", " ", s)] *)

Lemma isspace_sp_nl (c : N) : is_sp_nl c = true -> isspace c = true.
Proof.
  unfold is_sp_nl, space, nl. intros H. apply orb_prop in H.
  destruct H as [H|H]; apply N.eqb_eq in H; subst; reflexivity.
Qed.

Lemma not_isspace_sp_nl (c : N) : isspace c = false -> is_sp_nl c = false.
Proof.
  intros H. destruct (is_sp_nl c) eqn:E; [|reflexivity].
  apply isspace_sp_nl in E. congruence.
Qed.

Lemma collapse_no_newline (b : bool) (s : pystr) :
  ~ In nl (collapse_from b s).
Proof.
  revert b. induction s as [|c s IH]; intros b; cbn; [tauto|].
  destruct (is_sp_nl c) eqn:E.
  - destruct b; cbn; [apply IH|].
    intros [H|H]; [discriminate|]. exact (IH _ H).
  - cbn. intros [H|H]; [|exact (IH _ H)]. subst c.
    discriminate.
Qed.

(** Inside a run nothing more is written for it. *)
Lemma collapse_in_run_head (s : pystr) (c : N) (t : pystr) :
  collapse_from true s = c :: t -> is_sp_nl c = false.
Proof.
  induction s as [|a s IH]; cbn; [discriminate|].
  destruct (is_sp_nl a) eqn:E; [exact IH|].
  intros H. now inversion H; subst.
Qed.

Lemma collapse_no_run (b : bool) (s : pystr) :
  has_ws_run (collapse_from b s) = false.
Proof.
  revert b. induction s as [|c s IH]; intros b; [reflexivity|].
  cbn [collapse_from]. destruct (is_sp_nl c) eqn:E.
  - destruct b; [apply IH|].
    cbn [has_ws_run]. destruct (collapse_from true s) as [|c2 t] eqn:E2;
      [reflexivity|].
    rewrite (collapse_in_run_head _ _ _ E2), andb_false_r. cbn [orb].
    rewrite <- E2. apply IH.
  - cbn [has_ws_run]. destruct (collapse_from false s) as [|c2 t] eqn:E2;
      [reflexivity|].
    rewrite E. cbn [andb orb]. rewrite <- E2. apply IH.
Qed.

Lemma collapse_last (b : bool) (s : pystr) (c : N) :
  is_sp_nl c = false ->
  collapse_from b (s ++ [c]) = collapse_from b s ++ [c].
Proof.
  intros Hc. revert b. induction s as [|a s IH]; intros b; cbn.
  - now rewrite Hc.
  - destruct (is_sp_nl a); [destruct b|]; cbn; now rewrite IH.
Qed.

(** Collapsing keeps a string free of outer whitespace. *)
Lemma collapse_outer_ws (s : pystr) :
  outer_ws s = false -> outer_ws (re_sub_ws s) = false.
Proof.
  unfold re_sub_ws. destruct s as [|c t]; [reflexivity|].
  cbn [outer_ws]. intros H. apply orb_false_elim in H. destruct H as [Hc Hl].
  destruct (@exists_last _ (c :: t)) as (l & z & Hz); [discriminate|].
  rewrite Hz in Hl |- *. rewrite last_last in Hl.
  rewrite collapse_last by now apply not_isspace_sp_nl.
  destruct l as [|c' l]; cbn [app] in Hz; injection Hz as Hhd Htl.
  - subst z t. cbn. now rewrite Hc.
  - subst c' t. cbn [collapse_from]. rewrite (not_isspace_sp_nl _ Hc).
    cbn [app outer_ws]. rewrite Hc. cbn [orb].
    change (c :: collapse_from false l ++ [z])
      with ((c :: collapse_from false l) ++ [z]).
    now rewrite last_last.
Qed.

(** A pattern without spaces and newlines that occurs after collapsing
    occurred before. *)
Lemma startswith_collapse (p s : pystr) :
  forallb (fun c => negb (is_sp_nl c)) p = true ->
  startswith p (collapse_from false s) = true -> startswith p s = true.
Proof.
  revert s. induction p as [|a p IH]; intros s Hp H; [reflexivity|].
  cbn in Hp. apply andb_prop in Hp. destruct Hp as [Ha Hp].
  destruct s as [|c s]; [discriminate|].
  cbn [collapse_from] in H. destruct (is_sp_nl c) eqn:E.
  - cbn in H. apply andb_prop in H. destruct H as [H _].
    apply N.eqb_eq in H. subst a. unfold is_sp_nl, space in Ha.
    rewrite N.eqb_refl in Ha. discriminate.
  - cbn in H |- *. apply andb_prop in H. destruct H as [H1 H2].
    rewrite H1. cbn. now apply IH.
Qed.

Lemma contains_collapse (a : N) (p s : pystr) (b : bool) :
  forallb (fun c => negb (is_sp_nl c)) (a :: p) = true ->
  contains (collapse_from b s) (a :: p) = true ->
  contains s (a :: p) = true.
Proof.
  intros Hp. revert b. induction s as [|c s IH]; intros b H; [exact H|].
  cbn [collapse_from] in H. cbn [contains].
  destruct (is_sp_nl c) eqn:E.
  - assert (Hs : contains (collapse_from true s) (a :: p) = true).
    { destruct b; [exact H|]. cbn [contains] in H.
      apply orb_prop in H. destruct H as [H|H]; [|exact H].
      cbn in H. apply andb_prop in H. destruct H as [H _].
      apply N.eqb_eq in H. subst a. cbn in Hp. discriminate. }
    rewrite (IH _ Hs). apply orb_true_r.
  - cbn [contains] in H. apply orb_prop in H. destruct H as [H|H].
    + assert (Hc : collapse_from false (c :: s) = c :: collapse_from false s)
        by (cbn; now rewrite E).
      rewrite <- Hc in H. now rewrite (startswith_collapse _ _ Hp H).
    + rewrite (IH _ H). apply orb_true_r.
Qed.

Lemma contains_strip (s p : pystr) :
  contains (strip s) p = true -> contains s p = true.
Proof.
  intros H. apply contains_iff in H. destruct H as (l & r & H).
  destruct (strip_split s) as (l' & r' & Hs).
  apply contains_iff. exists (l' ++ l), (r ++ r').
  rewrite Hs, H. now rewrite <- !app_assoc.
Qed.

(** Text without italic tags has none after trimming and collapsing. *)
Lemma no_tag_collapse_strip (raw : pystr) :
  has_italic_tag raw = false ->
  has_italic_tag (re_sub_ws (strip raw)) = false.
Proof.
  unfold has_italic_tag, re_sub_ws. intros H.
  apply orb_false_elim in H. destruct H as [H1 H2].
  apply orb_false_intro.
  - destruct (contains (collapse_from false (strip raw)) (py "<i>")) eqn:E;
      [|reflexivity].
    apply contains_collapse in E; [|reflexivity].
    apply contains_strip in E. discriminate (eq_trans (eq_sym E) H1).
  - destruct (contains (collapse_from false (strip raw)) (py "</i>")) eqn:E;
      [|reflexivity].
    apply contains_collapse in E; [|reflexivity].
    apply contains_strip in E. discriminate (eq_trans (eq_sym E) H2).
Qed.

Lemma replace_from_chars (old new : pystr) (c : N) (s : pystr) (k : nat) :
  In c (replace_from old new k s) -> In c new \/ In c s.
Proof.
  revert k. induction s as [|a s IH]; intros k; cbn; [tauto|].
  destruct k as [|k].
  - destruct (startswith old (a :: s)).
    + intros H. apply in_app_or in H. destruct H as [H|H]; [now left|].
      destruct (IH _ H); tauto.
    + cbn. intros [H|H]; [tauto|]. destruct (IH _ H); tauto.
  - intros H. destruct (IH _ H); tauto.
Qed.

Lemma str_replace_chars (a : N) (old new : pystr) (c : N) (s : pystr) :
  In c (str_replace (a :: old) new s) -> In c new \/ In c s.
Proof. apply replace_from_chars. Qed.

Lemma normalize_no_newline (raw : pystr) : ~ In nl (normalize raw).
Proof.
  unfold normalize. intros H.
  apply str_replace_chars in H. destruct H as [[]|H].
  apply str_replace_chars in H. destruct H as [[]|H].
  exact (collapse_no_newline _ _ H).
Qed.

Lemma normalize_no_tag (raw : pystr) :
  has_italic_tag raw = false -> normalize raw = re_sub_ws (strip raw).
Proof.
  intros H. apply no_tag_collapse_strip in H.
  unfold has_italic_tag in H. apply orb_false_elim in H.
  destruct H as [H1 H2]. unfold normalize.
  rewrite (@str_replace_absent _ [] _ H1).
  now rewrite (@str_replace_absent _ [] _ H2).
Qed.

(** C4 (as amended).  The normalizer trims the text, then collapses every
    run of spaces and newlines of the trimmed text into one space, then
    deletes the occurrences of [<i>] and after that those of [</i>].  The
    collapsed text has no run left, no newline and no outer whitespace, and
    the output never holds a newline.  When the text holds neither tag, the
    output is the collapsed text: no run of spaces, no tag, no leading or
    trailing whitespace.  ["Hello<i>\n  world</i>  "] gives exactly
    ["Hello world"]. *)
Theorem normalize_spec :
  (forall raw : pystr,
     let collapsed := re_sub_ws (strip raw) in
     normalize raw
     = str_replace (py "</i>") [] (str_replace (py "<i>") [] collapsed) /\
     has_ws_run collapsed = false /\
     ~ In nl collapsed /\
     outer_ws collapsed = false /\
     ~ In nl (normalize raw)) /\
  (forall raw : pystr,
     has_italic_tag raw = false ->
     normalize raw = re_sub_ws (strip raw) /\
     has_ws_run (normalize raw) = false /\
     has_italic_tag (normalize raw) = false /\
     outer_ws (normalize raw) = false) /\
  normalize hello_raw = py "Hello world".
Proof.
  split; [|split].
  - intros raw collapsed. subst collapsed. split; [reflexivity|].
    split; [apply collapse_no_run|]. split; [apply collapse_no_newline|].
    split; [apply collapse_outer_ws, strip_outer_ws|].
    apply normalize_no_newline.
  - intros raw H. rewrite (normalize_no_tag _ H).
    split; [reflexivity|]. split; [apply collapse_no_run|].
    split; [now apply no_tag_collapse_strip|].
    apply collapse_outer_ws, strip_outer_ws.
  - reflexivity.
Qed.

Lemma normalize_spec_witness :
  has_italic_tag spaced_raw = false /\
  normalize spaced_raw = py "so long now" /\
  has_ws_run (normalize spaced_raw) = false.
Proof.
  destruct normalize_spec as (_ & Hclean & _).
  destruct (Hclean spaced_raw) as (Heq & Hrun & _); [reflexivity|].
  split; [reflexivity|]. split; [rewrite Heq; reflexivity|exact Hrun].
Defined.

(** C4 as stated fails: on ["<i> a <i> <<i>i> b"] the output is
    [" a  <i> b"], which keeps a run of two spaces, holds the tag [<i>]
    and starts with a space. *)
Lemma normalize_leaves_run_tag_and_space :
  normalize tagged_raw = py " a  <i> b" /\
  has_ws_run (normalize tagged_raw) = true /\
  contains (normalize tagged_raw) (py "<i>") = true /\
  outer_ws (normalize tagged_raw) = true.
Proof. repeat split; reflexivity. Qed.
(* ================================================================= *)
(** ** The name and the path of the sibling file *)

Section ThreeLetterToken.

(** A token [a b c] replaced by [a x y], where the first letter differs from
    the second letters and from the letters of the replacement, and the
    second letters differ: such are
    [_en] and [_ru]. *)
Variables a b c x y : N.
Hypothesis a_b : (a =? b)%N = false.
Hypothesis a_x : (a =? x)%N = false.
Hypothesis a_y : (a =? y)%N = false.
Hypothesis b_x : (b =? x)%N = false.

Lemma replace_keeps_head (c0 : N) (s : pystr) :
  exists t, replace_from [a; b; c] [a; x; y] 0 (c0 :: s) = c0 :: t.
Proof.
  cbn [replace_from].
  destruct (startswith [a; b; c] (c0 :: s)) eqn:P.
  - cbn in P. apply andb_prop in P. destruct P as [P _].
    apply N.eqb_eq in P. subst c0. cbn. eauto.
  - eauto.
Qed.

Lemma token_gone (s : pystr) :
  forall k, contains (replace_from [a; b; c] [a; x; y] k s) [a; b; c] = false.
Proof.
  induction s as [|c0 s IH]; intros k; [reflexivity|].
  cbn [replace_from]. destruct k as [|k]; [|apply IH].
  destruct (startswith [a; b; c] (c0 :: s)) eqn:P.
  - cbn [app contains startswith].
    rewrite b_x, a_x, a_y, andb_false_r. cbn [andb orb].
    fold (contains (replace_from [a; b; c] [a; x; y] (length [a; b; c] - 1) s)
            [a; b; c]).
    apply IH.
  - cbn [contains]. rewrite IH, orb_false_r.
    cbn [startswith]. destruct (N.eqb_spec a c0) as [<-|]; [|reflexivity].
    cbn [andb]. destruct s as [|c1 s]; [reflexivity|].
    destruct (N.eqb_spec b c1) as [<-|Hb].
    + cbn [replace_from startswith]. rewrite a_b. cbn [andb].
      rewrite N.eqb_refl. cbn [andb].
      destruct s as [|c2 s]; [reflexivity|].
      destruct (replace_keeps_head c2 s) as [t ->].
      cbn [startswith]. rewrite andb_true_r.
      destruct (N.eqb_spec c c2) as [<-|]; [|reflexivity].
      cbn in P. rewrite !N.eqb_refl in P. discriminate.
    + destruct (replace_keeps_head c1 s) as [t ->].
      cbn [startswith]. apply N.eqb_neq in Hb. now rewrite Hb.
Qed.

End ThreeLetterToken.

(** The relation [every_occurrence] holds of [str.replace] and of nothing
    else. *)
Lemma every_occurrence_replace (a : N) (old new s s' : pystr) :
  every_occurrence (a :: old) new s s' ->
  s' = str_replace (a :: old) new s.
Proof.
  induction 1 as [|rest rest' _ IH|c rest rest' Hc _ IH].
  - reflexivity.
  - now rewrite str_replace_occurrence, IH.
  - now rewrite (str_replace_other _ _ _ _ Hc), IH.
Qed.

Lemma replace_every_occurrence (a : N) (old new : pystr) (s : pystr) :
  every_occurrence (a :: old) new s (str_replace (a :: old) new s).
Proof.
  remember (length s) as n eqn:Hn. revert s Hn.
  induction n as [n IH] using lt_wf_ind. intros s Hn.
  destruct s as [|c s]; [constructor|].
  destruct (startswith (a :: old) (c :: s)) eqn:Hc.
  - destruct (startswith_split _ _ Hc) as [rest Hrest]. rewrite Hrest.
    rewrite str_replace_occurrence. constructor.
    apply (IH (length rest)); [|reflexivity].
    subst n. rewrite Hrest, length_app. cbn. lia.
  - rewrite (str_replace_other _ _ _ _ Hc). constructor; [exact Hc|].
    apply (IH (length s)); [|reflexivity]. subst n. cbn. lia.
Qed.

(* ----------------------------------------------------------------- *)
(** *** [os.path] *)

Lemma split_slashless (n : pystr) :
  ~ In slash n -> split_last_slash n = ([], n).
Proof.
  induction n as [|c n IH]; intros H; [reflexivity|].
  cbn [split_last_slash]. rewrite IH by (intros ?; apply H; now right).
  destruct (N.eqb_spec c slash) as [->|]; [|reflexivity].
  exfalso. apply H. now left.
Qed.

Lemma split_after_slash (h n : pystr) :
  ~ In slash n ->
  split_last_slash ((h ++ [slash]) ++ n) = (h ++ [slash], n).
Proof.
  intros Hn. induction h as [|c h IH].
  - cbn [app split_last_slash]. rewrite (split_slashless _ Hn).
    now rewrite N.eqb_refl.
  - cbn [app split_last_slash]. cbn [app] in IH. rewrite IH.
    destruct (h ++ [slash]) eqn:E; [now destruct h|].
    now destruct (c =? slash)%N.
Qed.

Lemma split_last_slash_spec (p : pystr) :
  p = fst (split_last_slash p) ++ snd (split_last_slash p) /\
  ~ In slash (snd (split_last_slash p)) /\
  (fst (split_last_slash p) = [] \/
   exists h, fst (split_last_slash p) = h ++ [slash]).
Proof.
  induction p as [|c p IH]; [cbn; tauto|].
  cbn [split_last_slash]. destruct (split_last_slash p) as [head tail].
  cbn [fst snd] in IH. destruct IH as (Hp & Htail & Hhead).
  destruct (N.eqb_spec c slash) as [->|Hc]; destruct head as [|a head];
    cbn [fst snd].
  - cbn [app] in Hp. subst tail. split; [reflexivity|]. split; [assumption|].
    right. now exists [].
  - split; [cbn; now f_equal|]. split; [assumption|]. right.
    destruct Hhead as [|[h Hh]]; [discriminate|].
    exists (slash :: h). cbn. now f_equal.
  - cbn [app] in Hp. subst tail. split; [reflexivity|].
    split; [|now left]. intros [H|H]; [congruence|tauto].
  - split; [cbn; now f_equal|]. split; [assumption|]. right.
    destruct Hhead as [|[h Hh]]; [discriminate|].
    exists (c :: h). cbn. now f_equal.
Qed.

Lemma basename_slashless (p : pystr) : ~ In slash (basename p).
Proof. apply split_last_slash_spec. Qed.

Lemma drop_slashes_head (l : pystr) (c : N) (t : pystr) :
  drop_slashes l = c :: t -> c <> slash.
Proof.
  induction l as [|a l IH]; cbn; [discriminate|].
  destruct (N.eqb_spec a slash) as [->|Ha]; [exact IH|].
  intros H. now inversion H; subst.
Qed.

Lemma drop_slashes_nil (l : pystr) :
  drop_slashes l = [] -> forallb (N.eqb slash) l = true.
Proof.
  induction l as [|a l IH]; cbn; [reflexivity|].
  destruct (N.eqb_spec a slash) as [->|Ha]; [|discriminate].
  intros H. now rewrite IH.
Qed.

Lemma forallb_rev (f : N -> bool) (l : pystr) :
  forallb f (rev l) = forallb f l.
Proof.
  induction l as [|a l IH]; [reflexivity|].
  cbn. rewrite forallb_app, IH. cbn. rewrite andb_true_r. apply andb_comm.
Qed.

Lemma dirname_tidy (p : pystr) : tidy_dir (dirname p).
Proof.
  unfold dirname, tidy_dir.
  destruct (forallb (N.eqb slash) (fst (split_last_slash p))) eqn:E;
    [now left|].
  right. destruct (drop_slashes (rev (fst (split_last_slash p)))) as [|c t] eqn:D.
  - apply drop_slashes_nil in D. rewrite forallb_rev in D. congruence.
  - exists (rev t), c. split; [reflexivity|]. exact (drop_slashes_head _ _ _ D).
Qed.

(** Joining a directory name with a name that holds no slash gives a path
    whose directory and base name are the two. *)
Lemma dirname_basename_join (d n : pystr) :
  tidy_dir d -> ~ In slash n ->
  dirname (path_join d n) = d /\ basename (path_join d n) = n.
Proof.
  intros Hd Hn. unfold path_join.
  assert (Hstart : startswith [slash] n = false).
  { destruct n as [|c n]; [reflexivity|]. cbn [startswith].
    destruct (N.eqb_spec slash c) as [<-|]; [|reflexivity].
    exfalso. apply Hn. now left. }
  rewrite Hstart. destruct d as [|c0 d0] eqn:Ed.
  - unfold dirname, basename. now rewrite (split_slashless _ Hn).
  - rewrite <- Ed in *. assert (Hne : d <> []) by (rewrite Ed; discriminate).
    clear Ed c0 d0. destruct Hd as [Hall|(d' & c & -> & Hc)].
    + destruct (exists_last Hne) as (h & z & ->).
      rewrite forallb_app in Hall. apply andb_prop in Hall.
      destruct Hall as [Hh Hz]. cbn [forallb] in Hz. rewrite andb_true_r in Hz.
      apply N.eqb_eq in Hz. subst z.
      unfold endswith. rewrite rev_app_distr. cbn [rev app startswith].
      rewrite N.eqb_refl. cbn [andb].
      unfold dirname, basename. rewrite (split_after_slash _ _ Hn).
      cbn [fst snd]. rewrite forallb_app, Hh. cbn [forallb andb].
      now rewrite N.eqb_refl.
    + unfold endswith. rewrite rev_app_distr. cbn [rev app startswith].
      assert (Hsc : (slash =? c)%N = false) by (apply N.eqb_neq; congruence).
      rewrite Hsc. cbn [andb].
      change (slash :: n) with ([slash] ++ n).
      unfold dirname, basename. rewrite app_assoc.
      rewrite (split_after_slash _ _ Hn). cbn [fst snd].
      rewrite !forallb_app. cbn [forallb]. rewrite Hsc.
      cbn [andb]. rewrite andb_false_r. cbn [andb].
      rewrite !rev_app_distr. cbn [rev app drop_slashes].
      rewrite N.eqb_refl.
      assert (Hcs : (c =? slash)%N = false) by now apply N.eqb_neq.
      rewrite Hcs. cbn [rev]. now rewrite rev_involutive.
Qed.

(** C7.  The resolver looks for the sibling at the path made of the
    directory of the primary path and of its base name with [_{from}]
    replaced by [_{to}]; when the suffix holds no slash this path lies in
    the directory of the primary file and has the replaced name as its base
    name.  When no file exists at that path the resolver returns its four
    [None]s, raises nothing and touches nothing; when one exists, it is the
    one file the resolver opens. *)
Theorem find_translation_sibling_file (fs : FileSystem)
    (directory : pystr) (start_time : SubRipTime)
    (file_path from to : pystr) (tolerance : timedelta) (w : World) :
  let other :=
    path_join (dirname file_path)
      (str_replace (py "_" ++ from) (py "_" ++ to) (basename file_path)) in
  (~ In slash to ->
   dirname other = dirname file_path /\
   basename other
   = str_replace (py "_" ++ from) (py "_" ++ to) (basename file_path)) /\
  (os_path_exists fs other = false ->
   find_translation_in_other_lang fs directory start_time file_path
     from to tolerance w
   = (Ok (None, None, None, None), w)) /\
  (os_path_exists fs other = true ->
   opened (snd (find_translation_in_other_lang fs directory start_time
                  file_path from to tolerance w))
   = opened w ++ [other]).
Proof.
  intros other. split; [|split].
  - intros Hto. apply dirname_basename_join; [apply dirname_tidy|].
    intros H. apply str_replace_chars in H. destruct H as [[H|H]|H].
    + discriminate.
    + contradiction.
    + exact (basename_slashless _ H).
  - intros H. unfold find_translation_in_other_lang. fold other.
    now rewrite H.
  - intros H. unfold find_translation_in_other_lang. fold other.
    rewrite H. unfold bind, srt_open, lift_res.
    destruct (pysrt_open fs other) as [subs|e]; [|reflexivity].
    destruct (find_closest_sub start_time subs tolerance) as [[c|]|e];
      reflexivity.
Qed.

Lemma find_translation_sibling_file_witness :
  os_path_exists fs_lonely (py "./movie_ru.srt") = false /\
  find_translation_in_other_lang fs_lonely (py ".") (t_ms 1000)
    (py "./movie_en.srt") (py "en") (py "ru") one_second (world_of healthy)
  = (Ok (None, None, None, None), world_of healthy).
Proof.
  destruct (find_translation_sibling_file fs_lonely (py ".") (t_ms 1000)
              (py "./movie_en.srt") (py "en") (py "ru") one_second
              (world_of healthy)) as (_ & Hmissing & _).
  split; [reflexivity|]. apply Hmissing. reflexivity.
Defined.

(** C10.  The name the resolver derives for the sibling is the base name of
    the primary path with every occurrence of the token [_{from}] replaced
    by [_{to}], from the left, not only the last one before the extension:
    there is exactly one such name, the resolver returns its four [None]s
    when no file exists under it in the directory of the primary file, and
    opens the file under it, and no other, when one exists.  For the two
    suffix pairs of the program no occurrence of the primary token is left
    in the name. *)
Theorem resolver_replaces_every_occurrence (fs : FileSystem)
    (directory : pystr) (start_time : SubRipTime)
    (file_path from to : pystr) (tolerance : timedelta) (w : World) :
  exists name',
    every_occurrence (py "_" ++ from) (py "_" ++ to) (basename file_path)
      name' /\
    (forall name'',
       every_occurrence (py "_" ++ from) (py "_" ++ to) (basename file_path)
         name'' -> name'' = name') /\
    (os_path_exists fs (path_join (dirname file_path) name') = false ->
     find_translation_in_other_lang fs directory start_time file_path
       from to tolerance w
     = (Ok (None, None, None, None), w)) /\
    (os_path_exists fs (path_join (dirname file_path) name') = true ->
     opened (snd (find_translation_in_other_lang fs directory start_time
                    file_path from to tolerance w))
     = opened w ++ [path_join (dirname file_path) name']) /\
    (from = py "en" -> to = py "ru" -> contains name' (py "_en") = false) /\
    (from = py "ru" -> to = py "en" -> contains name' (py "_ru") = false).
Proof.
  exists (str_replace (py "_" ++ from) (py "_" ++ to) (basename file_path)).
  split; [apply (replace_every_occurrence 95%N from)|].
  split; [intros name'' H; exact (every_occurrence_replace 95%N from _ _ _ H)|].
  split; [|split; [|split]].
  - intros H. unfold find_translation_in_other_lang. now rewrite H.
  - intros H. unfold find_translation_in_other_lang. rewrite H.
    unfold bind, srt_open, lift_res.
    destruct (pysrt_open fs _) as [subs|e]; [|reflexivity].
    destruct (find_closest_sub start_time subs tolerance) as [[c|]|e];
      reflexivity.
  - intros -> ->.
    exact (@token_gone 95 101 110 114 117 eq_refl eq_refl eq_refl
             eq_refl (basename file_path) 0)%N.
  - intros -> ->.
    exact (@token_gone 95 114 117 101 110 eq_refl eq_refl eq_refl
             eq_refl (basename file_path) 0)%N.
Qed.

Lemma resolver_replaces_every_occurrence_witness :
  every_occurrence (py "_en") (py "_ru") (py "dialog_enhanced_en.srt")
    (py "dialog_ruhanced_ru.srt") /\
  opened (snd (find_translation_in_other_lang fs_dialog (py ".")
                 (t_ms 1000) (py "./dialog_enhanced_en.srt") (py "en")
                 (py "ru") one_second (world_of healthy)))
  = [py "./dialog_ruhanced_ru.srt"].
Proof.
  destruct (resolver_replaces_every_occurrence fs_dialog (py ".")
              (t_ms 1000) (py "./dialog_enhanced_en.srt") (py "en")
              (py "ru") one_second (world_of healthy))
    as (name' & Hname & Honly & _ & Hopen & _).
  assert (H : every_occurrence (py "_en") (py "_ru")
                (py "dialog_enhanced_en.srt") (py "dialog_ruhanced_ru.srt")).
  { repeat first
      [ apply occurrence_none
      | apply (occurrence_here (py "_en") (py "_ru"))
      | apply occurrence_kept; [reflexivity|] ]. }
  split; [exact H|].
  rewrite <- (Honly _ H) in Hopen. apply Hopen. reflexivity.
Defined.
(* ================================================================= *)
(** ** Loops, handlers and the steps of the search *)

Lemma bind_ok {S A B} (m : M S A) (k : A -> M S B) (s : S) (a : A) (s' : S) :
  m s = (Ok a, s') -> bind m k s = k a s'.
Proof. intros H. unfold bind. now rewrite H. Qed.

Lemma for_app {S X R} (xs ys : list X) (body : X -> M S (option R)) (s : S) :
  for_ (xs ++ ys) body s
  = match for_ xs body s with
    | (Ok None, s') => for_ ys body s'
    | out => out
    end.
Proof.
  revert s. induction xs as [|x xs IH]; intros s; [reflexivity|].
  cbn [app for_]. unfold bind.
  destruct (body x s) as [[[v|]|e] s']; [reflexivity| |reflexivity].
  apply IH.
Qed.


(** A loop whose body goes on without effect has no effect. *)
Lemma for_skip {S X R} (xs : list X) (body : X -> M S (option R)) (s : S) :
  (forall x, In x xs -> body x s = (Ok None, s)) ->
  for_ xs body s = (Ok None, s).
Proof.
  induction xs as [|x xs IH]; intros H; [reflexivity|].
  cbn [for_]. unfold bind. rewrite (H x) by now left.
  apply IH. intros y Hy. apply H. now right.
Qed.

(** The rule of the loop for a property [P] of the states in which the loop
    goes on (or raises) and a property [Q] of those in which it returns. *)
Lemma for_rule {S X R} (P Q : S -> Prop) (body : X -> M S (option R)) :
  (forall x s, P s ->
     match body x s with
     | (Ok (Some _), s') => Q s'
     | (_, s') => P s'
     end) ->
  forall xs s, P s ->
    match for_ xs body s with
    | (Ok (Some _), s') => Q s'
    | (_, s') => P s'
    end.
Proof.
  intros Hbody. induction xs as [|x xs IH]; intros s Hs; [exact Hs|].
  cbn [for_]. unfold bind. specialize (Hbody x s Hs).
  destruct (body x s) as [[[v|]|e] s']; cbn; trivial.
  now apply IH.
Qed.

(** A loop raises only if its body does. *)
Lemma for_no_raise {S X R} (body : X -> M S (option R)) :
  (forall x s e s', body x s <> (Raise e, s')) ->
  forall xs s e s', for_ xs body s <> (Raise e, s').
Proof.
  intros Hbody. induction xs as [|x xs IH]; intros s e s'; [discriminate|].
  cbn [for_]. unfold bind.
  destruct (body x s) as [[[v|]|e0] s0] eqn:E.
  - discriminate.
  - apply IH.
  - exfalso. exact (Hbody _ _ _ _ E).
Qed.

Section Engine.

Variable fs : FileSystem.
Variable lower : pystr -> pystr.
Variables directory search_string lang_suffix other_lang_suffix : pystr.

Local Abbreviation resolve start_time file_path :=
  (find_translation_in_other_lang fs directory start_time file_path
     lang_suffix other_lang_suffix one_second).
Local Abbreviation frame_of file_path sub tr :=
  (format_single_result
     (build_result lang_suffix other_lang_suffix file_path sub tr)).
Local Abbreviation emit := (emit_match fs directory lang_suffix other_lang_suffix).
Local Abbreviation subs_loop :=
  (scan_subs fs lower directory search_string lang_suffix other_lang_suffix).
Local Abbreviation file_step :=
  (scan_file fs lower directory search_string lang_suffix other_lang_suffix).
Local Abbreviation files_loop :=
  (scan_files fs lower directory search_string lang_suffix other_lang_suffix).
Local Abbreviation walk_loop :=
  (scan_walk fs lower directory search_string lang_suffix other_lang_suffix).

(** The body of a match, step by step: the counters are updated first; the
    lookup and the write may raise; the limit is tested after the write. *)
Lemma emit_match_steps (file_path : pystr) (sub : SubRipItem) (st : Search) :
  emit file_path sub st
  = match resolve (start sub) file_path (world st) with
    | (Raise e, w1) => (Raise e, with_world (counted st) w1)
    | (Ok tr, w1) =>
        match sendall (frame_of file_path sub tr) w1 with
        | (Raise e, w2) => (Raise e, with_world (counted st) w2)
        | (Ok _, w2) =>
            (Ok (if SEARCH_LIMIT <=? count st + 1 then Some true else None),
             with_world (counted st) w2)
        end
    end.
Proof.
  unfold emit_match, bind, modify, in_world, get_state, ret. cbn [world count].
  destruct (resolve (start sub) file_path (world st)) as [[tr|e] w1];
    [|reflexivity].
  cbn [world found_matches count].
  destruct (sendall (frame_of file_path sub tr) w1) as [[[]|e] w2];
    [|reflexivity].
  cbn [count]. now destruct (SEARCH_LIMIT <=? count st + 1).
Qed.

(** The lookup leaves the connection and the printed lines alone. *)
Lemma resolve_conn (start_time : SubRipTime) (file_path : pystr)
    (tolerance : timedelta) (w : World) :
  conn (snd (find_translation_in_other_lang fs directory start_time file_path
               lang_suffix other_lang_suffix tolerance w)) = conn w /\
  stdout (snd (find_translation_in_other_lang fs directory start_time
                 file_path lang_suffix other_lang_suffix tolerance w))
  = stdout w.
Proof.
  unfold find_translation_in_other_lang.
  destruct (os_path_exists fs _); [|now split].
  unfold bind, srt_open, lift_res.
  destruct (pysrt_open fs _) as [subs|e]; [|now split].
  destruct (find_closest_sub start_time subs tolerance) as [[c|]|e];
    now split.
Qed.

(** A write either appends its payload or leaves what was sent as it is. *)
Lemma sendall_sent (data : pystr) (w : World) :
  match sendall data w with
  | (Ok _, w') => sent (conn w') = sent (conn w) ++ [data]
  | (Raise _, w') => sent (conn w') = sent (conn w)
  end /\
  stdout (snd (sendall data w)) = stdout w /\
  opened (snd (sendall data w)) = opened w.
Proof.
  unfold sendall. destruct (closed (conn w)); [now split|].
  destruct (faults (conn w)) as [|[e|] rest]; now split.
Qed.

Lemma sendall_accepted (data : pystr) (w : World) :
  accepts (conn w) = true ->
  exists w', sendall data w = (Ok tt, w') /\
             sent (conn w') = sent (conn w) ++ [data] /\
             stdout w' = stdout w /\ opened w' = opened w.
Proof.
  unfold accepts, sendall. destruct (closed (conn w)); [discriminate|].
  destruct (faults (conn w)) as [|[e|] rest]; [|discriminate|];
    intros _; eexists; split; try reflexivity; now split.
Qed.

Lemma sendall_sound (data : pystr) (w : World) :
  sound (conn w) ->
  exists w', sendall data w = (Ok tt, w') /\ sound (conn w') /\
             sent (conn w') = sent (conn w) ++ [data].
Proof.
  unfold sound, sendall. intros [Hc Hf]. rewrite Hc, Hf.
  eexists. split; [reflexivity|]. now split.
Qed.

(** The step of a primary-language file: the file is opened; a failure to
    load it, or an exception of the scan of its records, is printed by the
    handler and the walk goes on. *)
Lemma scan_file_steps (root file : pystr) (st : Search) :
  endswith file (py "_" ++ lang_suffix ++ py ".srt") = true ->
  let file_path := path_join root file in
  file_step root file st
  = match pysrt_open fs file_path with
    | Raise e => (Ok None, logged st file_path e)
    | Ok subs =>
        match subs_loop file_path subs
                (with_world st (having_opened (world st) file_path)) with
        | (Raise e, st') =>
            (Ok None,
             with_world st' (printed (world st') (error_line file_path e)))
        | out => out
        end
    end.
Proof.
  intros Hend file_path. unfold scan_file. rewrite Hend. fold file_path.
  unfold try_except, bind at 1, in_world at 1, srt_open.
  unfold logged, with_world, having_opened, printed.
  destruct (pysrt_open fs file_path) as [subs|e]; [|reflexivity].
  match goal with
  | |- context [scan_subs _ _ _ _ _ _ ?p ?s ?st0] =>
      destruct (scan_subs fs lower directory search_string lang_suffix
                  other_lang_suffix p s st0) as [[r|e] st']
  end; reflexivity.
Qed.

Lemma scan_file_other (root file : pystr) (st : Search) :
  endswith file (py "_" ++ lang_suffix ++ py ".srt") = false ->
  file_step root file st = (Ok None, st).
Proof. intros H. unfold scan_file. now rewrite H. Qed.

(** The search never raises: what its loops raise, the handler of the file
    catches. *)
Lemma scan_file_no_raise (root file : pystr) (st : Search) (e : exn)
    (st' : Search) :
  file_step root file st <> (Raise e, st').
Proof.
  destruct (endswith file (py "_" ++ lang_suffix ++ py ".srt")) eqn:Hend.
  - rewrite (scan_file_steps _ _ _ Hend).
    destruct (pysrt_open fs _) as [subs|e0]; [|discriminate].
    destruct (subs_loop _ subs _) as [[r|e0] st0]; discriminate.
  - now rewrite scan_file_other.
Qed.

Lemma scan_files_no_raise (root : pystr) (files : list pystr) (st : Search)
    (e : exn) (st' : Search) :
  files_loop root files st <> (Raise e, st').
Proof. apply for_no_raise. intros. apply scan_file_no_raise. Qed.

Lemma scan_walk_no_raise (walk : list (pystr * list pystr * list pystr))
    (st : Search) (e : exn) (st' : Search) :
  walk_loop walk st <> (Raise e, st').
Proof.
  apply for_no_raise. intros [[root dirs] files] s e0 s0.
  apply scan_files_no_raise.
Qed.

Lemma scan_walk_single (root : pystr) (dirs files : list pystr)
    (st : Search) :
  walk_loop [(root, dirs, files)] st = files_loop root files st.
Proof.
  unfold scan_walk. cbn [for_]. unfold bind, ret.
  destruct (files_loop root files st) as [[[v|]|e] st']; reflexivity.
Qed.

Lemma scan_walk_cons (root : pystr) (dirs files : list pystr)
    (post : list (pystr * list pystr * list pystr)) (st : Search) :
  walk_loop ((root, dirs, files) :: post) st
  = match files_loop root files st with
    | (Ok None, st') => walk_loop post st'
    | out => out
    end.
Proof.
  unfold scan_walk. cbn [for_]. unfold bind, ret.
  destruct (files_loop root files st) as [[[v|]|e] st']; reflexivity.
Qed.

End Engine.
(* ================================================================= *)
(** ** What has been printed does not steer the search *)

Lemma for_respects_log {X} (body : X -> M Search (option bool))
    (xs : list X) :
  (forall x, respects_log (body x)) -> respects_log (for_ xs body).
Proof.
  intros Hbody. induction xs as [|x xs IH]; intros st1 st2 Hst.
  - now split.
  - cbn [for_]. unfold bind.
    destruct (Hbody x st1 st2 Hst) as [Hr Hs].
    destruct (body x st1) as [r1 s1], (body x st2) as [r2 s2].
    cbn [fst snd] in Hr, Hs. subst r2.
    destruct r1 as [[v|]|e]; [now split| |now split].
    exact (IH s1 s2 Hs).
Qed.

Section Log.

Variable fs : FileSystem.
Variable lower : pystr -> pystr.
Variables directory search_string lang_suffix other_lang_suffix : pystr.

Local Abbreviation emit :=
  (emit_match fs directory lang_suffix other_lang_suffix).
Local Abbreviation subs_loop :=
  (scan_subs fs lower directory search_string lang_suffix other_lang_suffix).
Local Abbreviation file_step :=
  (scan_file fs lower directory search_string lang_suffix other_lang_suffix).
Local Abbreviation files_loop :=
  (scan_files fs lower directory search_string lang_suffix other_lang_suffix).
Local Abbreviation walk_loop :=
  (scan_walk fs lower directory search_string lang_suffix other_lang_suffix).

(** What the lookup returns depends on the files only. *)
Lemma resolve_result (start_time : SubRipTime) (file_path : pystr)
    (tolerance : timedelta) (w1 w2 : World) :
  fst (find_translation_in_other_lang fs directory start_time file_path
         lang_suffix other_lang_suffix tolerance w1)
  = fst (find_translation_in_other_lang fs directory start_time file_path
           lang_suffix other_lang_suffix tolerance w2).
Proof.
  unfold find_translation_in_other_lang.
  destruct (os_path_exists fs _); [|reflexivity].
  unfold bind, srt_open, lift_res.
  destruct (pysrt_open fs _) as [subs|e]; [|reflexivity].
  destruct (find_closest_sub start_time subs tolerance) as [[c|]|e];
    reflexivity.
Qed.

(** What a write does depends on the connection only. *)
Lemma sendall_conn (data : pystr) (w1 w2 : World) :
  conn w1 = conn w2 ->
  fst (sendall data w1) = fst (sendall data w2) /\
  conn (snd (sendall data w1)) = conn (snd (sendall data w2)).
Proof.
  intros H. unfold sendall. rewrite H.
  destruct (closed (conn w2)); [now split|].
  destruct (faults (conn w2)) as [|[e|] rest]; now split.
Qed.

Lemma emit_match_respects_log (file_path : pystr) (sub : SubRipItem) :
  respects_log (emit file_path sub).
Proof.
  intros st1 st2 (Hconn & Hfound & Hcount). rewrite !emit_match_steps.
  pose proof (resolve_result (start sub) file_path one_second
                (world st1) (world st2)) as Hres.
  pose proof (resolve_conn fs directory lang_suffix other_lang_suffix
                (start sub) file_path one_second (world st1)) as [Hc1 _].
  pose proof (resolve_conn fs directory lang_suffix other_lang_suffix
                (start sub) file_path one_second (world st2)) as [Hc2 _].
  destruct (find_translation_in_other_lang _ _ _ _ _ _ _ (world st1))
    as [r1 w1].
  destruct (find_translation_in_other_lang _ _ _ _ _ _ _ (world st2))
    as [r2 w2].
  cbn [fst snd] in Hres, Hc1, Hc2. subst r2.
  assert (Hw : conn w1 = conn w2) by congruence.
  destruct r1 as [tr|e].
  - destruct (sendall_conn
                (format_single_result
                   (build_result lang_suffix other_lang_suffix file_path
                      sub tr)) w1 w2 Hw) as [Hr Hs].
    destruct (sendall _ w1) as [r1 w1'], (sendall _ w2) as [r2 w2'].
    cbn [fst snd] in Hr, Hs. subst r2. rewrite Hcount.
    destruct r1 as [[]|e]; (split; [reflexivity|]);
      unfold same_but_log; cbn; auto.
  - split; [reflexivity|]. unfold same_but_log. cbn. auto.
Qed.

Lemma scan_subs_respects_log (file_path : pystr) (subs : list SubRipItem) :
  respects_log (subs_loop file_path subs).
Proof.
  unfold scan_subs. apply for_respects_log. intros sub.
  destruct (matches lower search_string sub).
  - apply emit_match_respects_log.
  - intros st1 st2 Hst. now split.
Qed.

Lemma scan_file_respects_log (root file : pystr) :
  respects_log (file_step root file).
Proof.
  intros st1 st2 Hst.
  destruct (endswith file (py "_" ++ lang_suffix ++ py ".srt")) eqn:Hend.
  - rewrite !(scan_file_steps _ _ _ _ _ _ _ _ _ Hend).
    destruct (pysrt_open fs _) as [subs|e].
    + assert (Hopen : same_but_log
                (with_world st1
                   (having_opened (world st1) (path_join root file)))
                (with_world st2
                   (having_opened (world st2) (path_join root file))))
        by exact Hst.
      destruct (scan_subs_respects_log (path_join root file) subs _ _ Hopen)
        as [Hr Hs].
      destruct (subs_loop _ subs (with_world st1 _)) as [r1 s1].
      destruct (subs_loop _ subs (with_world st2 _)) as [r2 s2].
      cbn [fst snd] in Hr, Hs. subst r2.
      destruct r1 as [r|e]; split; trivial.
    + split; [reflexivity|exact Hst].
  - rewrite !scan_file_other by exact Hend. now split.
Qed.

Lemma scan_files_respects_log (root : pystr) (files : list pystr) :
  respects_log (files_loop root files).
Proof.
  unfold scan_files. apply for_respects_log. intros file.
  apply scan_file_respects_log.
Qed.

Lemma scan_walk_respects_log
    (walk : list (pystr * list pystr * list pystr)) :
  respects_log (walk_loop walk).
Proof.
  unfold scan_walk. apply for_respects_log. intros [[root dirs] files].
  apply scan_files_respects_log.
Qed.

(** The walk, cut inside the list of files of a directory. *)
Lemma scan_walk_split (pre : list (pystr * list pystr * list pystr))
    (root : pystr) (dirs files1 files2 : list pystr)
    (post : list (pystr * list pystr * list pystr)) (st : Search) :
  walk_loop (pre ++ (root, dirs, files1 ++ files2) :: post) st
  = match walk_loop (pre ++ [(root, dirs, files1)]) st with
    | (Ok None, st1) => walk_loop ((root, dirs, files2) :: post) st1
    | out => out
    end.
Proof.
  unfold scan_walk at 1 2. rewrite !for_app.
  destruct (for_ pre _ st) as [[[v|]|e] st0]; try reflexivity.
  fold (walk_loop [(root, dirs, files1)] st0).
  fold (walk_loop ((root, dirs, files1 ++ files2) :: post) st0).
  rewrite scan_walk_single, scan_walk_cons. unfold scan_files at 1 2.
  rewrite for_app.
  destruct (for_ files1 _ st0) as [[[v|]|e] st1]; try reflexivity.
  now rewrite scan_walk_cons.
Qed.

End Log.
(* ================================================================= *)
(** ** Failures while a file is processed *)

Section Failures.

Variable fs : FileSystem.
Variable lower : pystr -> pystr.
Variables directory search_string lang_suffix other_lang_suffix : pystr.

Local Abbreviation resolve start_time file_path :=
  (find_translation_in_other_lang fs directory start_time file_path
     lang_suffix other_lang_suffix one_second).
Local Abbreviation emit :=
  (emit_match fs directory lang_suffix other_lang_suffix).
Local Abbreviation subs_loop :=
  (scan_subs fs lower directory search_string lang_suffix other_lang_suffix).
Local Abbreviation file_step :=
  (scan_file fs lower directory search_string lang_suffix other_lang_suffix).
Local Abbreviation files_loop :=
  (scan_files fs lower directory search_string lang_suffix other_lang_suffix).
Local Abbreviation walk_loop :=
  (scan_walk fs lower directory search_string lang_suffix other_lang_suffix).
Local Abbreviation sibling file_path :=
  (other_lang_file_path file_path lang_suffix other_lang_suffix).

Lemma resolve_raises (start_time : SubRipTime) (file_path : pystr)
    (e : exn) (w : World) :
  os_path_exists fs (sibling file_path) = true ->
  pysrt_open fs (sibling file_path) = Raise e ->
  resolve start_time file_path w
  = (Raise e, having_opened w (sibling file_path)).
Proof.
  intros Hex Hopen. unfold find_translation_in_other_lang.
  unfold other_lang_file_path, other_lang_file_name in Hex, Hopen.
  rewrite Hex. unfold bind, srt_open. now rewrite Hopen.
Qed.

Lemma resolve_found (start_time : SubRipTime) (file_path : pystr)
    (subs : list SubRipItem) (c : SubRipItem) (w : World) :
  os_path_exists fs (sibling file_path) = true ->
  pysrt_open fs (sibling file_path) = Ok subs ->
  find_closest_sub start_time subs one_second = Ok (Some c) ->
  resolve start_time file_path w
  = (Ok (Some (strip (text c)), Some (start c), Some (end_ c),
         Some (sibling file_path)),
     having_opened w (sibling file_path)).
Proof.
  intros Hex Hopen Hc. unfold find_translation_in_other_lang.
  unfold other_lang_file_path, other_lang_file_name in Hex, Hopen |- *.
  rewrite Hex. unfold bind, srt_open, lift_res. now rewrite Hopen, Hc.
Qed.

Lemma scan_subs_no_match (file_path : pystr) (subs : list SubRipItem)
    (st : Search) :
  (forall s, In s subs -> matches lower search_string s = false) ->
  subs_loop file_path subs st = (Ok None, st).
Proof.
  intros H. apply for_skip. intros s Hs. now rewrite (H s Hs).
Qed.

(** C6.  When loading a primary-language file raises, the handler prints
    the failure and the step of that file ends without any other effect:
    nothing is written to the connection and the counters keep their
    values.  The loop over the files of the directory and the loop over the
    directories go on with what follows the file, so that what the walk
    returns, what it writes to the connection and what it counts are what
    they would be if the file were not listed.  The search as a whole never
    raises. *)
Theorem bad_file_is_skipped (root file : pystr) (e : exn) :
  endswith file (py "_" ++ lang_suffix ++ py ".srt") = true ->
  pysrt_open fs (path_join root file) = Raise e ->
  (forall st,
     file_step root file st
     = (Ok None, logged st (path_join root file) e)) /\
  (forall files1 files2 st,
     files_loop root (files1 ++ file :: files2) st
     = match files_loop root files1 st with
       | (Ok None, st1) =>
           files_loop root files2 (logged st1 (path_join root file) e)
       | out => out
       end) /\
  (forall pre dirs files1 files2 post st,
     walk_loop (pre ++ (root, dirs, files1 ++ file :: files2) :: post) st
     = match walk_loop (pre ++ [(root, dirs, files1)]) st with
       | (Ok None, st1) =>
           walk_loop ((root, dirs, files2) :: post)
             (logged st1 (path_join root file) e)
       | out => out
       end) /\
  (forall pre dirs files1 files2 post st,
     observable
       (walk_loop (pre ++ (root, dirs, files1 ++ file :: files2) :: post) st)
     = observable
         (walk_loop (pre ++ (root, dirs, files1 ++ files2) :: post) st)) /\
  (forall walk st, exists r st', walk_loop walk st = (Ok r, st')).
Proof.
  intros Hend Hopen.
  assert (Hstep : forall st,
            file_step root file st
            = (Ok None, logged st (path_join root file) e)).
  { intros st. rewrite (scan_file_steps _ _ _ _ _ _ _ _ _ Hend).
    now rewrite Hopen. }
  assert (Hfiles : forall files1 files2 st,
            files_loop root (files1 ++ file :: files2) st
            = match files_loop root files1 st with
              | (Ok None, st1) =>
                  files_loop root files2 (logged st1 (path_join root file) e)
              | out => out
              end).
  { intros files1 files2 st. unfold scan_files. rewrite for_app.
    destruct (for_ files1 _ st) as [[[v|]|e0] st1]; try reflexivity.
    cbn [for_]. unfold bind at 1. now rewrite Hstep. }
  assert (Hwalk : forall pre dirs files1 files2 post st,
            walk_loop (pre ++ (root, dirs, files1 ++ file :: files2) :: post)
              st
            = match walk_loop (pre ++ [(root, dirs, files1)]) st with
              | (Ok None, st1) =>
                  walk_loop ((root, dirs, files2) :: post)
                    (logged st1 (path_join root file) e)
              | out => out
              end).
  { intros pre dirs files1 files2 post st.
    rewrite (scan_walk_split _ _ _ _ _ _ pre root dirs files1
               (file :: files2) post st).
    destruct (walk_loop (pre ++ [(root, dirs, files1)]) st)
      as [[[v|]|e0] st1]; try reflexivity.
    rewrite !scan_walk_cons.
    change (file :: files2) with ([] ++ file :: files2).
    rewrite Hfiles. reflexivity. }
  split; [exact Hstep|]. split; [exact Hfiles|]. split; [exact Hwalk|].
  split.
  - intros pre dirs files1 files2 post st.
    rewrite Hwalk, scan_walk_split.
    destruct (walk_loop (pre ++ [(root, dirs, files1)]) st)
      as [[[v|]|e0] st1]; try reflexivity.
    destruct (scan_walk_respects_log fs lower directory search_string
                lang_suffix other_lang_suffix ((root, dirs, files2) :: post)
                (logged st1 (path_join root file) e) st1)
      as (Hr & Hc & Hf & Hn).
    { now split. }
    unfold observable. now rewrite Hr, Hc, Hf, Hn.
  - intros walk st.
    destruct (walk_loop walk st) as [[r|e0] st'] eqn:E; [eauto|].
    exfalso. exact (scan_walk_no_raise _ _ _ _ _ _ _ _ _ _ E).
Qed.

(** C3 (as amended).  The resolver has no handler of its own: when the
    sibling file exists and loading it raises while the first matching record
    of a primary file is processed, the exception reaches the handler of the
    primary file.  The counters have been updated for the match, the
    failure is printed under the name of the primary file, no frame is
    written for the match, the records after it are not examined, and the
    walk goes on with the next file. *)
Theorem translation_failure_skips_rest_of_file
    (root file : pystr) (before : list SubRipItem) (sub : SubRipItem)
    (rest : list SubRipItem) (e : exn) (st : Search) :
  let file_path := path_join root file in
  endswith file (py "_" ++ lang_suffix ++ py ".srt") = true ->
  pysrt_open fs file_path = Ok (before ++ sub :: rest) ->
  (forall s, In s before -> matches lower search_string s = false) ->
  matches lower search_string sub = true ->
  os_path_exists fs (sibling file_path) = true ->
  pysrt_open fs (sibling file_path) = Raise e ->
  file_step root file st
  = (Ok None,
     {| world :=
          {| conn := conn (world st);
             stdout := stdout (world st) ++ [error_line file_path e];
             opened := opened (world st)
                       ++ [file_path] ++ [sibling file_path] |};
        found_matches := true;
        count := count st + 1 |}).
Proof.
  intros file_path Hend Hopen Hbefore Hsub Hex Hbad.
  rewrite (scan_file_steps _ _ _ _ _ _ _ _ _ Hend). fold file_path.
  rewrite Hopen. unfold scan_subs. rewrite for_app.
  fold (subs_loop file_path before
          (with_world st (having_opened (world st) file_path))).
  rewrite (scan_subs_no_match _ _ _ Hbefore).
  cbn [for_]. unfold bind at 1. rewrite Hsub, emit_match_steps.
  rewrite (resolve_raises _ _ _ _ Hex Hbad).
  unfold with_world, having_opened, printed, counted. cbn.
  now rewrite <- app_assoc.
Qed.

(** C9.  When the sibling file exists, loads, and holds a record within
    tolerance of the match whose text strips to the empty string, the
    translation counts as absent: the frame written for the match is the
    one with [No corresponding translation found.]. *)
Theorem blank_translation_is_absent
    (file_path : pystr) (sub : SubRipItem) (subs : list SubRipItem)
    (c : SubRipItem) (st : Search) :
  os_path_exists fs (sibling file_path) = true ->
  pysrt_open fs (sibling file_path) = Ok subs ->
  find_closest_sub (start sub) subs one_second = Ok (Some c) ->
  strip (text c) = [] ->
  accepts (conn (world st)) = true ->
  exists r st',
    emit file_path sub st = (Ok r, st') /\
    sent (conn (world st'))
    = sent (conn (world st))
      ++ [frame_without_translation lang_suffix file_path sub] /\
    contains (frame_without_translation lang_suffix file_path sub)
      (py "No corresponding translation found.") = true.
Proof.
  intros Hex Hopen Hc Hblank Hconn. rewrite emit_match_steps.
  rewrite (resolve_found _ _ _ _ _ Hex Hopen Hc), Hblank.
  match goal with
  | |- context [sendall ?d ?w] =>
      destruct (sendall_accepted d w Hconn) as (w' & Hsend & Hsent & _)
  end.
  eexists. eexists. rewrite Hsend. split; [reflexivity|].
  split; [exact Hsent|].
  apply contains_iff.
  exists (upper lang_suffix ++ py " (" ++ file_path ++ py ") "
          ++ str_time (start sub) ++ py " -> " ++ str_time (end_ sub)
          ++ [nl] ++ normalize (text sub) ++ [nl] ++ [nl]),
         ([nl] ++ [nl] ++ repeat 45%N 80).
  unfold frame_without_translation. cbn [join].
  rewrite <- !app_assoc. reflexivity.
Qed.

End Failures.

Lemma bad_file_is_skipped_witness :
  scan_file fs_bad ascii_lower (py ".") (py "hello") (py "en") (py "ru")
    (py ".") (py "bad_en.srt") (start_state (world_of healthy))
  = (Ok None,
     logged (start_state (world_of healthy)) (py "./bad_en.srt") corrupt).
Proof.
  destruct (bad_file_is_skipped fs_bad ascii_lower (py ".") (py "hello")
              (py "en") (py "ru") (py ".") (py "bad_en.srt") corrupt
              eq_refl eq_refl) as (Hstep & _).
  apply Hstep.
Defined.

Lemma translation_failure_skips_rest_of_file_witness :
  scan_file fs_corrupt ascii_lower (py ".") (py "hello") (py "en") (py "ru")
    (py ".") (py "movie_en.srt") (start_state (world_of healthy))
  = (Ok None,
     {| world :=
          {| conn := healthy;
             stdout := [error_line (py "./movie_en.srt") corrupt];
             opened := [py "./movie_en.srt"; py "./movie_ru.srt"] |};
        found_matches := true;
        count := 1 |}).
Proof.
  apply (translation_failure_skips_rest_of_file fs_corrupt ascii_lower
           (py ".") (py "hello") (py "en") (py "ru") (py ".")
           (py "movie_en.srt") [] (sub_at "Hello world" 1000)
           [sub_at "Hello again" 5000] corrupt
           (start_state (world_of healthy)));
    try reflexivity.
  intros s [].
Defined.

(** C3 as stated fails: with two matching records in [movie_en.srt] and a
    sibling [movie_ru.srt] that cannot be loaded, the search writes no frame
    at all, where the claim has the two frames written without
    translation. *)
Lemma corrupt_translation_drops_matches :
  let out :=
    stream_subtitle_search fs_corrupt ascii_lower (py ".") (py "hello")
      (world_of healthy) in
  fst out = Ok true /\
  sent (conn (snd out)) = [] /\
  stdout (snd out) = [error_line (py "./movie_en.srt") corrupt] /\
  opened (snd out) = [py "./movie_en.srt"; py "./movie_ru.srt"] /\
  sent (conn (snd out))
  <> map (frame_without_translation (py "en") (py "./movie_en.srt"))
       [sub_at "Hello world" 1000; sub_at "Hello again" 5000].
Proof.
  vm_compute. repeat split. discriminate.
Qed.

Lemma blank_translation_is_absent_witness :
  exists r st',
    emit_match fs_blank (py ".") (py "en") (py "ru") (py "./movie_en.srt")
      (sub_at "Hello world" 1000) (start_state (world_of healthy))
    = (Ok r, st') /\
    sent (conn (world st'))
    = [frame_without_translation (py "en") (py "./movie_en.srt")
         (sub_at "Hello world" 1000)].
Proof.
  destruct (blank_translation_is_absent fs_blank (py ".") (py "en") (py "ru")
              (py "./movie_en.srt") (sub_at "Hello world" 1000)
              [sub_at "  " 1200] (sub_at "  " 1200)
              (start_state (world_of healthy))
              eq_refl eq_refl eq_refl eq_refl eq_refl)
    as (r & st' & Hrun & Hsent & _).
  exists r, st'. split; [exact Hrun|exact Hsent].
Defined.
(* ================================================================= *)
(** ** The limit of twelve matches *)

(** What a loop returns, its body returns. *)
Lemma for_returns {S X R} (P : R -> Prop) (body : X -> M S (option R)) :
  (forall x s v s', body x s = (Ok (Some v), s') -> P v) ->
  forall xs s v s', for_ xs body s = (Ok (Some v), s') -> P v.
Proof.
  intros Hbody. induction xs as [|x xs IH]; intros s v s'; [discriminate|].
  cbn [for_]. unfold bind.
  destruct (body x s) as [[[v0|]|e] s0] eqn:E.
  - unfold ret. intros H. inversion H; subst. exact (Hbody _ _ _ _ E).
  - apply IH.
  - discriminate.
Qed.

Section Limit.

Variable fs : FileSystem.
Variable lower : pystr -> pystr.
Variables directory search_string lang_suffix other_lang_suffix : pystr.

Local Abbreviation emit :=
  (emit_match fs directory lang_suffix other_lang_suffix).
Local Abbreviation subs_loop :=
  (scan_subs fs lower directory search_string lang_suffix other_lang_suffix).
Local Abbreviation file_step :=
  (scan_file fs lower directory search_string lang_suffix other_lang_suffix).
Local Abbreviation files_loop :=
  (scan_files fs lower directory search_string lang_suffix other_lang_suffix).
Local Abbreviation walk_loop :=
  (scan_walk fs lower directory search_string lang_suffix other_lang_suffix).

Variable sent0 : list pystr.






(** A match whose frame has been written: the counter has moved by one,
    one frame has been appended, and the body returns [True] exactly when
    the counter has reached the limit. *)
Lemma emit_match_written (file_path : pystr) (sub : SubRipItem)
    (st : Search) (r : option bool) (st' : Search) :
  emit file_path sub st = (Ok r, st') ->
  count st' = count st + 1 /\
  (exists frame,
     sent (conn (world st')) = sent (conn (world st)) ++ [frame]) /\
  (SEARCH_LIMIT <= count st' -> r = Some true) /\
  (count st' < SEARCH_LIMIT -> r = None).
Proof.
  rewrite emit_match_steps.
  pose proof (resolve_conn fs directory lang_suffix other_lang_suffix
                (start sub) file_path one_second (world st)) as [Hconn _].
  destruct (find_translation_in_other_lang _ _ _ _ _ _ _ (world st))
    as [[tr|e] w1]; cbn [snd] in Hconn; [|discriminate].
  pose proof (sendall_sent
                (format_single_result
                   (build_result lang_suffix other_lang_suffix file_path
                      sub tr)) w1) as [Hsend _].
  destruct (sendall _ w1) as [[[]|e] w2]; [|discriminate].
  rewrite Hconn in Hsend.
  destruct (Nat.leb_spec SEARCH_LIMIT (count st + 1));
    intros [= <- <-]; cbn [count world with_world counted];
    (split; [reflexivity|]); (split; [eauto|]); split; intros;
    trivial; exfalso; lia.
Qed.

Lemma emit_match_returns (file_path : pystr) (sub : SubRipItem)
    (st : Search) (v : bool) (st' : Search) :
  emit file_path sub st = (Ok (Some v), st') -> v = true.
Proof.
  intros H. pose proof (emit_match_written _ _ _ _ _ H) as (_ & _ & H1 & H2).
  destruct (Nat.leb_spec SEARCH_LIMIT (count st')) as [Hle|Hlt].
  - specialize (H1 Hle). congruence.
  - specialize (H2 Hlt). discriminate.
Qed.

Lemma scan_subs_returns (file_path : pystr) (subs : list SubRipItem)
    (st : Search) (v : bool) (st' : Search) :
  subs_loop file_path subs st = (Ok (Some v), st') -> v = true.
Proof.
  unfold scan_subs. revert subs st v st'.
  apply (for_returns (fun v => v = true)). intros sub s v0 s0.
  destruct (matches lower search_string sub); [|discriminate].
  apply emit_match_returns.
Qed.

Lemma scan_file_returns (root file : pystr) (st : Search) (v : bool)
    (st' : Search) :
  file_step root file st = (Ok (Some v), st') -> v = true.
Proof.
  destruct (endswith file (py "_" ++ lang_suffix ++ py ".srt")) eqn:Hend.
  - rewrite (scan_file_steps _ _ _ _ _ _ _ _ _ Hend).
    destruct (pysrt_open fs _) as [subs|e]; [|discriminate].
    destruct (subs_loop _ subs _) as [[[v0|]|e] st0] eqn:E; try discriminate.
    intros H. inversion H; subst. exact (scan_subs_returns _ _ _ _ _ E).
  - now rewrite scan_file_other.
Qed.

Lemma scan_files_returns (root : pystr) (files : list pystr) (st : Search)
    (v : bool) (st' : Search) :
  files_loop root files st = (Ok (Some v), st') -> v = true.
Proof.
  unfold scan_files. revert files st v st'.
  apply (for_returns (fun v => v = true)). intros file s v0 s0.
  apply scan_file_returns.
Qed.

Lemma scan_walk_returns (walk : list (pystr * list pystr * list pystr))
    (st : Search) (v : bool) (st' : Search) :
  walk_loop walk st = (Ok (Some v), st') -> v = true.
Proof.
  unfold scan_walk. revert walk st v st'.
  apply (for_returns (fun v => v = true)).
  intros [[root dirs] files] s v0 s0.
  apply scan_files_returns.
Qed.

End Limit.



(** With thirteen matching records in the first file, twelve frames are
    written and the second file is never opened. *)
Example search_stops_at_limit :
  let out :=
    stream_subtitle_search fs_full ascii_lower (py ".") (py "hello")
      (world_of healthy) in
  fst out = Ok true /\
  length (sent (conn (snd out))) = 12 /\
  opened (snd out) = [py "./a_en.srt"].
Proof. vm_compute. repeat split. Qed.

(* ================================================================= *)
(** ** One round of a session *)

(** The rule of the loop, with the body considered on the elements of the
    list only. *)
Lemma for_rule_in {S X R} (P Q : S -> Prop) (body : X -> M S (option R))
    (xs : list X) :
  (forall x s, In x xs -> P s ->
     match body x s with
     | (Ok (Some _), s') => Q s'
     | (_, s') => P s'
     end) ->
  forall s, P s ->
    match for_ xs body s with
    | (Ok (Some _), s') => Q s'
    | (_, s') => P s'
    end.
Proof.
  induction xs as [|x xs IH]; intros Hbody s Hs; [exact Hs|].
  cbn [for_]. unfold bind.
  pose proof (Hbody x s (or_introl eq_refl) Hs) as Hx.
  destruct (body x s) as [[[v|]|e] s']; cbn; trivial.
  apply IH; [|exact Hx]. intros y s0 Hy. apply Hbody. now right.
Qed.

Section Round.

Variable fs : FileSystem.
Variable lower : pystr -> pystr.
Variables directory search_string : pystr.

Local Abbreviation lang_suffix := (fst (lang_suffixes search_string)).
Local Abbreviation other_lang_suffix := (snd (lang_suffixes search_string)).
Local Abbreviation emit :=
  (emit_match fs directory lang_suffix other_lang_suffix).
Local Abbreviation subs_loop :=
  (scan_subs fs lower directory search_string lang_suffix other_lang_suffix).
Local Abbreviation file_step :=
  (scan_file fs lower directory search_string lang_suffix other_lang_suffix).
Local Abbreviation files_loop :=
  (scan_files fs lower directory search_string lang_suffix other_lang_suffix).
Local Abbreviation walk_loop :=
  (scan_walk fs lower directory search_string lang_suffix other_lang_suffix).

Lemma run_search_walk (w : World) :
  run_search fs lower directory search_string w
  = walk_loop (os_walk fs directory)
      {| world := w; found_matches := false; count := 0 |}.
Proof.
  unfold run_search. now destruct (lang_suffixes search_string).
Qed.

(* ----------------------------------------------------------------- *)
(** *** On a sound connection *)

Variable sent0 : list pystr.

Lemma streaming_same_conn (st st' : Search) :
  conn (world st') = conn (world st) ->
  streaming sent0 st -> streaming sent0 st'.
Proof. unfold streaming. now intros ->. Qed.

Lemma emit_match_streaming (file_path : pystr) (sub : SubRipItem)
    (st : Search) :
  streaming sent0 st ->
  streaming sent0 (snd (emit file_path sub st)).
Proof.
  intros Hst. rewrite emit_match_steps.
  pose proof (resolve_conn fs directory lang_suffix other_lang_suffix
                (start sub) file_path one_second (world st)) as [Hconn _].
  destruct (find_translation_in_other_lang _ _ _ _ _ _ _ (world st))
    as [[tr|e] w1]; cbn [snd] in Hconn.
  - destruct Hst as [Hsound (frames & Hs)]. rewrite <- Hconn in Hsound, Hs.
    destruct (sendall_sound
                (format_single_result
                   (build_result lang_suffix other_lang_suffix file_path
                      sub tr)) w1 Hsound) as (w2 & Hsend & Hsound2 & Hsent).
    rewrite Hsend. unfold streaming. cbn [snd world with_world].
    split; [exact Hsound2|].
    rewrite Hsent, Hs, <- app_assoc. eauto.
  - cbn. now apply (streaming_same_conn st).
Qed.

Lemma scan_file_streaming (root file : pystr) (st : Search) :
  streaming sent0 st ->
  streaming sent0 (snd (file_step root file st)).
Proof.
  intros Hst.
  destruct (endswith file (py "_" ++ lang_suffix ++ py ".srt")) eqn:Hend.
  - rewrite (scan_file_steps _ _ _ _ _ _ _ _ _ Hend).
    destruct (pysrt_open fs _) as [subs|e].
    + assert (Hloop : forall subs st0, streaming sent0 st0 ->
                streaming sent0
                  (snd (subs_loop (path_join root file) subs st0))).
      { clear. intros subs st0 Hst0.
        pose proof (for_rule (streaming sent0) (streaming sent0)
                      (fun sub =>
                         if matches lower search_string sub
                         then emit (path_join root file) sub
                         else ret None)) as Hrule.
        unfold scan_subs.
        assert (Hbody : forall x s, streaming sent0 s ->
                  match (if matches lower search_string x
                         then emit (path_join root file) x
                         else ret None) s with
                  | (Ok (Some _), s') => streaming sent0 s'
                  | (_, s') => streaming sent0 s'
                  end).
        { intros x s Hs. destruct (matches lower search_string x).
          - pose proof (emit_match_streaming (path_join root file) x s Hs)
              as H.
            destruct (emit _ x s) as [[[v|]|e] s']; exact H.
          - exact Hs. }
        specialize (Hrule Hbody subs st0 Hst0).
        destruct (for_ subs _ st0) as [[[v|]|e] s']; exact Hrule. }
      specialize (Hloop subs
                    (with_world st
                       (having_opened (world st) (path_join root file)))).
      destruct (subs_loop _ subs _) as [[[v|]|e] st']; cbn [snd] in *;
        apply Hloop; now apply (streaming_same_conn st).
    + cbn. now apply (streaming_same_conn st).
  - now rewrite scan_file_other.
Qed.

Lemma scan_walk_streaming (walk : list (pystr * list pystr * list pystr))
    (st : Search) :
  streaming sent0 st -> streaming sent0 (snd (walk_loop walk st)).
Proof.
  intros Hst.
  assert (H : match walk_loop walk st with
              | (Ok (Some _), s') => streaming sent0 s'
              | (_, s') => streaming sent0 s'
              end).
  { revert st Hst. unfold scan_walk. apply for_rule.
    intros [[root dirs] files] s Hs. revert s Hs. unfold scan_files.
    apply for_rule. intros file s Hs.
    pose proof (scan_file_streaming root file s Hs) as H.
    destruct (file_step root file s) as [[[v|]|e] s']; exact H. }
  destruct (walk_loop walk st) as [[[v|]|e] s']; exact H.
Qed.

(** On a sound connection the search returns, the connection stays sound
    and what it had sent is extended. *)
Lemma stream_sound (w : World) :
  sound (conn w) -> sent (conn w) = sent0 ->
  exists b w',
    stream_subtitle_search fs lower directory search_string w = (Ok b, w') /\
    sound (conn w') /\
    exists frames, sent (conn w') = sent0 ++ frames.
Proof.
  intros Hsound Hsent. unfold stream_subtitle_search.
  rewrite run_search_walk.
  pose proof (scan_walk_streaming (os_walk fs directory)
                {| world := w; found_matches := false; count := 0 |}) as H.
  assert (Hstart : streaming sent0
                     {| world := w; found_matches := false; count := 0 |}).
  { split; [exact Hsound|]. exists []. cbn. now rewrite app_nil_r. }
  specialize (H Hstart).
  destruct (walk_loop (os_walk fs directory) _) as [[[v|]|e] st] eqn:E;
    cbn [snd] in H; destruct H as [H1 H2].
  - eauto.
  - eauto.
  - exfalso. exact (scan_walk_no_raise _ _ _ _ _ _ _ _ _ _ E).
Qed.

(* ----------------------------------------------------------------- *)
(** *** Without a match *)

Variable c0 : Conn.

Lemma scan_file_silent (root file : pystr) (st : Search) :
  (forall subs sub,
     endswith file (py "_" ++ lang_suffix ++ py ".srt") = true ->
     pysrt_open fs (path_join root file) = Ok subs ->
     In sub subs -> matches lower search_string sub = false) ->
  silent c0 st ->
  exists st', file_step root file st = (Ok None, st') /\ silent c0 st'.
Proof.
  intros Hnone Hst.
  destruct (endswith file (py "_" ++ lang_suffix ++ py ".srt")) eqn:Hend.
  - rewrite (scan_file_steps _ _ _ _ _ _ _ _ _ Hend).
    destruct (pysrt_open fs _) as [subs|e] eqn:Hopen.
    + rewrite scan_subs_no_match.
      * eexists. split; [reflexivity|exact Hst].
      * intros s Hs. exact (Hnone subs s eq_refl eq_refl Hs).
    + eexists. split; [reflexivity|exact Hst].
  - rewrite scan_file_other by exact Hend. eauto.
Qed.

Lemma scan_walk_silent (st : Search) :
  no_match fs lower directory search_string ->
  silent c0 st ->
  exists st',
    walk_loop (os_walk fs directory) st = (Ok None, st') /\ silent c0 st'.
Proof.
  intros Hnone Hst.
  assert (H : match walk_loop (os_walk fs directory) st with
              | (Ok (Some _), s') => False
              | (_, s') => silent c0 s'
              end).
  { revert st Hst. unfold scan_walk. apply for_rule_in.
    intros [[root dirs] files] s Hin Hs. revert s Hs. unfold scan_files.
    apply for_rule_in. intros file s Hfile Hs.
    destruct (scan_file_silent root file s) as (s' & -> & Hs'); trivial.
    intros subs sub Hend Hopen Hsub.
    exact (Hnone root dirs files file subs sub Hin Hfile Hend Hopen Hsub). }
  destruct (walk_loop (os_walk fs directory) st) as [[[v|]|e] st'] eqn:E.
  - contradiction.
  - eauto.
  - exfalso. exact (scan_walk_no_raise _ _ _ _ _ _ _ _ _ _ E).
Qed.

Lemma stream_silent (w : World) :
  no_match fs lower directory search_string -> conn w = c0 ->
  exists w',
    stream_subtitle_search fs lower directory search_string w
    = (Ok false, w') /\
    conn w' = c0.
Proof.
  intros Hnone Hconn. unfold stream_subtitle_search.
  rewrite run_search_walk.
  destruct (scan_walk_silent
              {| world := w; found_matches := false; count := 0 |} Hnone)
    as (st' & -> & Hc & Hfound); [now split|].
  rewrite Hfound. eauto.
Qed.

End Round.

(** C8.  On a connection on which writes succeed, a round of the session
    ends with the end marker [\n<END>\n], written after everything the
    query has written; and when no record matches the query, the round
    writes exactly the notice [No matching subtitles found.] and then the
    end marker, and no match frame. *)
Theorem query_ends_with_marker (fs : FileSystem) (lower : pystr -> pystr)
    (addr directory search_str : pystr) (w : World) :
  sound (conn w) ->
  (exists frames w',
     serve_query fs lower addr directory search_str w = (Ok tt, w') /\
     sent (conn w')
     = sent (conn w) ++ frames ++ [[nl] ++ py "<END>" ++ [nl]]) /\
  (no_match fs lower directory search_str ->
   exists w',
     serve_query fs lower addr directory search_str w = (Ok tt, w') /\
     sent (conn w')
     = sent (conn w)
       ++ [py "No matching subtitles found."; [nl] ++ py "<END>" ++ [nl]]).
Proof.
  intros Hsound. unfold serve_query.
  set (line := py "[SEARCH] Client " ++ addr ++ py " searching for: '"
               ++ search_str ++ py "'").
  rewrite (bind_ok (print line) _ w tt (printed w line) eq_refl).
  split.
  - destruct (stream_sound fs lower directory search_str (sent (conn w))
                (printed w line) Hsound eq_refl)
      as (b & w1 & Hrun & Hsound1 & frames & Hsent1).
    rewrite (bind_ok _ _ _ _ _ Hrun).
    destruct b; cbn [negb].
    + rewrite (bind_ok (ret tt) _ w1 tt w1 eq_refl).
      destruct (sendall_sound END_MARKER w1 Hsound1)
        as (w2 & -> & _ & Hsent2).
      exists frames, w2. split; [reflexivity|].
      now rewrite Hsent2, Hsent1, <- app_assoc.
    + destruct (sendall_sound no_results_msg w1 Hsound1)
        as (w2 & Hsend2 & Hsound2 & Hsent2).
      rewrite (bind_ok _ _ _ _ _ Hsend2).
      destruct (sendall_sound END_MARKER w2 Hsound2)
        as (w3 & -> & _ & Hsent3).
      exists (frames ++ [no_results_msg]), w3. split; [reflexivity|].
      now rewrite Hsent3, Hsent2, Hsent1, <- !app_assoc.
  - intros Hnone.
    destruct (stream_silent fs lower directory search_str (conn w)
                (printed w line) Hnone eq_refl)
      as (w1 & Hrun & Hconn).
    rewrite (bind_ok _ _ _ _ _ Hrun). cbn [negb].
    rewrite <- Hconn in Hsound.
    destruct (sendall_sound no_results_msg w1 Hsound)
      as (w2 & Hsend2 & Hsound2 & Hsent2).
    rewrite (bind_ok _ _ _ _ _ Hsend2).
    destruct (sendall_sound END_MARKER w2 Hsound2)
      as (w3 & -> & _ & Hsent3).
    exists w3. split; [reflexivity|].
    rewrite Hsent3, Hsent2, Hconn, <- app_assoc. reflexivity.
Qed.

Lemma no_match_goodbye :
  no_match fs_lonely ascii_lower (py ".") (py "goodbye").
Proof.
  intros root dirs files file subs sub Hwalk Hfile Hend Hopen Hsub.
  destruct Hwalk as [Hwalk|[]]. injection Hwalk as <- <- <-.
  destruct Hfile as [<-|[]]. vm_compute in Hopen. injection Hopen as <-.
  destruct Hsub as [<-|[]]. reflexivity.
Qed.

Lemma query_ends_with_marker_witness :
  exists w',
    serve_query fs_lonely ascii_lower (py "peer") (py ".") (py "goodbye")
      (world_of healthy) = (Ok tt, w') /\
    sent (conn w')
    = [py "No matching subtitles found."; [nl] ++ py "<END>" ++ [nl]].
Proof.
  destruct (query_ends_with_marker fs_lonely ascii_lower (py "peer") (py ".")
              (py "goodbye") (world_of healthy) (conj eq_refl eq_refl))
    as (_ & Hnone).
  exact (Hnone no_match_goodbye).
Defined.

(** A query that matches: the frame, then the end marker. *)
Example round_with_match :
  sent (conn (snd (serve_query fs_lonely ascii_lower (py "peer") (py ".")
                     (py "HELLO") (world_of healthy))))
  = [frame_without_translation (py "en") (py "./movie_en.srt")
       (sub_at "Hello world" 1000);
     END_MARKER].
Proof. vm_compute. reflexivity. Qed.

(** C5 fails on the code: a write that raises inside the search is caught by
    the handler of the file being scanned and printed as an error of that
    file, and the walk goes on.  With [a_en.srt] and [b_en.srt] holding one
    match each and a connection whose first write fails, the session opens
    [b_en.srt] after the failure, writes its frame and the end marker, and
    ends in the ordinary way; on a connection on which every write fails the
    search still opens and scans [b_en.srt]. *)
Theorem send_failure_is_swallowed :
  let out :=
    handle_client fs_pair ascii_lower [Ok (py "hello")] (py "peer") (py ".")
      (world_of failing_once) in
  let out' :=
    stream_subtitle_search fs_pair ascii_lower (py ".") (py "hello")
      (world_of dropped) in
  fst out = Ok tt /\
  sent (conn (snd out))
  = [frame_without_translation (py "en") (py "./b_en.srt")
       (sub_at "Hello again" 2000);
     END_MARKER] /\
  opened (snd out) = [py "./a_en.srt"; py "./b_en.srt"] /\
  stdout (snd out)
  = [py "[NEW CONNECTION] peer connected.";
     py "[SEARCH] Client peer searching for: 'hello'";
     error_line (py "./a_en.srt") broken_pipe;
     py "[DISCONNECTED] peer disconnected."] /\
  fst out' = Ok true /\
  sent (conn (snd out')) = [] /\
  opened (snd out') = [py "./a_en.srt"; py "./b_en.srt"] /\
  stdout (snd out')
  = [error_line (py "./a_en.srt") broken_pipe;
     error_line (py "./b_en.srt") broken_pipe].
Proof. vm_compute. repeat split. Qed.
(* ================================================================= *)
(** ** The scenarios of the specification *)

(** Time stamps between zero and 999999999 days are representable, and so
    are their differences. *)
Lemma nonnegative_times_representable (T : SubRipTime)
    (subs : list SubRipItem) :
  (0 <= micros T <= - timedelta_min)%Z ->
  Forall (fun s => (0 <= micros (start s) <= - timedelta_min)%Z) subs ->
  representable T subs.
Proof.
  unfold representable, in_range, timedelta_min, timedelta_max.
  intros HT Hsubs. split; [lia|].
  eapply Forall_impl; [|exact Hsubs]. cbn. intros s Hs. lia.
Qed.

(** An ASCII query makes English the primary language; any character
    outside ASCII makes it Russian. *)
Example ascii_query_is_english :
  lang_suffixes (py "hello") = (py "en", py "ru").
Proof. reflexivity. Qed.

Example other_query_is_russian :
  lang_suffixes (py "hello " ++ privet) = (py "ru", py "en").
Proof. reflexivity. Qed.

(** The English match is paired with the Russian record 200 ms later. *)
Example english_match_with_translation :
  stream_subtitle_search fs_movie ascii_lower (py ".") (py "hello")
    (world_of healthy)
  = (Ok true,
     {| conn :=
          {| sent :=
               [join [nl]
                  [py "EN (./movie_en.srt) 00:00:01,000 -> 00:00:02,000";
                   py "Hello world" ++ [nl];
                   py "RU (./movie_ru.srt) 00:00:01,200 -> 00:00:02,200";
                   privet ++ [nl];
                   repeat 45%N 80]];
             faults := [];
             closed := false |};
        stdout := [];
        opened := [py "./movie_en.srt"; py "./movie_ru.srt"] |}).
Proof. vm_compute. reflexivity. Qed.

(** Without a sibling file the frame says so. *)
Example english_match_without_sibling :
  sent (conn (snd (stream_subtitle_search fs_lonely ascii_lower (py ".")
                     (py "hello") (world_of healthy))))
  = [join [nl]
       [py "EN (./movie_en.srt) 00:00:01,000 -> 00:00:02,000";
        py "Hello world" ++ [nl];
        py "No corresponding translation found." ++ [nl];
        repeat 45%N 80]].
Proof. vm_compute. reflexivity. Qed.

(** A sibling record whose text is blank counts as no translation. *)
Example english_match_with_blank_translation :
  sent (conn (snd (stream_subtitle_search fs_blank ascii_lower (py ".")
                     (py "hello") (world_of healthy))))
  = [frame_without_translation (py "en") (py "./movie_en.srt")
       (sub_at "Hello world" 1000)].
Proof. vm_compute. reflexivity. Qed.

(** A whole session: one query, then the peer closes. *)
Example session_of_one_query :
  handle_client fs_lonely ascii_lower [Ok (py "goodbye" ++ [nl])]
    (py "peer") (py ".") (world_of healthy)
  = (Ok tt,
     {| conn :=
          {| sent := [no_results_msg; END_MARKER];
             faults := [];
             closed := true |};
        stdout :=
          [py "[NEW CONNECTION] peer connected.";
           py "[SEARCH] Client peer searching for: 'goodbye'";
           py "[DISCONNECTED] peer disconnected."];
        opened := [py "./movie_en.srt"] |}).
Proof. vm_compute. reflexivity. Qed.
(* ================================================================= *)
(** ** More on [find_closest_sub]: overflow and the tolerance *)

Lemma days_of_out_of_range (us : Z) :
  ~ in_range us -> (999999999 < Z.abs (us / us_per_day))%Z.
Proof.
  unfold in_range, timedelta_min, timedelta_max, us_per_day. intros H.
  destruct (Z_lt_le_dec us (-86399999913600000000)) as [Hlo|Hlo].
  - assert (us / 86400000000 < -999999999)%Z
      by (apply Z.div_lt_upper_bound; lia).
    lia.
  - assert (1000000000 <= us / 86400000000)%Z
      by (apply Z.div_le_lower_bound; lia).
    lia.
Qed.

Lemma new_delta_raises (us : Z) :
  ~ in_range us ->
  new_delta us = Raise (days_out_of_range (us / us_per_day)).
Proof.
  unfold in_range, new_delta. intros H.
  destruct (Z.leb_spec timedelta_min us); [|reflexivity].
  destruct (Z.leb_spec us timedelta_max); [|reflexivity].
  exfalso. apply H. now split.
Qed.

Lemma mk_timedelta_raises (us : Z) :
  ~ in_range us ->
  exists e, mk_timedelta us = Raise e /\ overflow_error e.
Proof.
  intros H. unfold mk_timedelta.
  destruct (Z.leb_spec (-2147483648) (us / us_per_day)) as [Hlo|Hlo];
    [destruct (Z.leb_spec (us / us_per_day) 2147483647) as [Hhi|Hhi]|];
    cbn [andb].
  - rewrite (new_delta_raises _ H). eexists. split; [reflexivity|].
    right. exists (us / us_per_day)%Z.
    split; [exact (days_of_out_of_range _ H)|].
    split; [now split|reflexivity].
  - eexists. split; [reflexivity|]. now left.
  - eexists. split; [reflexivity|]. now left.
Qed.

(** The distance of two time stamps in range is a number of days that fits
    a C [int]. *)
Lemma days_of_distance_fit (a b : Z) :
  in_range a -> in_range b ->
  (-2147483648 <= (a - b) / us_per_day <= 2147483647)%Z.
Proof.
  unfold in_range, timedelta_min, timedelta_max, us_per_day.
  intros Ha Hb. split.
  - apply Z.div_le_lower_bound; lia.
  - apply Z.lt_succ_r, Z.div_lt_upper_bound; lia.
Qed.

Lemma in_range_dec (us : Z) : {in_range us} + {~ in_range us}.
Proof.
  unfold in_range.
  destruct (Z_le_dec timedelta_min us); [|right; tauto].
  destruct (Z_le_dec us timedelta_max); [left; tauto|right; tauto].
Qed.

(** The loop raises at the first record whose time stamp, or whose distance
    to the target, is not representable: an error of [timedelta]. *)
Lemma closest_loop_overflow (T : SubRipTime) (W : timedelta)
    (subs : list SubRipItem) :
  in_range (micros T) ->
  forall closest_sub min_time_diff,
    ~ Forall (fun s => in_range (micros (start s)) /\
                       in_range (micros (start s) - micros T)) subs ->
    exists e,
      closest_loop (micros T) W subs closest_sub min_time_diff = Raise e /\
      overflow_error e.
Proof.
  intros HT. induction subs as [|sub rest IH]; intros c m Hbad.
  - exfalso. apply Hbad. constructor.
  - cbn [closest_loop].
    destruct (in_range_dec (micros (start sub))) as [Hs|Hs].
    + destruct (in_range_dec (micros (start sub) - micros T)) as [Hd|Hd].
      * pose proof (time_diff_computed T sub Hs Hd) as Hdiff.
        unfold res_bind in Hdiff |- *.
        destruct (to_timedelta (start sub)) as [a|]; [|discriminate].
        destruct (td_sub a (micros T)) as [d|]; [|discriminate].
        rewrite Hdiff.
        assert (Hrest : ~ Forall
                  (fun s => in_range (micros (start s)) /\
                            in_range (micros (start s) - micros T)) rest).
        { intros H. apply Hbad. constructor; [now split|exact H]. }
        destruct (_ && _); now apply IH.
      * unfold to_timedelta, td_sub.
        rewrite (mk_timedelta_in_range _ Hs). cbn [res_bind].
        rewrite (new_delta_raises _ Hd). cbn [res_bind].
        eexists. split; [reflexivity|]. right.
        exists ((micros (start sub) - micros T) / us_per_day)%Z.
        split; [exact (days_of_out_of_range _ Hd)|].
        split; [exact (days_of_distance_fit _ _ Hs HT)|reflexivity].
    + unfold to_timedelta.
      destruct (mk_timedelta_raises _ Hs) as (e & -> & He).
      now exists e.
Qed.

Lemma find_closest_sub_returns (T : SubRipTime) (W : timedelta)
    (subs : list SubRipItem) :
  representable T subs ->
  exists r m,
    find_closest_sub T subs W = Ok r /\ scanned T W subs r m.
Proof.
  intros [HT Hsubs]. unfold find_closest_sub, to_timedelta.
  rewrite (mk_timedelta_in_range _ HT). cbn [res_bind].
  destruct (closest_loop_scanned T W subs [] None timedelta_max)
    as (r & m & Hrun & Hinv); [now split|assumption|].
  exists r, m. now split.
Qed.

Lemma representable_dec (T : SubRipTime) (subs : list SubRipItem) :
  {representable T subs} + {~ representable T subs}.
Proof.
  unfold representable.
  destruct (in_range_dec (micros T)) as [HT|HT]; [|right; tauto].
  destruct (Forall_dec
              (fun s => in_range (micros (start s)) /\
                        in_range (micros (start s) - micros T))
              (fun s =>
                 match in_range_dec (micros (start s)),
                       in_range_dec (micros (start s) - micros T) with
                 | left a, left b => left (conj a b)
                 | right a, _ => right (fun H => a (proj1 H))
                 | _, right b => right (fun H => b (proj2 H))
                 end) subs) as [H|H]; [left; tauto|right; tauto].
Qed.

Lemma find_closest_sub_unrepresentable (T : SubRipTime) (W : timedelta)
    (subs : list SubRipItem) :
  ~ representable T subs ->
  exists e, find_closest_sub T subs W = Raise e /\ overflow_error e.
Proof.
  intros Hnot. unfold find_closest_sub, to_timedelta.
  destruct (in_range_dec (micros T)) as [HT|HT].
  - rewrite (mk_timedelta_in_range _ HT). cbn [res_bind].
    apply closest_loop_overflow; [exact HT|].
    intros H. apply Hnot. now split.
  - destruct (mk_timedelta_raises _ HT) as (e & -> & He). now exists e.
Qed.

Lemma find_closest_sub_ok_representable (T : SubRipTime) (W : timedelta)
    (subs : list SubRipItem) (r : option SubRipItem) :
  find_closest_sub T subs W = Ok r -> representable T subs.
Proof.
  intros Hr. destruct (representable_dec T subs) as [H|H]; [exact H|].
  destruct (find_closest_sub_unrepresentable T W subs H) as (e & He & _).
  rewrite He in Hr. discriminate.
Qed.

(** X1.  [find_closest_sub] returns exactly when every time stamp it
    converts and every distance it computes lies within the range of
    [timedelta], and raises exactly when one does not, whatever the
    tolerance, and also on the empty sequence when the target itself is out
    of range.  What it raises is the error of [timedelta]: an
    [OverflowError] whose message is that of a number of days above
    999999999 in magnitude, or that of a number of days that does not fit a
    C [int]. *)
Theorem find_closest_sub_overflow (T : SubRipTime) (W : timedelta)
    (subs : list SubRipItem) :
  ((exists r, find_closest_sub T subs W = Ok r) <-> representable T subs) /\
  ((exists e, find_closest_sub T subs W = Raise e) <->
   ~ representable T subs) /\
  (forall e, find_closest_sub T subs W = Raise e -> overflow_error e).
Proof.
  split; [|split].
  - split.
    + intros [r Hr]. exact (find_closest_sub_ok_representable T W subs r Hr).
    + intros Hrep.
      destruct (find_closest_sub_returns T W subs Hrep) as (r & _ & Hr & _).
      now exists r.
  - split.
    + intros [e Hraise] Hrep.
      destruct (find_closest_sub_returns T W subs Hrep) as (r & _ & Hr & _).
      congruence.
    + intros Hnot.
      destruct (find_closest_sub_unrepresentable T W subs Hnot)
        as (e & He & _).
      now exists e.
  - intros e Hraise.
    destruct (representable_dec T subs) as [Hrep|Hnot].
    + destruct (find_closest_sub_returns T W subs Hrep) as (r & _ & Hr & _).
      congruence.
    + destruct (find_closest_sub_unrepresentable T W subs Hnot)
        as (e' & He' & Hover).
      congruence.
Qed.

Lemma find_closest_sub_overflow_witness :
  overflow_error
    (OverflowError (py "days=1000000000; must have magnitude <= 999999999"))
  /\ overflow_error
       (OverflowError (py "Python int too large to convert to C int")).
Proof.
  split.
  - apply (find_closest_sub_overflow (t_ms 0) one_second
             [sub_at "near" 500; far_sub]).
    reflexivity.
  - apply (find_closest_sub_overflow
             {| hours := 30000000000000; minutes := 0; seconds := 0;
                milliseconds := 0 |} one_second []).
    reflexivity.
Defined.

(** Where the closest record sits in the sequence is fixed by the
    distances. *)
Lemma earliest_closest_unique (T : SubRipTime) (b : list SubRipItem) :
  forall (s : SubRipItem) (a b' : list SubRipItem) (s' : SubRipItem)
         (a' : list SubRipItem),
    b ++ s :: a = b' ++ s' :: a' ->
    Forall (fun x => (time_gap T s < time_gap T x)%Z) b ->
    Forall (fun x => (time_gap T s <= time_gap T x)%Z) a ->
    Forall (fun x => (time_gap T s' < time_gap T x)%Z) b' ->
    Forall (fun x => (time_gap T s' <= time_gap T x)%Z) a' ->
    s = s'.
Proof.
  induction b as [|x b IH]; intros s a b' s' a' Heq Hb Ha Hb' Ha'.
  - destruct b' as [|y b']; cbn [app] in Heq.
    + now injection Heq.
    + injection Heq as -> ->. exfalso.
      inversion Hb' as [|? ? Hy _]; subst.
      apply Forall_app in Ha. destruct Ha as [_ Ha].
      inversion Ha; subst. lia.
  - destruct b' as [|y b']; cbn [app] in Heq.
    + injection Heq as -> <-. exfalso.
      inversion Hb as [|? ? Hx _]; subst.
      apply Forall_app in Ha'. destruct Ha' as [_ Ha'].
      inversion Ha'; subst. lia.
    + injection Heq as -> Heq.
      inversion Hb; inversion Hb'; subst. eapply IH; eassumption.
Qed.

(** X2.  The tolerance only filters: the record [find_closest_sub] has in
    view is the earliest of the closest records of the sequence, whatever
    the tolerance.  If it returns a record [s] for one tolerance, then for
    any other tolerance it returns [s] when [s] lies within it, and [None]
    when not. *)
Theorem tolerance_only_filters (T : SubRipTime) (W W' : timedelta)
    (subs : list SubRipItem) (s : SubRipItem) :
  find_closest_sub T subs W = Ok (Some s) ->
  find_closest_sub T subs W'
  = Ok (if (time_gap T s <=? W')%Z then Some s else None).
Proof.
  intros Hrun.
  pose proof (find_closest_sub_ok_representable T W subs _ Hrun) as Hrep.
  destruct (find_closest_sub_returns T W subs Hrep) as (r & m & Hr & Hinv).
  rewrite Hrun in Hr. injection Hr as <-.
  destruct Hinv as (_ & Hw & b & a & Hsplit & Hb & Ha).
  destruct (find_closest_sub_returns T W' subs Hrep)
    as (r' & m' & Hr' & Hinv').
  rewrite Hr'. f_equal.
  destruct r' as [s'|].
  - destruct Hinv' as (_ & Hw' & b' & a' & Hsplit' & Hb' & Ha').
    rewrite Hsplit in Hsplit'.
    pose proof (earliest_closest_unique T b s a b' s' a' Hsplit'
                  Hb Ha Hb' Ha') as <-.
    apply Z.leb_le in Hw'. now rewrite Hw'.
  - destruct Hinv' as [_ Hall]. rewrite Hsplit in Hall.
    apply Forall_app in Hall. destruct Hall as [_ Hall].
    inversion Hall; subst.
    destruct (Z.leb_spec (time_gap T s) W'); [lia|reflexivity].
Qed.

Lemma tolerance_only_filters_witness :
  find_closest_sub (t_ms 1000)
    [sub_at "far" 5000; sub_at "a" 800; sub_at "b" 1200] 100000%Z
  = Ok None.
Proof.
  apply (tolerance_only_filters (t_ms 1000) one_second 100000%Z
           [sub_at "far" 5000; sub_at "a" 800; sub_at "b" 1200]
           (sub_at "a" 800)).
  reflexivity.
Defined.
(* ================================================================= *)
(** ** More on the resolver and on the two normalisations *)

(** X3.  What [find_translation_in_other_lang] returns is all or nothing:
    four [None]s, or the four values of one record of the sibling file.
    That record lies within the tolerance of the given start time, its text
    comes without leading or trailing whitespace, and the path returned is
    the path of the sibling.  The lookup writes nothing to the connection
    and prints nothing. *)
Theorem translation_is_a_sibling_record (fs : FileSystem)
    (directory : pystr) (start_time : SubRipTime)
    (file_path from to : pystr) (tolerance : timedelta)
    (w : World) (tr : Translation) (w' : World) :
  find_translation_in_other_lang fs directory start_time file_path
    from to tolerance w = (Ok tr, w') ->
  (tr = (None, None, None, None) \/
   exists subs c,
     pysrt_open fs (other_lang_file_path file_path from to) = Ok subs /\
     In c subs /\
     (time_gap start_time c <= tolerance)%Z /\
     tr = (Some (strip (text c)), Some (start c), Some (end_ c),
           Some (other_lang_file_path file_path from to)) /\
     outer_ws (strip (text c)) = false) /\
  conn w' = conn w /\ stdout w' = stdout w.
Proof.
  unfold find_translation_in_other_lang.
  fold (other_lang_file_name (basename file_path) from to).
  fold (other_lang_file_path file_path from to).
  destruct (os_path_exists fs (other_lang_file_path file_path from to)).
  - unfold bind, srt_open, lift_res.
    destruct (pysrt_open fs (other_lang_file_path file_path from to))
      as [subs|e] eqn:Hopen; [|discriminate].
    destruct (find_closest_sub start_time subs tolerance) as [r|e] eqn:Hrun;
      [|discriminate].
    pose proof (find_closest_sub_ok_representable start_time tolerance subs
                  _ Hrun) as Hrep.
    destruct (find_closest_sub_returns start_time tolerance subs Hrep)
      as (r' & m & Hr' & Hinv).
    rewrite Hrun in Hr'. injection Hr' as <-.
    destruct r as [c|]; unfold ret; intros [= <- <-];
      (split; [|now split]).
    + right. destruct Hinv as (_ & Hw & b & a & Hsplit & _).
      exists subs, c. split; [reflexivity|].
      split; [rewrite Hsplit; apply in_elt|].
      split; [exact Hw|]. split; [reflexivity|apply strip_outer_ws].
    + now left.
  - unfold ret. intros [= <- <-]. split; [now left|now split].
Qed.

Lemma translation_is_a_sibling_record_witness :
  conn (snd (find_translation_in_other_lang fs_movie (py ".") (t_ms 1000)
               (py "./movie_en.srt") (py "en") (py "ru") one_second
               (world_of healthy)))
  = healthy.
Proof.
  destruct (find_translation_in_other_lang fs_movie (py ".") (t_ms 1000)
              (py "./movie_en.srt") (py "en") (py "ru") one_second
              (world_of healthy)) as [[tr|e] w'] eqn:E.
  - exact (proj1 (proj2 (translation_is_a_sibling_record fs_movie (py ".")
                           (t_ms 1000) (py "./movie_en.srt") (py "en")
                           (py "ru") one_second (world_of healthy) tr w' E))).
  - vm_compute in E. discriminate.
Defined.

(** X4.  [find_translation_in_other_lang] raises only when the sibling file
    exists, and then either what loading the file raised, or the error of
    [timedelta] (an [OverflowError] about a number of days out of range)
    when a time stamp or a distance is out of its range. *)
Theorem translation_lookup_raises (fs : FileSystem)
    (directory : pystr) (start_time : SubRipTime)
    (file_path from to : pystr) (tolerance : timedelta)
    (w : World) (e : exn) (w' : World) :
  find_translation_in_other_lang fs directory start_time file_path
    from to tolerance w = (Raise e, w') ->
  os_path_exists fs (other_lang_file_path file_path from to) = true /\
  (pysrt_open fs (other_lang_file_path file_path from to) = Raise e \/
   exists subs,
     pysrt_open fs (other_lang_file_path file_path from to) = Ok subs /\
     ~ representable start_time subs /\ overflow_error e).
Proof.
  unfold find_translation_in_other_lang.
  fold (other_lang_file_name (basename file_path) from to).
  fold (other_lang_file_path file_path from to).
  destruct (os_path_exists fs (other_lang_file_path file_path from to));
    [|discriminate].
  unfold bind, srt_open, lift_res.
  destruct (pysrt_open fs (other_lang_file_path file_path from to))
    as [subs|e0] eqn:Hopen.
  - destruct (find_closest_sub start_time subs tolerance) as [[c|]|e0]
      eqn:Hrun; try discriminate.
    intros [= <- <-]. split; [reflexivity|]. right. exists subs.
    split; [reflexivity|].
    assert (Hnot : ~ representable start_time subs).
    { intros Hrep.
      destruct (find_closest_sub_returns start_time tolerance subs Hrep)
        as (r & _ & Hr & _). congruence. }
    split; [exact Hnot|].
    destruct (find_closest_sub_unrepresentable start_time tolerance subs
                Hnot) as (e' & He' & Hov).
    congruence.
  - intros [= <- <-]. split; [reflexivity|now left].
Qed.

Lemma translation_lookup_raises_witness :
  overflow_error
    (OverflowError (py "days=1000000000; must have magnitude <= 999999999")).
Proof.
  destruct (translation_lookup_raises fs_far (py ".") (t_ms 1000)
              (py "./movie_en.srt") (py "en") (py "ru") one_second
              (world_of healthy)
              (OverflowError
                 (py "days=1000000000; must have magnitude <= 999999999"))
              (having_opened (world_of healthy) (py "./movie_ru.srt"))
              eq_refl) as (_ & [H|(subs & _ & _ & H)]).
  - vm_compute in H. discriminate.
  - exact H.
Defined.

(* ----------------------------------------------------------------- *)
(** *** The two normalisations *)

Lemma lstrip_fixed (s : pystr) :
  match s with [] => True | c :: _ => isspace c = false end ->
  lstrip s = s.
Proof. destruct s as [|c s]; cbn; [reflexivity|]. now intros ->. Qed.

(** Stripping does nothing to a string without outer whitespace. *)
Lemma strip_fixed (s : pystr) : outer_ws s = false -> strip s = s.
Proof.
  destruct s as [|c t]; [reflexivity|].
  unfold outer_ws. intros H. apply orb_false_elim in H.
  destruct H as [Hc Hl]. unfold strip, rstrip.
  destruct (@exists_last _ (c :: t)) as (l & z & Hz); [discriminate|].
  rewrite Hz in Hl |- *. rewrite last_last in Hl.
  rewrite rev_app_distr. cbn [rev app lstrip]. rewrite Hl.
  change (rev (z :: rev l)) with (rev (rev l) ++ [z]).
  rewrite rev_involutive, <- Hz. cbn [lstrip]. now rewrite Hc.
Qed.

(** Collapsing does nothing to a string without newline and without run. *)
Lemma collapse_fixed (s : pystr) :
  forall b : bool,
    has_ws_run s = false -> ~ In nl s ->
    (b = true -> match s with [] => True | c :: _ => is_sp_nl c = false end) ->
    collapse_from b s = s.
Proof.
  induction s as [|c s IH]; intros b Hrun Hnl Hhead; [reflexivity|].
  assert (Hrun' : has_ws_run s = false).
  { cbn [has_ws_run] in Hrun. destruct s as [|c2 s]; [reflexivity|].
    now apply orb_false_elim in Hrun. }
  assert (Hnl' : ~ In nl s) by (intros H; apply Hnl; now right).
  cbn [collapse_from]. destruct (is_sp_nl c) eqn:E.
  - destruct b; [specialize (Hhead eq_refl); cbn in Hhead; congruence|].
    assert (Hc : c = space).
    { unfold is_sp_nl in E. apply orb_prop in E.
      destruct E as [E|E]; apply N.eqb_eq in E; [exact E|].
      exfalso. apply Hnl. now left. }
    subst c. f_equal. apply IH; trivial. intros _.
    cbn [has_ws_run] in Hrun. destruct s as [|c2 s]; [exact I|].
    apply orb_false_elim in Hrun. destruct Hrun as [Hrun _].
    rewrite E in Hrun. exact Hrun.
  - f_equal. apply IH; trivial. discriminate.
Qed.

(** X5.  The text of a translation and the text of a match are normalised
    alike: the resolver strips the text of the record, the search collapses
    it, strips it again and deletes the tags, and this is what
    [normalize] does to the text of the record in one go. *)
Theorem translation_normalised_like_match (raw : pystr) :
  normalize_translation (strip raw) = normalize raw.
Proof.
  unfold normalize_translation, normalize.
  now rewrite (strip_fixed (re_sub_ws (strip raw)))
    by apply collapse_outer_ws, strip_outer_ws.
Qed.

(** X6.  On a text without italic tags the normalisation is idempotent:
    a normalised text is left as it is. *)
Theorem normalize_idempotent_without_tags (raw : pystr) :
  has_italic_tag raw = false ->
  normalize (normalize raw) = normalize raw.
Proof.
  intros H. rewrite (normalize_no_tag raw H).
  rewrite normalize_no_tag by now apply no_tag_collapse_strip.
  rewrite strip_fixed by apply collapse_outer_ws, strip_outer_ws.
  unfold re_sub_ws at 1. apply collapse_fixed.
  - apply collapse_no_run.
  - apply collapse_no_newline.
  - discriminate.
Qed.

Lemma normalize_idempotent_without_tags_witness :
  normalize (normalize spaced_raw) = normalize spaced_raw.
Proof. apply normalize_idempotent_without_tags. reflexivity. Defined.
(* ================================================================= *)
(** ** More on the search: what it reports and what it leaves alone *)

(** A loop that holds an element whose body meets a match meets a match,
    when the other bodies keep what was found. *)
Lemma for_finds {X} (body : X -> M Search (option bool)) (x : X) :
  (forall s, has_found (body x s)) ->
  (forall y s, found_matches s = true -> has_found (body y s)) ->
  (forall y s e s', body y s = (Raise e, s') -> found_matches s' = true) ->
  forall xs s, In x xs -> has_found (for_ xs body s).
Proof.
  intros Hx Hkeep Hraise.
  assert (Hkept : forall xs s, found_matches s = true ->
                    has_found (for_ xs body s)).
  { induction xs as [|y xs IH]; intros s Hs; [exact Hs|].
    cbn [for_]. unfold bind. specialize (Hkeep y s Hs).
    destruct (body y s) as [[[v|]|e] s']; cbn in *; trivial.
    now apply IH. }
  induction xs as [|y xs IH]; intros s Hin; [contradiction|].
  cbn [for_]. unfold bind. destruct Hin as [->|Hin].
  - specialize (Hx s).
    destruct (body x s) as [[[v|]|e] s']; cbn in *; trivial.
    now apply Hkept.
  - destruct (body y s) as [[[v|]|e] s'] eqn:E; cbn; trivial.
    + now apply IH.
    + exact (Hraise _ _ _ _ E).
Qed.

Section Report.

Variable fs : FileSystem.
Variable lower : pystr -> pystr.
Variables directory search_string lang_suffix other_lang_suffix : pystr.

Local Abbreviation emit :=
  (emit_match fs directory lang_suffix other_lang_suffix).
Local Abbreviation subs_loop :=
  (scan_subs fs lower directory search_string lang_suffix other_lang_suffix).
Local Abbreviation file_step :=
  (scan_file fs lower directory search_string lang_suffix other_lang_suffix).
Local Abbreviation files_loop :=
  (scan_files fs lower directory search_string lang_suffix other_lang_suffix).
Local Abbreviation walk_loop :=
  (scan_walk fs lower directory search_string lang_suffix other_lang_suffix).

Lemma emit_match_has_found (file_path : pystr) (sub : SubRipItem)
    (st : Search) :
  has_found (emit file_path sub st).
Proof.
  rewrite emit_match_steps.
  destruct (find_translation_in_other_lang _ _ _ _ _ _ _ (world st))
    as [[tr|e] w1]; [|reflexivity].
  destruct (sendall _ w1) as [[[]|e] w2]; [|reflexivity].
  now destruct (SEARCH_LIMIT <=? count st + 1).
Qed.

Lemma scan_subs_body_raises (file_path : pystr) (sub : SubRipItem)
    (s : Search) (e : exn) (s' : Search) :
  (if matches lower search_string sub then emit file_path sub
   else ret None) s = (Raise e, s') ->
  found_matches s' = true.
Proof.
  destruct (matches lower search_string sub); [|discriminate].
  intros H. pose proof (emit_match_has_found file_path sub s) as Hf.
  now rewrite H in Hf.
Qed.

Lemma scan_subs_keeps_found (file_path : pystr) (subs : list SubRipItem)
    (st : Search) :
  found_matches st = true -> has_found (subs_loop file_path subs st).
Proof.
  revert st. unfold has_found, scan_subs.
  apply (for_rule (fun s => found_matches s = true) (fun _ => True)).
  intros sub s Hs.
  pose proof (emit_match_has_found file_path sub s) as Hf.
  destruct (matches lower search_string sub); [exact Hf|exact Hs].
Qed.

Lemma scan_subs_finds (file_path : pystr) (subs : list SubRipItem)
    (sub : SubRipItem) (st : Search) :
  In sub subs -> matches lower search_string sub = true ->
  has_found (subs_loop file_path subs st).
Proof.
  intros Hin Hm. unfold scan_subs.
  apply (for_finds _ sub); trivial.
  - intros s. rewrite Hm. apply emit_match_has_found.
  - intros y s Hs. pose proof (emit_match_has_found file_path y s) as Hf.
    destruct (matches lower search_string y); [exact Hf|exact Hs].
  - intros y s e s'. apply scan_subs_body_raises.
Qed.

Lemma scan_file_keeps_found (root file : pystr) (st : Search) :
  found_matches st = true -> has_found (file_step root file st).
Proof.
  intros Hst.
  destruct (endswith file (py "_" ++ lang_suffix ++ py ".srt")) eqn:Hend.
  - rewrite (scan_file_steps _ _ _ _ _ _ _ _ _ Hend).
    destruct (pysrt_open fs _) as [subs|e]; [|exact Hst].
    pose proof (scan_subs_keeps_found (path_join root file) subs
                  (with_world st
                     (having_opened (world st) (path_join root file)))
                  Hst) as H.
    destruct (subs_loop _ subs _) as [[[v|]|e] st']; exact H.
  - now rewrite scan_file_other.
Qed.

Lemma scan_file_finds (root file : pystr) (subs : list SubRipItem)
    (sub : SubRipItem) (st : Search) :
  endswith file (py "_" ++ lang_suffix ++ py ".srt") = true ->
  pysrt_open fs (path_join root file) = Ok subs ->
  In sub subs -> matches lower search_string sub = true ->
  has_found (file_step root file st).
Proof.
  intros Hend Hopen Hin Hm.
  rewrite (scan_file_steps _ _ _ _ _ _ _ _ _ Hend), Hopen.
  pose proof (scan_subs_finds (path_join root file) subs sub
                (with_world st
                   (having_opened (world st) (path_join root file)))
                Hin Hm) as H.
  destruct (subs_loop _ subs _) as [[[v|]|e] st']; exact H.
Qed.

Lemma scan_files_keeps_found (root : pystr) (files : list pystr)
    (st : Search) :
  found_matches st = true -> has_found (files_loop root files st).
Proof.
  revert st. unfold has_found, scan_files.
  apply (for_rule (fun s => found_matches s = true) (fun _ => True)).
  intros file s Hs. exact (scan_file_keeps_found root file s Hs).
Qed.

Lemma scan_walk_finds (walk : list (pystr * list pystr * list pystr))
    (root : pystr) (dirs files : list pystr) (file : pystr)
    (subs : list SubRipItem) (sub : SubRipItem) (st : Search) :
  In (root, dirs, files) walk -> In file files ->
  endswith file (py "_" ++ lang_suffix ++ py ".srt") = true ->
  pysrt_open fs (path_join root file) = Ok subs ->
  In sub subs -> matches lower search_string sub = true ->
  has_found (walk_loop walk st).
Proof.
  intros Hwalk Hfile Hend Hopen Hin Hm. unfold scan_walk.
  apply (for_finds _ (root, dirs, files)); trivial.
  - intros s. unfold scan_files. apply (for_finds _ file); trivial.
    + intros s0. exact (scan_file_finds root file subs sub s0 Hend Hopen
                          Hin Hm).
    + intros y s0. apply scan_file_keeps_found.
    + intros y s0 e s' H. exfalso.
      exact (scan_file_no_raise _ _ _ _ _ _ _ _ _ _ _ H).
  - intros [[r d] f] s. apply scan_files_keeps_found.
  - intros [[r d] f] s e s' H. exfalso.
    exact (scan_files_no_raise _ _ _ _ _ _ _ _ _ _ _ H).
Qed.

End Report.

(** X7.  [stream_subtitle_search] reports [False] exactly when no record of
    a primary-language file that the walk lists and that can be loaded
    matches the query; a match that was met makes it report [True] even if
    its frame could not be written.  When it reports [False], it has not
    touched the connection. *)
Theorem search_reports_matches (fs : FileSystem) (lower : pystr -> pystr)
    (directory search_string : pystr) (w : World) :
  (fst (stream_subtitle_search fs lower directory search_string w) = Ok false
   <-> no_match fs lower directory search_string) /\
  (fst (stream_subtitle_search fs lower directory search_string w) = Ok false
   -> conn (snd (stream_subtitle_search fs lower directory search_string w))
      = conn w).
Proof.
  assert (Hsilent : no_match fs lower directory search_string ->
            fst (stream_subtitle_search fs lower directory search_string w)
            = Ok false /\
            conn (snd (stream_subtitle_search fs lower directory
                         search_string w)) = conn w).
  { intros Hnone.
    destruct (stream_silent fs lower directory search_string (conn w) w
                Hnone eq_refl) as (w' & -> & Hc). now split. }
  assert (Hfalse :
            fst (stream_subtitle_search fs lower directory search_string w)
            = Ok false ->
            no_match fs lower directory search_string).
  { intros Hrun root dirs files file subs sub Hwalk Hfile Hend Hopen Hin.
    destruct (matches lower search_string sub) eqn:Hm; [|reflexivity].
    exfalso. unfold stream_subtitle_search in Hrun.
    rewrite run_search_walk in Hrun.
    pose proof (scan_walk_finds fs lower directory search_string
                  (fst (lang_suffixes search_string))
                  (snd (lang_suffixes search_string))
                  (os_walk fs directory) root dirs files file subs sub
                  {| world := w; found_matches := false; count := 0 |}
                  Hwalk Hfile Hend Hopen Hin Hm) as Hfound.
    destruct (scan_walk _ _ _ _ _ _ _ _) as [[[v|]|e] st] eqn:E;
      cbn in Hrun, Hfound.
    - rewrite (scan_walk_returns _ _ _ _ _ _ _ _ _ _ E) in Hrun.
      discriminate.
    - rewrite Hfound in Hrun. discriminate.
    - discriminate. }
  split; [split|].
  - exact Hfalse.
  - intros H. exact (proj1 (Hsilent H)).
  - intros H. exact (proj2 (Hsilent (Hfalse H))).
Qed.

Lemma search_reports_matches_witness :
  fst (stream_subtitle_search fs_lonely ascii_lower (py ".") (py "goodbye")
         (world_of healthy)) = Ok false.
Proof.
  apply (search_reports_matches fs_lonely ascii_lower (py ".")
           (py "goodbye") (world_of healthy)).
  exact no_match_goodbye.
Defined.

(* ----------------------------------------------------------------- *)
(** *** What the search leaves alone *)

Lemma follows_refl (allowed : pystr -> Prop) (w : World) :
  follows allowed w w.
Proof.
  split; [reflexivity|]. split; exists []; now rewrite app_nil_r.
Qed.

Lemma follows_trans (allowed : pystr -> Prop) (w1 w2 w3 : World) :
  follows allowed w1 w2 -> follows allowed w2 w3 -> follows allowed w1 w3.
Proof.
  intros (Hc & (p & Hp & Hpa) & (l & Hl & Hla))
         (Hc' & (p' & Hp' & Hpa') & (l' & Hl' & Hla')).
  split; [congruence|]. split.
  - exists (p ++ p'). rewrite Hp', Hp, app_assoc. split; [reflexivity|].
    apply Forall_app. now split.
  - exists (l ++ l'). rewrite Hl', Hl, app_assoc. split; [reflexivity|].
    apply Forall_app. now split.
Qed.

Lemma sendall_follows (allowed : pystr -> Prop) (data : pystr) (w : World) :
  follows allowed w (snd (sendall data w)).
Proof.
  unfold sendall. destruct (closed (conn w)) eqn:Hc; [apply follows_refl|].
  destruct (faults (conn w)) as [|[e|] rest]; cbn;
    (split; [cbn; congruence|]); split; exists []; cbn;
    now rewrite app_nil_r.
Qed.

Lemma print_error_follows (allowed : pystr -> Prop) (file_path : pystr)
    (e : exn) (w : World) :
  follows allowed w (printed w (error_line file_path e)).
Proof.
  split; [reflexivity|]. split.
  - exists []. cbn. now rewrite app_nil_r.
  - exists [error_line file_path e]. split; [reflexivity|].
    constructor; [|constructor]. now exists file_path, e.
Qed.

Lemma open_follows (allowed : pystr -> Prop) (path : pystr) (w : World) :
  allowed path -> follows allowed w (having_opened w path).
Proof.
  intros H. split; [reflexivity|]. split.
  - exists [path]. split; [reflexivity|]. now constructor.
  - exists []. cbn. now rewrite app_nil_r.
Qed.

Section Orderly.

Variable fs : FileSystem.
Variable lower : pystr -> pystr.
Variables directory search_string lang_suffix other_lang_suffix : pystr.
Variable allowed : pystr -> Prop.

Local Abbreviation emit :=
  (emit_match fs directory lang_suffix other_lang_suffix).
Local Abbreviation subs_loop :=
  (scan_subs fs lower directory search_string lang_suffix other_lang_suffix).
Local Abbreviation file_step :=
  (scan_file fs lower directory search_string lang_suffix other_lang_suffix).

Lemma resolve_follows (start_time : SubRipTime) (file_path : pystr)
    (tolerance : timedelta) (w : World) :
  allowed (other_lang_file_path file_path lang_suffix other_lang_suffix) ->
  follows allowed w
    (snd (find_translation_in_other_lang fs directory start_time file_path
            lang_suffix other_lang_suffix tolerance w)).
Proof.
  intros Hsib. unfold find_translation_in_other_lang.
  fold (other_lang_file_name (basename file_path) lang_suffix
          other_lang_suffix).
  fold (other_lang_file_path file_path lang_suffix other_lang_suffix).
  destruct (os_path_exists fs _); [|apply follows_refl].
  unfold bind, srt_open, lift_res.
  destruct (pysrt_open fs _) as [subs|e]; [|now apply open_follows].
  destruct (find_closest_sub start_time subs tolerance) as [[c|]|e];
    now apply open_follows.
Qed.

Lemma emit_match_follows (file_path : pystr) (sub : SubRipItem)
    (st : Search) :
  allowed (other_lang_file_path file_path lang_suffix other_lang_suffix) ->
  follows allowed (world st) (world (snd (emit file_path sub st))).
Proof.
  intros Hsib. rewrite emit_match_steps.
  pose proof (resolve_follows (start sub) file_path one_second (world st)
                Hsib) as H1.
  destruct (find_translation_in_other_lang _ _ _ _ _ _ _ (world st))
    as [[tr|e] w1]; cbn [snd] in H1; [|exact H1].
  pose proof (sendall_follows allowed
                (format_single_result
                   (build_result lang_suffix other_lang_suffix file_path
                      sub tr)) w1) as H2.
  destruct (sendall _ w1) as [[[]|e] w2]; cbn [snd] in H2 |- *;
    exact (follows_trans _ _ _ _ H1 H2).
Qed.

Lemma scan_subs_follows (w0 : World) (file_path : pystr)
    (subs : list SubRipItem) (st : Search) :
  allowed (other_lang_file_path file_path lang_suffix other_lang_suffix) ->
  follows allowed w0 (world st) ->
  follows allowed w0 (world (snd (subs_loop file_path subs st))).
Proof.
  intros Hsib Hst.
  assert (H : match subs_loop file_path subs st with
              | (Ok (Some _), s') => follows allowed w0 (world s')
              | (_, s') => follows allowed w0 (world s')
              end).
  { revert st Hst. unfold scan_subs. apply for_rule. intros sub s Hs.
    pose proof (emit_match_follows file_path sub s Hsib) as H.
    destruct (matches lower search_string sub).
    - destruct (emit file_path sub s) as [[[v|]|e] s']; cbn [snd] in H;
        exact (follows_trans _ _ _ _ Hs H).
    - exact Hs. }
  destruct (subs_loop file_path subs st) as [[[v|]|e] s']; exact H.
Qed.

Lemma scan_file_follows (w0 : World) (root file : pystr) (st : Search) :
  (endswith file (py "_" ++ lang_suffix ++ py ".srt") = true ->
   allowed (path_join root file) /\
   allowed (other_lang_file_path (path_join root file) lang_suffix
              other_lang_suffix)) ->
  follows allowed w0 (world st) ->
  follows allowed w0 (world (snd (file_step root file st))).
Proof.
  intros Hallowed Hst.
  destruct (endswith file (py "_" ++ lang_suffix ++ py ".srt")) eqn:Hend.
  - destruct (Hallowed eq_refl) as [Hpath Hsib].
    rewrite (scan_file_steps _ _ _ _ _ _ _ _ _ Hend).
    assert (Hopen : follows allowed w0
                      (having_opened (world st) (path_join root file))).
    { exact (follows_trans _ _ _ _ Hst (open_follows _ _ _ Hpath)). }
    destruct (pysrt_open fs _) as [subs|e].
    + pose proof (scan_subs_follows w0 (path_join root file) subs
                    (with_world st
                       (having_opened (world st) (path_join root file)))
                    Hsib Hopen) as H.
      destruct (subs_loop _ subs _) as [[[v|]|e] st']; cbn [snd] in H |- *;
        trivial.
      exact (follows_trans _ _ _ _ H (print_error_follows _ _ _ _)).
    + cbn [snd]. unfold logged, with_world. cbn [world].
      exact (follows_trans _ _ _ _ Hopen (print_error_follows _ _ _ _)).
  - now rewrite scan_file_other.
Qed.

End Orderly.

Lemma stream_follows (fs : FileSystem) (lower : pystr -> pystr)
    (directory search_string : pystr) (w : World) :
  follows
    (may_open fs directory (fst (lang_suffixes search_string))
       (snd (lang_suffixes search_string)))
    w (snd (stream_subtitle_search fs lower directory search_string w)).
Proof.
  unfold stream_subtitle_search. rewrite run_search_walk.
  set (lang := fst (lang_suffixes search_string)).
  set (other := snd (lang_suffixes search_string)).
  set (allowed := may_open fs directory lang other).
  assert (H : match scan_walk fs lower directory search_string lang other
                      (os_walk fs directory)
                      {| world := w; found_matches := false; count := 0 |}
              with
              | (Ok (Some _), s') => follows allowed w (world s')
              | (_, s') => follows allowed w (world s')
              end).
  { unfold scan_walk.
    apply (for_rule_in (fun s => follows allowed w (world s))
             (fun s => follows allowed w (world s)));
      [|apply follows_refl].
    intros [[root dirs] files] s Hwalk Hs. revert s Hs. unfold scan_files.
    apply (for_rule_in (fun s => follows allowed w (world s))
             (fun s => follows allowed w (world s))).
    intros file s Hfile Hs.
    pose proof (scan_file_follows fs lower directory search_string lang other
                  allowed w root file s) as H.
    assert (Hok : endswith file (py "_" ++ lang ++ py ".srt") = true ->
                  allowed (path_join root file) /\
                  allowed (other_lang_file_path (path_join root file)
                             lang other)).
    { intros Hend. split; exists root, dirs, files, file; auto. }
    specialize (H Hok Hs).
    destruct (scan_file _ _ _ _ _ _ root file s) as [[[v|]|e] s'];
      exact H. }
  destruct (scan_walk _ _ _ _ _ _ _ _) as [[[v|]|e] st]; exact H.
Qed.

(** X8.  A search never closes the connection; the files it opens are
    primary-language files that the walk lists and siblings of such files,
    and no others; and it prints nothing but the error lines of its
    handler. *)
Theorem search_is_orderly (fs : FileSystem) (lower : pystr -> pystr)
    (directory search_string : pystr) (w : World) :
  follows
    (may_open fs directory (fst (lang_suffixes search_string))
       (snd (lang_suffixes search_string)))
    w (snd (stream_subtitle_search fs lower directory search_string w)).
Proof. apply stream_follows. Qed.
(* ================================================================= *)
(** ** More on [handle_client]: how a session ends *)

(** A relation between states that holds along the steps of a computation
    holds along the computation. *)
Lemma bind_along {S A B} (R : S -> S -> Prop) (m : M S A) (k : A -> M S B) :
  (forall s1 s2 s3, R s1 s2 -> R s2 s3 -> R s1 s3) ->
  (forall s, R s (snd (m s))) ->
  (forall a s, R s (snd (k a s))) ->
  forall s, R s (snd (bind m k s)).
Proof.
  intros Htrans Hm Hk s. unfold bind. specialize (Hm s).
  destruct (m s) as [[a|e] s']; cbn [snd] in *; [|exact Hm].
  exact (Htrans _ _ _ Hm (Hk a s')).
Qed.

Lemma grows_refl (w : World) : grows w w.
Proof. exists []. now rewrite app_nil_r. Qed.

Lemma grows_trans (w1 w2 w3 : World) :
  grows w1 w2 -> grows w2 w3 -> grows w1 w3.
Proof.
  intros [l Hl] [l' Hl']. exists (l ++ l'). now rewrite Hl', Hl, app_assoc.
Qed.

Section Session.

Variable fs : FileSystem.
Variable lower : pystr -> pystr.

(** The session, step by step: the line of the new connection, the loop,
    the line of an exception that left the loop, and the [finally] part. *)
Lemma handle_client_steps (inbox : list (res pystr))
    (addr subtitles_directory : pystr) (w : World) :
  handle_client fs lower inbox addr subtitles_directory w
  = match serve fs lower inbox addr subtitles_directory
            (printed w (connected_line addr)) with
    | (Ok _, w1) =>
        (Ok tt, printed (closed_conn w1) (disconnected_line addr))
    | (Raise e, w1) =>
        (Ok tt,
         printed (closed_conn (printed w1 (session_error_line e)))
           (disconnected_line addr))
    end.
Proof.
  unfold handle_client.
  rewrite (bind_ok (print (connected_line addr)) _ w tt
             (printed w (connected_line addr)) eq_refl).
  unfold try_finally, try_except.
  destruct (serve fs lower inbox addr subtitles_directory
              (printed w (connected_line addr))) as [[[]|e] w1];
    reflexivity.
Qed.

(** A message that is empty or blank ends the loop. *)
Lemma serve_blank (data : pystr) (rest : list (res pystr))
    (addr subtitles_directory : pystr) (w : World) :
  strip data = [] ->
  serve fs lower (Ok data :: rest) addr subtitles_directory w = (Ok tt, w).
Proof.
  intros H. cbn [serve].
  rewrite (bind_ok (lift_res (Ok data)) _ w data w eq_refl).
  now rewrite H.
Qed.

Lemma sendall_grows (data : pystr) (w : World) :
  grows w (snd (sendall data w)).
Proof.
  exists []. rewrite app_nil_r. apply sendall_sent.
Qed.

Lemma serve_query_grows (addr subtitles_directory search_str : pystr)
    (w : World) :
  grows w (snd (serve_query fs lower addr subtitles_directory search_str w)).
Proof.
  unfold serve_query. revert w.
  apply (bind_along grows); [exact grows_trans| |].
  - intros w. now exists [py "[SEARCH] Client " ++ addr
                         ++ py " searching for: '" ++ search_str ++ py "'"].
  - intros _. apply (bind_along grows); [exact grows_trans| |].
    + intros w.
      destruct (stream_follows fs lower subtitles_directory search_str w)
        as (_ & _ & lines & Hl & _).
      now exists lines.
    + intros found. apply (bind_along grows); [exact grows_trans| |].
      * intros w. destruct (negb found); [apply sendall_grows|].
        apply grows_refl.
      * intros _ w. apply sendall_grows.
Qed.

Lemma serve_grows (inbox : list (res pystr))
    (addr subtitles_directory : pystr) (w : World) :
  grows w (snd (serve fs lower inbox addr subtitles_directory w)).
Proof.
  revert w. induction inbox as [|received rest IH]; intros w.
  - apply grows_refl.
  - cbn [serve]. revert w.
    apply (bind_along grows); [exact grows_trans| |].
    + intros w. apply grows_refl.
    + intros data w. destruct (strip data); [apply grows_refl|].
      revert w. apply (bind_along grows); [exact grows_trans| |].
      * intros w. apply serve_query_grows.
      * intros _ w. apply IH.
Qed.

(** A blank message met in the loop ends it as a closed connection does:
    what comes after it is not read. *)
Lemma serve_app_blank (pre : list (res pystr)) (data : pystr)
    (rest : list (res pystr)) (addr subtitles_directory : pystr) :
  strip data = [] ->
  forall w,
    serve fs lower (pre ++ Ok data :: rest) addr subtitles_directory w
    = serve fs lower pre addr subtitles_directory w.
Proof.
  intros Hblank. induction pre as [|received pre IH]; intros w.
  - cbn [app]. now rewrite serve_blank.
  - cbn [app serve]. destruct received as [d|e]; [|reflexivity].
    rewrite !(bind_ok (lift_res (Ok d)) _ w d w eq_refl).
    destruct (strip d) as [|c t]; [reflexivity|].
    unfold bind.
    destruct (serve_query fs lower addr subtitles_directory (c :: t) w)
      as [[[]|e] w2]; [apply IH|reflexivity].
Qed.

(** After rounds that have all completed, the loop goes on with what is
    received next. *)
Lemma serve_app_queries (pre more : list (res pystr))
    (addr subtitles_directory : pystr) :
  forallb is_query pre = true ->
  forall w w1,
    serve fs lower pre addr subtitles_directory w = (Ok tt, w1) ->
    serve fs lower (pre ++ more) addr subtitles_directory w
    = serve fs lower more addr subtitles_directory w1.
Proof.
  induction pre as [|received pre IH]; intros Hpre w w1 Hrun.
  - cbn in Hrun. now injection Hrun as <-.
  - cbn [forallb] in Hpre. apply andb_prop in Hpre.
    destruct Hpre as [Hq Hpre].
    destruct received as [d|e]; [|discriminate].
    cbn [is_query] in Hq. cbn [app serve] in Hrun |- *.
    rewrite (bind_ok (lift_res (Ok d)) _ w d w eq_refl) in Hrun.
    rewrite (bind_ok (lift_res (Ok d)) _ w d w eq_refl).
    destruct (strip d) as [|c t]; [discriminate|].
    unfold bind in Hrun |- *.
    destruct (serve_query fs lower addr subtitles_directory (c :: t) w)
      as [[[]|e] w2]; [|discriminate].
    now apply IH.
Qed.

End Session.

(** X9.  [handle_client] never raises and always closes the connection:
    whatever is received, and whatever fails while the queries are served,
    the session ends with the connection closed, and the line of the new
    connection is the first and the line of the disconnection the last that
    it prints. *)
Theorem session_always_closes (fs : FileSystem) (lower : pystr -> pystr)
    (inbox : list (res pystr)) (addr subtitles_directory : pystr)
    (w : World) :
  exists w',
    handle_client fs lower inbox addr subtitles_directory w = (Ok tt, w') /\
    closed (conn w') = true /\
    exists lines,
      stdout w'
      = stdout w ++ [connected_line addr] ++ lines
        ++ [disconnected_line addr].
Proof.
  rewrite handle_client_steps.
  destruct (serve_grows fs lower inbox addr subtitles_directory
              (printed w (connected_line addr))) as [lines Hl].
  destruct (serve fs lower inbox addr subtitles_directory
              (printed w (connected_line addr))) as [[[]|e] w1];
    cbn [snd] in Hl; eexists; (split; [reflexivity|]);
    (split; [reflexivity|]); cbn [stdout printed closed_conn set_conn];
    rewrite Hl; cbn [stdout printed].
  - exists lines. now rewrite <- !app_assoc.
  - exists (lines ++ [session_error_line e]). now rewrite <- !app_assoc.
Qed.

(** X10.  A received message that is empty or blank ends the session, in
    whatever round it arrives: nothing is searched or written for it, and
    what the peer sends after it is never read; the session ends as it does
    when the peer closes at that point.  When it is the first message, the
    session has printed its two lines and closed the connection, no more. *)
Theorem blank_query_ends_session (fs : FileSystem)
    (lower : pystr -> pystr) (pre : list (res pystr)) (data : pystr)
    (rest : list (res pystr)) (addr subtitles_directory : pystr)
    (w : World) :
  strip data = [] ->
  handle_client fs lower (pre ++ Ok data :: rest) addr subtitles_directory w
  = handle_client fs lower pre addr subtitles_directory w /\
  handle_client fs lower (Ok data :: rest) addr subtitles_directory w
  = (Ok tt,
     printed (closed_conn (printed w (connected_line addr)))
       (disconnected_line addr)).
Proof.
  intros H. rewrite !handle_client_steps.
  rewrite (serve_app_blank fs lower pre data rest _ _ H).
  now rewrite (serve_blank _ _ _ _ _ _ _ H).
Qed.

Lemma blank_query_ends_session_witness :
  handle_client fs_lonely ascii_lower
    [Ok (py "hello"); Ok (py "  " ++ [nl]); Ok (py "hello")]
    (py "peer") (py ".") (world_of healthy)
  = handle_client fs_lonely ascii_lower [Ok (py "hello")] (py "peer")
      (py ".") (world_of healthy).
Proof.
  apply (blank_query_ends_session fs_lonely ascii_lower [Ok (py "hello")]
           (py "  " ++ [nl]) [Ok (py "hello")] (py "peer") (py ".")
           (world_of healthy)).
  reflexivity.
Defined.

(** X11.  When reading from the connection raises, in whatever round, the
    session ends: after the rounds that have completed, the exception is
    printed as [[ERROR] ...], nothing more is written, no file is opened,
    the connection is closed, what would be received later is never read,
    and the handler itself does not raise. *)
Theorem receive_failure_ends_session (fs : FileSystem)
    (lower : pystr -> pystr) (pre : list (res pystr)) (e : exn)
    (rest : list (res pystr)) (addr subtitles_directory : pystr)
    (w w1 : World) :
  forallb is_query pre = true ->
  serve fs lower pre addr subtitles_directory
    (printed w (connected_line addr)) = (Ok tt, w1) ->
  handle_client fs lower (pre ++ Raise e :: rest) addr subtitles_directory w
  = (Ok tt,
     {| conn := {| sent := sent (conn w1); faults := faults (conn w1);
                   closed := true |};
        stdout := stdout w1 ++ [session_error_line e;
                                disconnected_line addr];
        opened := opened w1 |}).
Proof.
  intros Hpre Hrun. rewrite handle_client_steps.
  rewrite (serve_app_queries fs lower pre _ addr subtitles_directory Hpre
             _ _ Hrun).
  cbn [serve]. unfold bind, lift_res, printed, closed_conn, set_conn. cbn.
  now rewrite <- !app_assoc.
Qed.

Lemma receive_failure_ends_session_witness :
  stdout (snd (handle_client fs_lonely ascii_lower
                 [Ok (py "hello"); Raise reset_by_peer; Ok (py "hello")]
                 (py "peer") (py ".") (world_of healthy)))
  = [connected_line (py "peer");
     py "[SEARCH] Client peer searching for: 'hello'";
     py "[ERROR] [Errno 104] Connection reset by peer";
     disconnected_line (py "peer")] /\
  sent (conn (snd (handle_client fs_lonely ascii_lower
                     [Ok (py "hello"); Raise reset_by_peer; Ok (py "hello")]
                     (py "peer") (py ".") (world_of healthy))))
  = sent (conn (snd (serve_query fs_lonely ascii_lower (py "peer") (py ".")
                       (py "hello") (world_of healthy)))).
Proof.
  pose proof (receive_failure_ends_session fs_lonely ascii_lower
             [Ok (py "hello")] reset_by_peer [Ok (py "hello")] (py "peer")
             (py ".") (world_of healthy)
             (snd (serve fs_lonely ascii_lower [Ok (py "hello")] (py "peer")
                     (py ".")
                     (printed (world_of healthy)
                        (connected_line (py "peer")))))
             eq_refl eq_refl) as H.
  cbn [app] in H. rewrite H. split; reflexivity.
Defined.

(** X12.  When a query has no match and the write of the notice fails, in
    whatever round, the session ends there: after the rounds that have
    completed, the exception is printed as [[ERROR] ...], nothing more has
    been written, the end marker is not attempted (the next scripted outcome
    of the connection is left unused), the connection is closed, and the
    messages that follow are never read. *)
Theorem notice_failure_ends_session (fs : FileSystem)
    (lower : pystr -> pystr) (pre : list (res pystr)) (data : pystr)
    (rest : list (res pystr)) (addr subtitles_directory : pystr)
    (w w1 : World) (e : exn) (later : list (option exn)) :
  forallb is_query pre = true ->
  serve fs lower pre addr subtitles_directory
    (printed w (connected_line addr)) = (Ok tt, w1) ->
  strip data <> [] ->
  no_match fs lower subtitles_directory (strip data) ->
  closed (conn w1) = false ->
  faults (conn w1) = Some e :: later ->
  exists w',
    handle_client fs lower (pre ++ Ok data :: rest) addr
      subtitles_directory w
    = (Ok tt, w') /\
    conn w' = {| sent := sent (conn w1); faults := later; closed := true |} /\
    (exists lines,
       stdout w'
       = stdout w1 ++ lines
         ++ [session_error_line e; disconnected_line addr]) /\
    handle_client fs lower (pre ++ Ok data :: rest) addr
      subtitles_directory w
    = handle_client fs lower (pre ++ [Ok data]) addr subtitles_directory w.
Proof.
  intros Hpre Hpast Hquery Hnone Hclosed Hfaults.
  set (line := py "[SEARCH] Client " ++ addr ++ py " searching for: '"
               ++ strip data ++ py "'").
  destruct (stream_silent fs lower subtitles_directory (strip data)
              (conn w1) (printed w1 line) Hnone eq_refl)
    as (w2 & Hrun & Hconn).
  pose proof (stream_follows fs lower subtitles_directory (strip data)
                (printed w1 line)) as (_ & _ & lines & Hlines & _).
  rewrite Hrun in Hlines. cbn [snd] in Hlines.
  assert (Hround :
            serve_query fs lower addr subtitles_directory (strip data) w1
            = (Raise e,
               set_conn w2 {| sent := sent (conn w1); faults := later;
                              closed := false |})).
  { unfold serve_query. fold line.
    rewrite (bind_ok (print line) _ w1 tt (printed w1 line) eq_refl).
    rewrite (bind_ok _ _ _ _ _ Hrun). cbn [negb].
    unfold bind at 1, sendall at 1.
    now rewrite Hconn, Hclosed, Hfaults. }
  assert (Hloop : forall rest',
            serve fs lower (pre ++ Ok data :: rest') addr
              subtitles_directory (printed w (connected_line addr))
            = (Raise e,
               set_conn w2 {| sent := sent (conn w1); faults := later;
                              closed := false |})).
  { intros rest'.
    rewrite (serve_app_queries fs lower pre _ addr subtitles_directory Hpre
               _ _ Hpast).
    cbn [serve].
    rewrite (bind_ok (lift_res (Ok data)) _ w1 data w1 eq_refl).
    destruct (strip data) as [|c t] eqn:Hs; [contradiction|].
    unfold bind at 1. now rewrite Hround. }
  rewrite !handle_client_steps, (Hloop rest), (Hloop []).
  eexists. split; [reflexivity|]. split; [|split; [|reflexivity]].
  - reflexivity.
  - exists ([line] ++ lines). cbn [stdout printed closed_conn set_conn].
    rewrite Hlines. cbn [stdout printed]. now rewrite <- !app_assoc.
Qed.

Lemma notice_failure_ends_session_witness :
  conn (snd (handle_client fs_lonely ascii_lower
               [Ok (py "goodbye"); Ok (py "goodbye"); Ok (py "hello")]
               (py "peer") (py ".") (world_of failing_third)))
  = {| sent := [no_results_msg; END_MARKER]; faults := []; closed := true |}.
Proof.
  destruct (notice_failure_ends_session fs_lonely ascii_lower
              [Ok (py "goodbye")] (py "goodbye") [Ok (py "hello")]
              (py "peer") (py ".") (world_of failing_third)
              (snd (serve fs_lonely ascii_lower [Ok (py "goodbye")]
                      (py "peer") (py ".")
                      (printed (world_of failing_third)
                         (connected_line (py "peer")))))
              broken_pipe [])
    as (w' & Hrun & Hconn & _).
  - reflexivity.
  - reflexivity.
  - discriminate.
  - exact no_match_goodbye.
  - reflexivity.
  - reflexivity.
  - cbn [app] in Hrun. rewrite Hrun. exact Hconn.
Defined.
(* ================================================================= *)
(** ** A query keeps no state *)

(** Two runs of a loop from related states, whose body keeps the relation
    and returns the same in both, return the same and end related. *)
Lemma for_related {S X R} (rel : S -> S -> Prop)
    (body : X -> M S (option R)) :
  (forall x s1 s2, rel s1 s2 ->
     fst (body x s1) = fst (body x s2) /\
     rel (snd (body x s1)) (snd (body x s2))) ->
  forall xs s1 s2, rel s1 s2 ->
    fst (for_ xs body s1) = fst (for_ xs body s2) /\
    rel (snd (for_ xs body s1)) (snd (for_ xs body s2)).
Proof.
  intros Hbody. induction xs as [|x xs IH]; intros s1 s2 Hs.
  - now split.
  - cbn [for_]. unfold bind.
    destruct (Hbody x s1 s2 Hs) as [Hr Hrel].
    destruct (body x s1) as [r1 t1], (body x s2) as [r2 t2].
    cbn [fst snd] in Hr, Hrel. subst r2.
    destruct r1 as [[v|]|e]; [now split| |now split].
    exact (IH t1 t2 Hrel).
Qed.

Section Stateless.

Variable fs : FileSystem.
Variable lower : pystr -> pystr.
Variables directory search_string lang_suffix other_lang_suffix : pystr.
Variables sent1 sent2 : list pystr.

Local Abbreviation emit :=
  (emit_match fs directory lang_suffix other_lang_suffix).
Local Abbreviation subs_loop :=
  (scan_subs fs lower directory search_string lang_suffix other_lang_suffix).
Local Abbreviation file_step :=
  (scan_file fs lower directory search_string lang_suffix other_lang_suffix).
Local Abbreviation walk_loop :=
  (scan_walk fs lower directory search_string lang_suffix other_lang_suffix).

Lemma in_step_same_conn (st1 st2 st1' st2' : Search) :
  conn (world st1') = conn (world st1) ->
  conn (world st2') = conn (world st2) ->
  found_matches st1' = found_matches st2' ->
  count st1' = count st2' ->
  in_step sent1 sent2 st1 st2 -> in_step sent1 sent2 st1' st2'.
Proof.
  intros H1 H2 Hf Hc (Hs1 & Hs2 & _ & _ & Hframes).
  unfold in_step. rewrite H1, H2. auto.
Qed.

Lemma emit_match_in_step (file_path : pystr) (sub : SubRipItem)
    (st1 st2 : Search) :
  in_step sent1 sent2 st1 st2 ->
  fst (emit file_path sub st1) = fst (emit file_path sub st2) /\
  in_step sent1 sent2 (snd (emit file_path sub st1))
    (snd (emit file_path sub st2)).
Proof.
  intros Hst. rewrite !emit_match_steps.
  pose proof (resolve_result fs directory lang_suffix other_lang_suffix
                (start sub) file_path one_second (world st1) (world st2))
    as Hres.
  pose proof (resolve_conn fs directory lang_suffix other_lang_suffix
                (start sub) file_path one_second (world st1)) as [Hc1 _].
  pose proof (resolve_conn fs directory lang_suffix other_lang_suffix
                (start sub) file_path one_second (world st2)) as [Hc2 _].
  destruct (find_translation_in_other_lang _ _ _ _ _ _ _ (world st1))
    as [r1 w1].
  destruct (find_translation_in_other_lang _ _ _ _ _ _ _ (world st2))
    as [r2 w2].
  cbn [fst snd] in Hres, Hc1, Hc2. subst r2.
  destruct r1 as [tr|e].
  - destruct Hst as (Hs1 & Hs2 & Hf & Hc & frames & Hsent1 & Hsent2).
    rewrite <- Hc1 in Hs1, Hsent1. rewrite <- Hc2 in Hs2, Hsent2.
    destruct (sendall_sound
                (format_single_result
                   (build_result lang_suffix other_lang_suffix file_path
                      sub tr)) w1 Hs1) as (w1' & -> & Hs1' & Hsent1').
    destruct (sendall_sound
                (format_single_result
                   (build_result lang_suffix other_lang_suffix file_path
                      sub tr)) w2 Hs2) as (w2' & -> & Hs2' & Hsent2').
    rewrite Hc. split; [reflexivity|]. cbn [snd].
    unfold in_step. cbn [world with_world counted found_matches count].
    split; [exact Hs1'|]. split; [exact Hs2'|]. split; [reflexivity|].
    split; [now rewrite Hc|].
    exists (frames ++ [format_single_result
                         (build_result lang_suffix other_lang_suffix
                            file_path sub tr)]).
    rewrite Hsent1', Hsent2', Hsent1, Hsent2. now rewrite !app_assoc.
  - split; [reflexivity|]. cbn [snd].
    destruct Hst as (Hs1 & Hs2 & Hf & Hc & Hframes).
    apply (in_step_same_conn st1 st2); cbn; auto.
    unfold in_step. auto.
Qed.

Lemma scan_file_in_step (root file : pystr) (st1 st2 : Search) :
  in_step sent1 sent2 st1 st2 ->
  fst (file_step root file st1) = fst (file_step root file st2) /\
  in_step sent1 sent2 (snd (file_step root file st1))
    (snd (file_step root file st2)).
Proof.
  intros Hst.
  destruct (endswith file (py "_" ++ lang_suffix ++ py ".srt")) eqn:Hend.
  - rewrite !(scan_file_steps _ _ _ _ _ _ _ _ _ Hend).
    destruct (pysrt_open fs _) as [subs|e].
    + assert (Hopen : in_step sent1 sent2
                (with_world st1
                   (having_opened (world st1) (path_join root file)))
                (with_world st2
                   (having_opened (world st2) (path_join root file))))
        by exact Hst.
      destruct (for_related (in_step sent1 sent2)
                  (fun sub =>
                     if matches lower search_string sub
                     then emit (path_join root file) sub
                     else ret None)
                  (fun sub s1 s2 Hs =>
                     match matches lower search_string sub as b
                       return
                         fst ((if b then emit (path_join root file) sub
                               else ret None) s1)
                         = fst ((if b then emit (path_join root file) sub
                                 else ret None) s2) /\
                         in_step sent1 sent2
                           (snd ((if b then emit (path_join root file) sub
                                  else ret None) s1))
                           (snd ((if b then emit (path_join root file) sub
                                  else ret None) s2))
                     with
                     | true =>
                         emit_match_in_step (path_join root file) sub s1 s2
                           Hs
                     | false => conj eq_refl Hs
                     end)
                  subs _ _ Hopen) as [Hr Hs].
      fold (subs_loop (path_join root file) subs) in Hr, Hs.
      destruct (subs_loop _ subs (with_world st1 _)) as [r1 s1].
      destruct (subs_loop _ subs (with_world st2 _)) as [r2 s2].
      cbn [fst snd] in Hr, Hs. subst r2.
      destruct r1 as [r|e]; split; trivial.
    + split; [reflexivity|exact Hst].
  - rewrite !scan_file_other by exact Hend. now split.
Qed.

Lemma scan_walk_in_step (walk : list (pystr * list pystr * list pystr))
    (st1 st2 : Search) :
  in_step sent1 sent2 st1 st2 ->
  fst (walk_loop walk st1) = fst (walk_loop walk st2) /\
  in_step sent1 sent2 (snd (walk_loop walk st1)) (snd (walk_loop walk st2)).
Proof.
  unfold scan_walk. apply for_related. intros [[root dirs] files].
  unfold scan_files. apply for_related. intros file.
  apply scan_file_in_step.
Qed.

End Stateless.

(** On two sound connections the same query is reported alike and writes
    the same frames. *)
Lemma stream_in_step (fs : FileSystem) (lower : pystr -> pystr)
    (directory search_string : pystr) (w1 w2 : World) :
  sound (conn w1) -> sound (conn w2) ->
  exists found frames w1' w2',
    stream_subtitle_search fs lower directory search_string w1
    = (Ok found, w1') /\
    stream_subtitle_search fs lower directory search_string w2
    = (Ok found, w2') /\
    sound (conn w1') /\ sound (conn w2') /\
    sent (conn w1') = sent (conn w1) ++ frames /\
    sent (conn w2') = sent (conn w2) ++ frames.
Proof.
  intros Hs1 Hs2. unfold stream_subtitle_search. rewrite !run_search_walk.
  destruct (scan_walk_in_step fs lower directory search_string
              (fst (lang_suffixes search_string))
              (snd (lang_suffixes search_string))
              (sent (conn w1)) (sent (conn w2)) (os_walk fs directory)
              {| world := w1; found_matches := false; count := 0 |}
              {| world := w2; found_matches := false; count := 0 |})
    as [Hr Hstep].
  { split; [exact Hs1|]. split; [exact Hs2|]. split; [reflexivity|].
    split; [reflexivity|]. exists []. cbn. now rewrite !app_nil_r. }
  destruct (scan_walk _ _ _ _ _ _ _ {| world := w1; found_matches := false;
                                       count := 0 |})
    as [r1 st1] eqn:E1.
  destruct (scan_walk _ _ _ _ _ _ _ {| world := w2; found_matches := false;
                                       count := 0 |})
    as [r2 st2] eqn:E2.
  cbn [fst snd] in Hr, Hstep. subst r2.
  destruct Hstep as (Hs1' & Hs2' & Hf & _ & frames & Hsent1 & Hsent2).
  destruct r1 as [[v|]|e].
  - exists v, frames, (world st1), (world st2). auto 10.
  - exists (found_matches st1), frames, (world st1), (world st2).
    rewrite <- Hf. auto 10.
  - exfalso. exact (scan_walk_no_raise _ _ _ _ _ _ _ _ _ _ E1).
Qed.

(** X13.  A query keeps no state: on connections on which writes succeed,
    what a round of the session writes for a query is fixed by the files
    and the query.  Whatever the two sessions have written and printed
    before, the same query makes them write the same payloads; so the same
    query, sent twice in a row, is answered twice alike. *)
Theorem query_is_stateless (fs : FileSystem) (lower : pystr -> pystr)
    (addr1 addr2 directory search_str : pystr) (w1 w2 : World) :
  sound (conn w1) -> sound (conn w2) ->
  exists answer w1' w2',
    serve_query fs lower addr1 directory search_str w1 = (Ok tt, w1') /\
    serve_query fs lower addr2 directory search_str w2 = (Ok tt, w2') /\
    sound (conn w1') /\ sound (conn w2') /\
    sent (conn w1') = sent (conn w1) ++ answer /\
    sent (conn w2') = sent (conn w2) ++ answer.
Proof.
  intros Hs1 Hs2. unfold serve_query.
  set (line1 := py "[SEARCH] Client " ++ addr1 ++ py " searching for: '"
                ++ search_str ++ py "'").
  set (line2 := py "[SEARCH] Client " ++ addr2 ++ py " searching for: '"
                ++ search_str ++ py "'").
  rewrite (bind_ok (print line1) _ w1 tt (printed w1 line1) eq_refl).
  rewrite (bind_ok (print line2) _ w2 tt (printed w2 line2) eq_refl).
  destruct (stream_in_step fs lower directory search_str
              (printed w1 line1) (printed w2 line2) Hs1 Hs2)
    as (found & frames & u1 & u2 & Hrun1 & Hrun2 & Hu1 & Hu2 & Hsent1
        & Hsent2).
  rewrite (bind_ok _ _ _ _ _ Hrun1), (bind_ok _ _ _ _ _ Hrun2).
  cbn [conn printed] in Hsent1, Hsent2.
  destruct found; cbn [negb].
  - rewrite (bind_ok (ret tt) _ u1 tt u1 eq_refl).
    rewrite (bind_ok (ret tt) _ u2 tt u2 eq_refl).
    destruct (sendall_sound END_MARKER u1 Hu1) as (v1 & -> & Hv1 & Hs1').
    destruct (sendall_sound END_MARKER u2 Hu2) as (v2 & -> & Hv2 & Hs2').
    exists (frames ++ [END_MARKER]), v1, v2.
    rewrite Hs1', Hs2', Hsent1, Hsent2, !app_assoc. auto 10.
  - destruct (sendall_sound no_results_msg u1 Hu1)
      as (v1 & Hn1 & Hv1 & Hs1').
    destruct (sendall_sound no_results_msg u2 Hu2)
      as (v2 & Hn2 & Hv2 & Hs2').
    rewrite (bind_ok _ _ _ _ _ Hn1), (bind_ok _ _ _ _ _ Hn2).
    destruct (sendall_sound END_MARKER v1 Hv1) as (x1 & -> & Hx1 & Hs1'').
    destruct (sendall_sound END_MARKER v2 Hv2) as (x2 & -> & Hx2 & Hs2'').
    exists (frames ++ [no_results_msg] ++ [END_MARKER]), x1, x2.
    rewrite Hs1'', Hs2'', Hs1', Hs2', Hsent1, Hsent2, <- !app_assoc.
    auto 10.
Qed.

Lemma query_is_stateless_witness :
  exists answer w1' w2',
    serve_query fs_movie ascii_lower (py "peer") (py ".") (py "hello")
      (world_of healthy) = (Ok tt, w1') /\
    serve_query fs_movie ascii_lower (py "peer") (py ".") (py "hello") w1'
    = (Ok tt, w2') /\
    sent (conn w1') = answer /\
    sent (conn w2') = answer ++ answer.
Proof.
  destruct (query_is_stateless fs_movie ascii_lower (py "peer") (py "peer")
              (py ".") (py "hello") (world_of healthy) (world_of healthy)
              (conj eq_refl eq_refl) (conj eq_refl eq_refl))
    as (answer & w1' & _ & Hrun1 & _ & Hsound1 & _ & Hsent1 & _).
  destruct (query_is_stateless fs_movie ascii_lower (py "peer") (py "peer")
              (py ".") (py "hello") (world_of healthy) w1'
              (conj eq_refl eq_refl) Hsound1)
    as (answer' & u & w2' & Hrun1' & Hrun2 & _ & _ & Hsent1' & Hsent2).
  rewrite Hrun1 in Hrun1'. injection Hrun1' as <-.
  rewrite Hsent1 in Hsent1'. apply app_inv_head in Hsent1'. subst answer'.
  exists answer, w1', w2'. cbn in Hsent1.
  split; [exact Hrun1|]. split; [exact Hrun2|]. split; [exact Hsent1|].
  now rewrite Hsent2, Hsent1.
Defined.
(* ================================================================= *)
(** ** The client: reading a response *)

(** Splitting on one character. *)
Lemma split_char_cons (c x : N) (s : pystr) :
  str_split [c] (x :: s)
  = if (c =? x)%N then [] :: str_split [c] s
    else match str_split [c] s with
         | piece :: pieces => (x :: piece) :: pieces
         | [] => [[x]]
         end.
Proof.
  unfold str_split. cbn [split_from startswith length Nat.sub].
  now destruct (c =? x)%N.
Qed.

Lemma split_char_not_nil (c : N) (s : pystr) : str_split [c] s <> [].
Proof.
  induction s as [|x s IH]; [discriminate|].
  rewrite split_char_cons. destruct (c =? x)%N; [discriminate|].
  now destruct (str_split [c] s).
Qed.

Lemma split_char_pieces (c : N) (s : pystr) :
  Forall (fun piece => ~ In c piece) (str_split [c] s).
Proof.
  induction s as [|x s IH]; [repeat constructor; tauto|].
  rewrite split_char_cons. destruct (N.eqb_spec c x) as [<-|Hx].
  - constructor; [tauto|exact IH].
  - destruct (str_split [c] s) as [|piece pieces]; inversion IH; subst.
    + repeat constructor. intros [H|[]]. congruence.
    + constructor; [|assumption]. intros [H|H]; [congruence|tauto].
Qed.

Lemma without_newlines_app (a b : pystr) :
  without_newlines (a ++ b) = without_newlines a ++ without_newlines b.
Proof. apply filter_app. Qed.

(** The pieces of a text, put end to end, are the text without the
    separators. *)
Lemma split_newline_concat (s : pystr) :
  without_newlines (concat (str_split [nl] s)) = without_newlines s.
Proof.
  induction s as [|x s IH]; [reflexivity|].
  rewrite split_char_cons. destruct (N.eqb_spec nl x) as [<-|Hx].
  - cbn [concat app]. rewrite IH. reflexivity.
  - pose proof (split_char_not_nil nl s) as Hne.
    destruct (str_split [nl] s) as [|piece pieces]; [contradiction|].
    cbn [concat app] in IH |- *. unfold without_newlines in *.
    cbn [filter]. now rewrite IH.
Qed.

Lemma concat_nonempty (l : list pystr) :
  concat (filter nonempty l) = concat l.
Proof.
  induction l as [|p l IH]; [reflexivity|].
  destruct p; cbn; now rewrite IH.
Qed.

Section Reading.

Variable colored : pystr -> pystr -> pystr.

(** One turn of the loop on a chunk without the marker: the lines that are
    complete are printed, the rest is kept, and nothing but newlines is
    lost. *)
Lemma receive_chunk_lines (data : pystr) (c : Client) :
  has_end_marker data = false ->
  receiving (receive_chunk colored data c) = true /\
  exists lines,
    console (receive_chunk colored data c)
    = console c ++ shown colored lines /\
    Forall whole_line lines /\
    without_newlines (concat lines ++ buffer (receive_chunk colored data c))
    = without_newlines (buffer c ++ data).
Proof.
  unfold has_end_marker, receive_chunk. intros ->.
  destruct (1 <? length (str_split [nl] (buffer c ++ data))) eqn:Hlen;
    cbn [receiving console buffer].
  - split; [reflexivity|].
    exists (filter nonempty
              (removelast (str_split [nl] (buffer c ++ data)))).
    split; [reflexivity|]. split.
    + apply Forall_forall. intros line Hin. apply filter_In in Hin.
      destruct Hin as [Hin Hne]. split; [now destruct line|].
      pose proof (split_char_pieces nl (buffer c ++ data)) as Hp.
      rewrite Forall_forall in Hp. apply Hp.
      rewrite (app_removelast_last []
                 (split_char_not_nil nl (buffer c ++ data))).
      apply in_or_app. now left.
    + rewrite without_newlines_app, concat_nonempty.
      rewrite <- (split_newline_concat (buffer c ++ data)).
      rewrite (app_removelast_last []
                 (split_char_not_nil nl (buffer c ++ data))) at 3.
      rewrite concat_app, without_newlines_app. cbn [concat].
      now rewrite app_nil_r.
  - split; [reflexivity|]. exists []. split; [now rewrite app_nil_r|].
    split; [constructor|reflexivity].
Qed.

Lemma receive_loop_lines (datas : list pystr) :
  forall c : Client,
    receiving c = true ->
    Forall (fun data => has_end_marker data = false) datas ->
    exists c',
      receive_loop colored (map Ok datas) c = Ok c' /\
      receiving c' = true /\
      exists lines,
        console c' = console c ++ shown colored lines /\
        Forall whole_line lines /\
        without_newlines (concat lines ++ buffer c')
        = without_newlines (buffer c ++ concat datas).
Proof.
  induction datas as [|data datas IH]; intros c Hc Hall.
  - exists c. split; [reflexivity|]. split; [exact Hc|]. exists [].
    cbn. now rewrite !app_nil_r.
  - inversion Hall as [|? ? Hdata Hrest]; subst.
    cbn [map receive_loop]. rewrite Hc.
    destruct (receive_chunk_lines data c Hdata)
      as (Hc1 & lines1 & Hcons1 & Hw1 & Hkeep1).
    destruct (IH (receive_chunk colored data c) Hc1 Hrest)
      as (c' & Hrun & Hc' & lines2 & Hcons2 & Hw2 & Hkeep2).
    exists c'. split; [exact Hrun|]. split; [exact Hc'|].
    exists (lines1 ++ lines2). split; [|split].
    + rewrite Hcons2, Hcons1. unfold shown.
      now rewrite map_app, app_assoc.
    + apply Forall_app. now split.
    + rewrite concat_app, <- app_assoc, without_newlines_app, Hkeep2.
      rewrite <- without_newlines_app, app_assoc, without_newlines_app.
      rewrite Hkeep1. cbn [concat].
      now rewrite <- without_newlines_app, <- app_assoc.
Qed.

Lemma receive_loop_app (pre : list pystr) (later : list (res pystr))
    (c c' : Client) :
  receive_loop colored (map Ok pre) c = Ok c' ->
  receiving c' = true ->
  receive_loop colored (map Ok pre ++ later) c
  = receive_loop colored later c'.
Proof.
  revert c. induction pre as [|data pre IH]; intros c Hrun Hc'.
  - cbn in Hrun |- *. now injection Hrun as ->.
  - cbn [map app receive_loop] in Hrun |- *.
    destruct (receiving c) eqn:Hc.
    + now apply IH.
    + injection Hrun as ->. congruence.
Qed.

End Reading.

(** X14.  The loop that reads a response goes on as long as no chunk that
    [recv] gives holds the marker [<END>] as a whole, and ends at the first
    chunk that does: the marker is deleted from that chunk, the rest of it
    joins the buffer, and what arrives after it is not read.  A marker cut
    in two by the chunks is not seen.  When [recv] raises before that, the
    loop raises. *)
Theorem reading_ends_at_marker (colored : pystr -> pystr -> pystr)
    (pre : list pystr) :
  Forall (fun data => has_end_marker data = false) pre ->
  exists c,
    receive_loop colored (map Ok pre) fresh_client = Ok c /\
    receiving c = true /\
    (forall data later,
       has_end_marker data = true ->
       receive_loop colored (map Ok pre ++ Ok data :: later) fresh_client
       = Ok {| buffer := buffer c ++ str_replace (py "<END>") [] data;
               receiving := false;
               console := console c |}) /\
    (forall e later,
       receive_loop colored (map Ok pre ++ Raise e :: later) fresh_client
       = Raise e).
Proof.
  intros Hpre.
  destruct (receive_loop_lines colored pre fresh_client eq_refl Hpre)
    as (c & Hrun & Hc & _).
  exists c. split; [exact Hrun|]. split; [exact Hc|]. split.
  - intros data later Hdata.
    rewrite (receive_loop_app colored pre _ _ _ Hrun Hc).
    cbn [receive_loop]. rewrite Hc. unfold receive_chunk.
    unfold has_end_marker in Hdata. rewrite Hdata.
    now destruct later.
  - intros e later.
    rewrite (receive_loop_app colored pre _ _ _ Hrun Hc).
    cbn [receive_loop]. now rewrite Hc.
Qed.

Lemma reading_ends_at_marker_witness :
  exists c,
    receive_loop tagged [Ok (py "bye <EN"); Ok (py "D>")] fresh_client
    = Ok c /\
    receiving c = true.
Proof.
  destruct (reading_ends_at_marker tagged [py "bye <EN"; py "D>"])
    as (c & Hrun & Hc & _).
  - repeat constructor.
  - exists c. now split.
Defined.

(** X15.  While it reads, the client prints whole lines only: each line it
    prints is not empty and holds no newline; a line is printed once the
    newline that ends it has arrived, and the unfinished rest is kept in the
    buffer and joined with what arrives next.  Nothing of what was received
    is lost but the newlines. *)
Theorem client_prints_whole_lines (colored : pystr -> pystr -> pystr)
    (datas : list pystr) :
  Forall (fun data => has_end_marker data = false) datas ->
  exists c lines,
    receive_loop colored (map Ok datas) fresh_client = Ok c /\
    console c = shown colored lines /\
    Forall whole_line lines /\
    without_newlines (concat lines ++ buffer c)
    = without_newlines (concat datas).
Proof.
  intros Hall.
  destruct (receive_loop_lines colored datas fresh_client eq_refl Hall)
    as (c & Hrun & _ & lines & Hcons & Hw & Hkeep).
  exists c, lines. auto.
Qed.

Lemma client_prints_whole_lines_witness :
  exists c,
    receive_loop tagged [Ok (py "one" ++ [nl] ++ py "tw");
                         Ok (py "o" ++ [nl; nl] ++ py "thr")] fresh_client
    = Ok c /\
    console c = shown tagged [py "one"; py "two"] /\
    buffer c = py "thr".
Proof.
  destruct (client_prints_whole_lines tagged
              [py "one" ++ [nl] ++ py "tw"; py "o" ++ [nl; nl] ++ py "thr"])
    as (c & lines & Hrun & _).
  - repeat constructor.
  - exists c. split; [exact Hrun|].
    vm_compute in Hrun. injection Hrun as <-. now split.
Defined.

(** X16.  Reading a response to its end: when the chunk with the marker has
    arrived, the client has printed the whole lines received before it, and
    then prints the buffer once more, as it is, unless it is blank.  The
    lines and the buffer together hold what was received, the marker and
    the newlines apart. *)
Theorem response_is_shown (colored : pystr -> pystr -> pystr)
    (pre : list pystr) (data : pystr) (later : list (res pystr)) :
  Forall (fun data => has_end_marker data = false) pre ->
  has_end_marker data = true ->
  exists c lines,
    read_response colored (map Ok pre ++ Ok data :: later) = Ok c /\
    receiving c = false /\
    Forall whole_line lines /\
    console c
    = shown colored lines
      ++ (if nonempty (strip (buffer c))
          then [colored (buffer c) (py "cyan")] else []) /\
    without_newlines (concat lines ++ buffer c)
    = without_newlines
        (concat pre ++ str_replace (py "<END>") [] data).
Proof.
  intros Hpre Hdata.
  destruct (receive_loop_lines colored pre fresh_client eq_refl Hpre)
    as (c0 & Hrun & Hc0 & lines & Hcons & Hw & Hkeep).
  assert (Hloop :
            receive_loop colored (map Ok pre ++ Ok data :: later)
              fresh_client
            = Ok {| buffer := buffer c0 ++ str_replace (py "<END>") [] data;
                    receiving := false;
                    console := console c0 |}).
  { rewrite (receive_loop_app colored pre _ _ _ Hrun Hc0).
    cbn [receive_loop]. rewrite Hc0. unfold receive_chunk.
    unfold has_end_marker in Hdata. rewrite Hdata. now destruct later. }
  unfold read_response, fresh_client in *. rewrite Hloop.
  cbn [res_bind receiving]. unfold flush_buffer. cbn [buffer].
  destruct (strip (buffer c0 ++ str_replace (py "<END>") [] data))
    as [|x rest] eqn:Hs;
    eexists; exists lines; (split; [reflexivity|]);
    cbn [receiving console buffer]; rewrite Hs; cbn [nonempty];
    (split; [reflexivity|]); (split; [exact Hw|]); rewrite Hcons;
    cbn [console app]; (split; [try (now rewrite app_nil_r); reflexivity|]);
    rewrite app_assoc, without_newlines_app, Hkeep;
    now rewrite <- without_newlines_app.
Qed.

Lemma response_is_shown_witness :
  read_response tagged [Ok no_results_msg; Ok END_MARKER]
  = Ok {| buffer := no_results_msg ++ [nl; nl];
          receiving := false;
          console := [tagged (no_results_msg ++ [nl; nl]) (py "cyan")] |}.
Proof.
  destruct (response_is_shown tagged [no_results_msg] END_MARKER [])
    as (c & lines & Hrun & _).
  - repeat constructor.
  - reflexivity.
  - cbn [map app] in Hrun. rewrite Hrun.
    vm_compute in Hrun. now injection Hrun as <-.
Defined.
(* ================================================================= *)
(** ** The answer to a query, when nothing fails *)

Lemma emits_nothing (frame : pystr * SubRipItem -> pystr) :
  emits frame (ret None) [].
Proof.
  intros st Hs Hc. exists st. unfold SEARCH_LIMIT in *.
  replace (12 - count st <=? length (@nil (pystr * SubRipItem)))
    with false by (symmetry; apply Nat.leb_gt; cbn [length]; lia).
  split; [reflexivity|]. split; [exact Hs|].
  rewrite firstn_nil. cbn. rewrite app_nil_r, orb_false_r.
  split; [reflexivity|]. intros _. split; [lia|reflexivity].
Qed.

(** A loop writes the frames of what its bodies write, one after the
    other, up to the limit. *)
Lemma for_emits {X} (frame : pystr * SubRipItem -> pystr)
    (body : X -> M Search (option bool))
    (items : X -> list (pystr * SubRipItem)) (xs : list X) :
  (forall x, In x xs -> emits frame (body x) (items x)) ->
  emits frame (for_ xs body) (flat_map items xs).
Proof.
  induction xs as [|x xs IH]; intros Hbody; [apply emits_nothing|].
  intros st Hs Hc. cbn [for_ flat_map].
  destruct (Hbody x (or_introl eq_refl) st Hs Hc)
    as (st1 & Hrun & Hs1 & Hsent1 & Hgo1).
  unfold bind. rewrite Hrun. rewrite length_app.
  unfold SEARCH_LIMIT in *.
  destruct (Nat.leb_spec (12 - count st) (length (items x))) as [Hle|Hlt].
  - (* the limit is reached inside [x] *)
    exists st1. unfold ret.
    replace (12 - count st <=? length (items x) + length (flat_map items xs))
      with true by (symmetry; apply Nat.leb_le; lia).
    split; [reflexivity|]. split; [exact Hs1|]. split.
    + rewrite firstn_app.
      replace (12 - count st - length (items x)) with 0 by lia.
      now rewrite firstn_O, app_nil_r.
    + intros H. lia.
  - destruct (Hgo1 Hlt) as [Hcount1 Hfound1].
    destruct (IH (fun y Hy => Hbody y (or_intror Hy)) st1 Hs1)
      as (st2 & Hrun2 & Hs2 & Hsent2 & Hgo2); [unfold SEARCH_LIMIT; lia|].
    unfold SEARCH_LIMIT in *. exists st2. rewrite Hrun2, Hcount1.
    replace (12 - (count st + length (items x))
             <=? length (flat_map items xs))
      with (12 - count st
            <=? length (items x) + length (flat_map items xs)).
    2:{ destruct (Nat.leb_spec (12 - count st)
                    (length (items x) + length (flat_map items xs)));
        symmetry; [apply Nat.leb_le|apply Nat.leb_gt]; lia. }
    split; [reflexivity|]. split; [exact Hs2|]. split.
    + rewrite Hsent2, Hsent1, Hcount1, firstn_app, map_app, <- app_assoc.
      rewrite (firstn_all2 (items x)) by lia.
      replace (12 - count st - length (items x))
        with (12 - (count st + length (items x))) by lia.
      reflexivity.
    + intros H. rewrite Hcount1 in Hgo2.
      destruct Hgo2 as [Hcount2 Hfound2]; [lia|].
      split; [lia|]. rewrite Hfound2, Hfound1, <- orb_assoc. f_equal.
      destruct (items x), (flat_map items xs); reflexivity.
Qed.

Section Answer.

Variable fs : FileSystem.
Variable lower : pystr -> pystr.
Variables directory search_string lang_suffix other_lang_suffix : pystr.

Local Abbreviation frame :=
  (frame_of fs directory lang_suffix other_lang_suffix).
Local Abbreviation emit :=
  (emit_match fs directory lang_suffix other_lang_suffix).
Local Abbreviation subs_loop :=
  (scan_subs fs lower directory search_string lang_suffix other_lang_suffix).
Local Abbreviation file_step :=
  (scan_file fs lower directory search_string lang_suffix other_lang_suffix).
Local Abbreviation files_loop :=
  (scan_files fs lower directory search_string lang_suffix other_lang_suffix).
Local Abbreviation walk_loop :=
  (scan_walk fs lower directory search_string lang_suffix other_lang_suffix).

Lemma emit_match_emits (file_path : pystr) (sub : SubRipItem)
    (tr : Translation) :
  translation_of fs directory lang_suffix other_lang_suffix file_path sub
  = Ok tr ->
  emits frame (emit file_path sub) [(file_path, sub)].
Proof.
  intros Htr st Hs Hc. rewrite emit_match_steps.
  pose proof (resolve_result fs directory lang_suffix other_lang_suffix
                (start sub) file_path one_second (world st)
                {| conn := {| sent := []; faults := []; closed := false |};
                   stdout := []; opened := [] |}) as Hres.
  unfold translation_of in Htr. rewrite Htr in Hres.
  pose proof (resolve_conn fs directory lang_suffix other_lang_suffix
                (start sub) file_path one_second (world st)) as [Hconn _].
  destruct (find_translation_in_other_lang _ _ _ _ _ _ _ (world st))
    as [r w1]. cbn [fst snd] in Hres, Hconn. subst r.
  rewrite <- Hconn in Hs |- *.
  destruct (sendall_sound
              (format_single_result
                 (build_result lang_suffix other_lang_suffix file_path
                    sub tr)) w1 Hs) as (w2 & -> & Hs2 & Hsent2).
  eexists. unfold SEARCH_LIMIT in *. cbn [length].
  replace (12 - count st <=? 1) with (12 <=? count st + 1).
  2:{ destruct (Nat.leb_spec 12 (count st + 1));
      symmetry; [apply Nat.leb_le|apply Nat.leb_gt]; lia. }
  split; [reflexivity|]. cbn [world with_world counted count found_matches].
  split; [exact Hs2|]. split.
  - rewrite Hsent2. f_equal.
    destruct (12 - count st) as [|k] eqn:Hk; [lia|].
    cbn [firstn map]. rewrite firstn_nil. cbn [map].
    unfold frame_of, translation_of. cbn [fst snd]. now rewrite Htr.
  - intros _. split; [reflexivity|]. now rewrite orb_true_r.
Qed.

Lemma scan_subs_emits (file_path : pystr) (subs : list SubRipItem) :
  (forall sub,
     In sub subs -> matches lower search_string sub = true ->
     exists tr,
       translation_of fs directory lang_suffix other_lang_suffix
         file_path sub = Ok tr) ->
  emits frame (subs_loop file_path subs)
    (map (pair file_path) (filter (matches lower search_string) subs)).
Proof.
  intros Hlook.
  replace (map (pair file_path) (filter (matches lower search_string) subs))
    with (flat_map
            (fun sub => if matches lower search_string sub
                        then [(file_path, sub)] else []) subs).
  2:{ clear. induction subs as [|sub subs IH]; [reflexivity|].
      cbn. destruct (matches lower search_string sub); cbn; now rewrite IH. }
  unfold scan_subs. apply for_emits. intros sub Hin.
  destruct (matches lower search_string sub) eqn:Hm.
  - destruct (Hlook sub Hin Hm) as [tr Htr].
    exact (emit_match_emits file_path sub tr Htr).
  - apply emits_nothing.
Qed.

Lemma emits_same_conn (m : M Search (option bool))
    (items : list (pystr * SubRipItem)) (st st0 : Search) :
  conn (world st0) = conn (world st) ->
  count st0 = count st -> found_matches st0 = found_matches st ->
  emits frame m items ->
  sound (conn (world st)) -> count st < SEARCH_LIMIT ->
  exists st',
    m st0
    = (Ok (if SEARCH_LIMIT - count st <=? length items
           then Some true else None), st') /\
    sound (conn (world st')) /\
    sent (conn (world st'))
    = sent (conn (world st))
      ++ map frame (firstn (SEARCH_LIMIT - count st) items) /\
    (length items < SEARCH_LIMIT - count st ->
     count st' = count st + length items /\
     found_matches st'
     = found_matches st || match items with [] => false | _ => true end).
Proof.
  intros Hconn Hcount Hfound Hm Hs Hc.
  rewrite <- Hconn, <- Hcount, <- Hfound in *. now apply Hm.
Qed.

Lemma scan_file_emits (root file : pystr) :
  (forall subs sub,
     endswith file (py "_" ++ lang_suffix ++ py ".srt") = true ->
     pysrt_open fs (path_join root file) = Ok subs ->
     In sub subs -> matches lower search_string sub = true ->
     exists tr,
       translation_of fs directory lang_suffix other_lang_suffix
         (path_join root file) sub = Ok tr) ->
  emits frame (file_step root file)
    (if endswith file (py "_" ++ lang_suffix ++ py ".srt")
     then found_in_file fs lower search_string (path_join root file)
     else []).
Proof.
  intros Hlook.
  destruct (endswith file (py "_" ++ lang_suffix ++ py ".srt")) eqn:Hend.
  - intros st Hs Hc. rewrite (scan_file_steps _ _ _ _ _ _ _ _ _ Hend).
    unfold found_in_file.
    destruct (pysrt_open fs (path_join root file)) as [subs|e] eqn:Hopen.
    + destruct (emits_same_conn _ _ st
                  (with_world st
                     (having_opened (world st) (path_join root file)))
                  eq_refl eq_refl eq_refl
                  (scan_subs_emits (path_join root file) subs
                     (fun sub Hin Hm => Hlook subs sub eq_refl eq_refl Hin Hm))
                  Hs Hc) as (st' & Hrun & Hrest).
      exists st'. rewrite Hrun. split; [|exact Hrest].
      now destruct (SEARCH_LIMIT - count st <=? _).
    + exact (emits_same_conn _ _ st (logged st (path_join root file) e)
               eq_refl eq_refl eq_refl (emits_nothing frame) Hs Hc).
  - intros st Hs Hc. rewrite scan_file_other by exact Hend.
    now apply emits_nothing.
Qed.

Lemma scan_walk_emits (walk : list (pystr * list pystr * list pystr)) :
  (forall item,
     In item (found_in_walk fs lower search_string lang_suffix walk) ->
     exists tr,
       translation_of fs directory lang_suffix other_lang_suffix
         (fst item) (snd item) = Ok tr) ->
  emits frame (walk_loop walk)
    (found_in_walk fs lower search_string lang_suffix walk).
Proof.
  intros Hlook. unfold scan_walk, found_in_walk. apply for_emits.
  intros [[root dirs] files] Hentry. unfold scan_files, found_in_files.
  apply for_emits. intros file Hfile. apply scan_file_emits.
  intros subs sub Hend Hopen Hin Hm.
  apply (Hlook (path_join root file, sub)).
  unfold found_in_walk. apply in_flat_map.
  exists (root, dirs, files). split; [exact Hentry|].
  unfold found_in_files. apply in_flat_map. exists file.
  split; [exact Hfile|]. rewrite Hend. unfold found_in_file. rewrite Hopen.
  apply in_map, filter_In. now split.
Qed.

End Answer.

(** X17.  When writes succeed and no lookup of a translation raises, the
    answer to a query is fixed by the files: the search writes the frames of
    the matching records in the order in which it meets them (the order of
    the walk, of the listing of each directory, and of the records in each
    file), the first twelve of them at most and nothing else, and reports
    whether there was a match. *)
Theorem search_writes_first_matches (fs : FileSystem)
    (lower : pystr -> pystr) (directory search_string : pystr) (w : World) :
  let lang := fst (lang_suffixes search_string) in
  let other := snd (lang_suffixes search_string) in
  let found :=
    found_in_walk fs lower search_string lang (os_walk fs directory) in
  sound (conn w) ->
  (forall item,
     In item found ->
     exists tr,
       translation_of fs directory lang other (fst item) (snd item)
       = Ok tr) ->
  exists w',
    stream_subtitle_search fs lower directory search_string w
    = (Ok (match found with [] => false | _ => true end), w') /\
    sent (conn w')
    = sent (conn w)
      ++ map (frame_of fs directory lang other) (firstn SEARCH_LIMIT found).
Proof.
  intros lang other found Hs Hlook.
  unfold stream_subtitle_search. rewrite run_search_walk.
  destruct (scan_walk_emits fs lower directory search_string lang other
              (os_walk fs directory) Hlook
              {| world := w; found_matches := false; count := 0 |} Hs)
    as (st' & Hrun & _ & Hsent & Hgo).
  { unfold SEARCH_LIMIT. cbn. lia. }
  fold lang other. rewrite Hrun. cbn [count world] in Hsent, Hgo.
  rewrite Nat.sub_0_r in Hsent, Hgo. fold found in Hsent, Hgo |- *.
  rewrite Nat.sub_0_r.
  destruct (Nat.leb_spec SEARCH_LIMIT (length found)) as [Hle|Hlt].
  - exists (world st'). split; [|exact Hsent].
    destruct found; [cbn in Hle; unfold SEARCH_LIMIT in Hle; lia|].
    reflexivity.
  - exists (world st'). destruct (Hgo Hlt) as [_ Hfound].
    rewrite Hfound. split; [reflexivity|exact Hsent].
Qed.

Lemma search_writes_first_matches_witness :
  exists w',
    stream_subtitle_search fs_full ascii_lower (py ".") (py "hello")
      (world_of healthy) = (Ok true, w') /\
    sent (conn w')
    = map (frame_of fs_full (py ".") (py "en") (py "ru"))
        (map (pair (py "./a_en.srt")) (hello_subs 12)).
Proof.
  destruct (search_writes_first_matches fs_full ascii_lower (py ".")
              (py "hello") (world_of healthy)) as (w' & Hrun & Hsent).
  - now split.
  - intros item Hin. vm_compute in Hin.
    repeat (destruct Hin as [<-|Hin]; [eexists; reflexivity|]).
    contradiction.
  - exists w'. split; [exact Hrun|exact Hsent].
Defined.
(* ================================================================= *)
(** ** Frames and the end marker *)

Lemma last_default (y : N) (a : pystr) (d d' : N) :
  last (y :: a) d = last (y :: a) d'.
Proof.
  revert y. induction a as [|z a IH]; intros y; [reflexivity|].
  exact (IH z).
Qed.

Section Pattern.

Variable m : pystr.

(** An occurrence at the front of [s ++ b] lies in [s], or [s] is a piece of
    the pattern and [b] starts with the rest. *)
Lemma startswith_app_cases (s b : pystr) :
  startswith m (s ++ b) = true ->
  startswith m s = true \/
  exists m1 m2, m = m1 ++ m2 /\ m2 <> [] /\ s = m1 /\ startswith m2 b = true.
Proof.
  revert s. induction m as [|a m' IH]; intros s H; [now left|].
  destruct s as [|x s].
  - right. exists [], (a :: m'). now repeat split.
  - cbn [app startswith] in H |- *. apply andb_prop in H.
    destruct H as [Hax H]. rewrite Hax. cbn [andb].
    destruct (IH s H) as [Hs|(m1 & m2 & -> & Hm2 & -> & Hb)]; [now left|].
    right. exists (a :: m1), m2. apply N.eqb_eq in Hax. subst x.
    now repeat split.
Qed.

Lemma existsb_eqb_false (c : N) (l : pystr) :
  existsb (N.eqb c) l = false -> ~ In c l.
Proof.
  intros H Hin.
  assert (existsb (N.eqb c) l = true)
    by (apply existsb_exists; exists c; split; [exact Hin|apply N.eqb_refl]).
  congruence.
Qed.

(** A text without the pattern, followed by one without it that starts
    with a character the pattern does not continue with, is without it. *)
Lemma without_pattern_app_head (a b : pystr) :
  contains a m = false -> contains b m = false -> head_free m b = true ->
  contains (a ++ b) m = false.
Proof.
  intros Ha Hb Hhead. induction a as [|x a IH]; [exact Hb|].
  apply contains_false_cons in Ha. destruct Ha as [Hx Ha].
  cbn [app contains]. rewrite (IH Ha), orb_false_r.
  destruct (startswith m (x :: a ++ b)) eqn:E; [|reflexivity].
  exfalso. change (x :: a ++ b) with ((x :: a) ++ b) in E.
  destruct (startswith_app_cases _ _ E)
    as [H|(m1 & m2 & Hm & Hm2 & Hs & Hstart)]; [congruence|].
  destruct m2 as [|c m2]; [contradiction|].
  destruct b as [|c' b]; [discriminate|].
  cbn [startswith] in Hstart. apply andb_prop in Hstart.
  destruct Hstart as [Hc _]. apply N.eqb_eq in Hc. subst c'.
  cbn [head_free] in Hhead. apply negb_true_iff in Hhead.
  apply existsb_eqb_false in Hhead. apply Hhead.
  rewrite Hm, <- Hs. cbn [app tl]. apply in_elt.
Qed.

(** A text without the pattern that ends with a character the pattern does
    not go on from, followed by one without the pattern, is without it. *)
Lemma without_pattern_app_last (a b : pystr) :
  contains a m = false -> contains b m = false -> last_free m a = true ->
  contains (a ++ b) m = false.
Proof.
  intros Ha Hb Hlast. induction a as [|x a IH]; [discriminate|].
  apply contains_false_cons in Ha. destruct Ha as [Hx Ha].
  cbn [app contains].
  assert (Hrest : contains (a ++ b) m = false).
  { destruct a as [|y a]; [exact Hb|]. apply IH; [exact Ha|].
    cbn [last_free] in Hlast |- *.
    change (last (x :: y :: a) x) with (last (y :: a) x) in Hlast.
    now rewrite (last_default y a x y) in Hlast. }
  rewrite Hrest, orb_false_r.
  destruct (startswith m (x :: a ++ b)) eqn:E; [|reflexivity].
  exfalso. change (x :: a ++ b) with ((x :: a) ++ b) in E.
  destruct (startswith_app_cases _ _ E)
    as [H|(m1 & m2 & Hm & Hm2 & Hs & Hstart)]; [congruence|].
  cbn [last_free] in Hlast. apply negb_true_iff in Hlast.
  apply existsb_eqb_false in Hlast. apply Hlast.
  rewrite Hm, <- Hs.
  destruct (@exists_last _ m2 Hm2) as (m2' & z & ->).
  rewrite app_assoc, removelast_last.
  apply in_or_app. left.
  destruct (@exists_last _ (x :: a)) as (l & z' & Hz); [discriminate|].
  rewrite Hz, last_last. apply in_elt.
Qed.

(** A field, a separator, and what follows. *)
Lemma without_pattern_field (field sep rest : pystr) :
  contains field m = false ->
  contains sep m = false -> head_free m sep = true ->
  last_free m sep = true ->
  contains rest m = false ->
  contains (field ++ sep ++ rest) m = false.
Proof.
  intros Hf Hs Hhead Hlast Hr.
  apply without_pattern_app_head; [exact Hf| |].
  - now apply without_pattern_app_last.
  - destruct sep; [discriminate|exact Hhead].
Qed.

End Pattern.

(** The frame, written out. *)
Lemma frame_with_translation (result : MatchResult) (trans : Entry) :
  translation result = Some trans ->
  format_single_result result
  = entry_header (original result) ++ [nl]
    ++ (text_ (original result) ++ [nl]) ++ [nl]
    ++ entry_header trans ++ [nl]
    ++ (text_ trans ++ [nl]) ++ [nl]
    ++ repeat 45%N 80.
Proof. intros H. unfold format_single_result. now rewrite H. Qed.

Lemma frame_alone (result : MatchResult) :
  translation result = None ->
  format_single_result result
  = entry_header (original result) ++ [nl]
    ++ (text_ (original result) ++ [nl]) ++ [nl]
    ++ (py "No corresponding translation found." ++ [nl]) ++ [nl]
    ++ repeat 45%N 80.
Proof. intros H. unfold format_single_result. now rewrite H. Qed.

(** X18.  [format_single_result] brings no end marker into a frame: when no
    field of the original entry, and none of the translation if there is
    one, holds [<END>], the frame does not hold it. *)
Theorem frame_adds_no_marker (result : MatchResult) :
  entry_without_marker (original result) ->
  (forall trans,
     translation result = Some trans -> entry_without_marker trans) ->
  has_end_marker (format_single_result result) = false.
Proof.
  intros (Hl & Hf & Hs & He & Ht) Htrans.
  unfold has_end_marker in *.
  destruct (translation result) as [trans|] eqn:E.
  - destruct (Htrans trans eq_refl) as (Hl2 & Hf2 & Hs2 & He2 & Ht2).
    rewrite (frame_with_translation result trans E).
    unfold entry_header. rewrite <- !app_assoc.
    repeat (apply without_pattern_field;
            [assumption|reflexivity|reflexivity|reflexivity|]).
    apply without_pattern_app_last; [reflexivity| |reflexivity].
    repeat (apply without_pattern_field;
            [assumption|reflexivity|reflexivity|reflexivity|]).
    reflexivity.
  - rewrite (frame_alone result E).
    unfold entry_header. rewrite <- !app_assoc.
    repeat (apply without_pattern_field;
            [assumption|reflexivity|reflexivity|reflexivity|]).
    reflexivity.
Qed.

Lemma frame_adds_no_marker_witness :
  has_end_marker
    (format_single_result
       (build_result (py "en") (py "ru") (py "./movie_en.srt")
          (sub_at "Hello world" 1000) (None, None, None, None)))
  = false.
Proof.
  apply frame_adds_no_marker.
  - repeat split.
  - discriminate.
Defined.
